(** * Regex to NFA: Thompson's construction of [nfa_gui.py]

    A shallow embedding of the conversion core of [nfa_gui.py]
    ([expand_character_classes], [infix_to_postfix], [postfix_to_nfa],
    [regex_to_nfa], and the [NFA] class) together with the properties of
    its specification.

    Conventions of the embedding.
    - A Python character is its Unicode code point ([ord]), a number in [N];
      a Python [str] is a [list] of them.  ['ε'] is code point 949, which is
      why characters are not [ascii].
    - Python exceptions are the constructors of [exn]; a function that may
      raise returns a [result].
    - A Python list used as a stack is a Rocq list whose HEAD is the top
      (Python's [stack[-1]]); [append] is [cons] and [pop] removes the head.
    - A [dict] is a [gmap], a [set] is a [gset].  The builder's fragments are
      values: a fragment popped from the operand stack is referenced by
      nothing but the local variables [nfa1]/[nfa2] of one loop iteration,
      so the inner dictionaries that [dict(nfa1.transitions)] shares with
      the popped operand have a single owner afterwards. *)

From Stdlib Require Import Ascii NArith.
From stdpp Require Import gmap strings list fin_maps.

Local Open Scope N_scope.

(** ** Characters and strings *)

Abbreviation Char := N.

Definition ch (a : ascii) : Char := N_of_ascii a.
Definition str (s : string) : list Char := ch <$> String.list_ascii_of_string s.

Definition LBRACKET : Char := Eval cbv in ch "[".
Definition RBRACKET : Char := Eval cbv in ch "]".
Definition LPAREN : Char := Eval cbv in ch "(".
Definition RPAREN : Char := Eval cbv in ch ")".
Definition DASH : Char := Eval cbv in ch "-".
Definition BAR : Char := Eval cbv in ch "|".
Definition STAR : Char := Eval cbv in ch "*".
Definition PLUS : Char := Eval cbv in ch "+".
Definition QMARK : Char := Eval cbv in ch "?".
Definition DOT : Char := Eval cbv in ch ".".
(** ['ε'], U+03B5. *)
Definition EPSILON : Char := 949.

(** [c in l] for a character and a list of characters (or a string). *)
Definition char_in (c : Char) (l : list Char) : bool := existsb (N.eqb c) l.

(** [sep.join(parts)] *)
Fixpoint join (sep : list Char) (parts : list (list Char)) : list Char :=
  match parts with
  | [] => []
  | [p] => p
  | p :: ps => p ++ sep ++ join sep ps
  end.

(** ** Exceptions *)

Inductive exn : Type :=
  | ValueError (msg : string)
  | IndexError   (* pop from empty list *)
  | KeyError.

Inductive result (A : Type) : Type :=
  | Ok (a : A)
  | Raise (e : exn).
Arguments Ok {A} a.
Arguments Raise {A} e.

Definition rbind {A B} (r : result A) (k : A → result B) : result B :=
  match r with
  | Ok a => k a
  | Raise e => Raise e
  end.

Definition failed {A} (r : result A) : Prop := ∃ e, r = Raise e.

(** ** [expand_character_classes] *)

(** [[chr(c) for c in range(ord(start), ord(end)+1)]]: one single-character
    string per code point; empty when [end < start]. *)
Definition range_chars (start end_ : Char) : list (list Char) :=
  (λ c : nat, [N.of_nat c]) <$>
    seq (N.to_nat start) (N.to_nat end_ + 1 - N.to_nat start).

(** The body of [if regex[i] == '[']] once [j] stands on the closing
    bracket and [content = regex[i+1:j]]: the text appended to [expanded]. *)
Definition expand_class (content : list Char) : result (list Char) :=
  if char_in DASH content && (length content =? 3)%nat then
    match content with
    | [start; dash; end_] =>
        if negb (dash =? DASH) then Raise (ValueError "Invalid character class")
        else Ok ([LPAREN] ++ join [BAR] (range_chars start end_) ++ [RPAREN])
    | _ => Raise (ValueError "not enough values to unpack")
    end
  else Raise (ValueError "Only simple ranges like [a-z] supported").

(** The outer [while i < len(regex)] is [expand_loop], on the suffix
    [regex[i:]]; the inner [while j < len(regex) and regex[j] != ']'] is
    [scan_class], on the suffix [regex[j:]] with [content = regex[i+1:j]]. *)
Fixpoint expand_loop (rest expanded : list Char) : result (list Char) :=
  match rest with
  | [] => Ok expanded
  | c :: rest' =>
      if c =? LBRACKET then scan_class rest' [] expanded
      else expand_loop rest' (expanded ++ [c])
  end
with scan_class (rest content expanded : list Char) : result (list Char) :=
  match rest with
  | [] => Raise (ValueError "Unmatched [ in regex")
  | c :: rest' =>
      if c =? RBRACKET then
        match expand_class content with
        | Ok cls => expand_loop rest' (expanded ++ cls)
        | Raise e => Raise e
        end
      else scan_class rest' (content ++ [c]) expanded
  end.

Definition expand_character_classes (regex : list Char) : result (list Char) :=
  expand_loop regex [].

(** ** [infix_to_postfix] *)

#[global] Instance result_ret : MRet result := @Ok.
#[global] Instance result_bind : MBind result := λ A B k r, rbind r k.

(** Pass 1, the body of [for i in range(length)], with [explicit] the list
    built so far. *)
Definition explicit_step (regex : list Char) (length : nat)
    (explicit : list Char) (i : nat) : list Char :=
  let c := nth i regex 0 in
  let explicit := explicit ++ [c] in
  if (i <? length - 1)%nat then
    let nxt := nth (i + 1) regex 0 in
    if negb (char_in c [LPAREN; BAR])
       && negb (char_in nxt [RPAREN; BAR; STAR; PLUS; QMARK])
    then explicit ++ [DOT]
    else explicit
  else explicit.

Definition insert_concat (regex : list Char) : list Char :=
  let length := length regex in
  foldl (explicit_step regex length) [] (seq 0 length).

(** [precedence = {'*': 3, '+': 3, '?': 3, '.': 2, '|': 1, '(': 0}];
    [None] is a missing key. *)
Definition precedence (c : Char) : option nat :=
  if c =? STAR then Some 3%nat
  else if c =? PLUS then Some 3%nat
  else if c =? QMARK then Some 3%nat
  else if c =? DOT then Some 2%nat
  else if c =? BAR then Some 1%nat
  else if c =? LPAREN then Some 0%nat
  else None.

(** [while stack and stack[-1] != '(': output.append(stack.pop())] *)
Fixpoint pop_to_paren (output stack : list Char) : list Char * list Char :=
  match stack with
  | [] => (output, [])
  | top :: stack' =>
      if negb (top =? LPAREN) then pop_to_paren (output ++ [top]) stack'
      else (output, stack)
  end.

(** [while stack and precedence[stack[-1]] >= precedence[char]:
       output.append(stack.pop())], with [p = precedence[char]]. *)
Fixpoint pop_higher (p : nat) (output stack : list Char)
    : result (list Char * list Char) :=
  match stack with
  | [] => Ok (output, [])
  | top :: stack' =>
      match precedence top with
      | None => Raise KeyError
      | Some q =>
          if (p <=? q)%nat then pop_higher p (output ++ [top]) stack'
          else Ok (output, stack)
      end
  end.

(** Pass 2, the body of [for char in regex]. *)
Definition shunt (char : Char) (output stack : list Char)
    : result (list Char * list Char) :=
  if char =? LPAREN then Ok (output, char :: stack)
  else if char =? RPAREN then
    let '(output, stack) := pop_to_paren output stack in
    match stack with
    | [] => Raise IndexError
    | _ :: stack' => Ok (output, stack')
    end
  else
    match precedence char with
    | Some p =>
        '(output, stack) ← pop_higher p output stack;
        Ok (output, char :: stack)
    | None => Ok (output ++ [char], stack)
    end.

Fixpoint shunting_yard (regex output stack : list Char)
    : result (list Char * list Char) :=
  match regex with
  | [] => Ok (output, stack)
  | char :: regex' =>
      '(output, stack) ← shunt char output stack;
      shunting_yard regex' output stack
  end.

(** The closing [while stack: output.append(stack.pop())] appends the stack
    from its top down. *)
Definition infix_to_postfix (regex : list Char) : result (list Char) :=
  let regex := insert_concat regex in
  '(output, stack) ← shunting_yard regex [] [];
  Ok (output ++ stack).

(** The concatenation rule in the words of the specification: an explicit
    concatenation goes between [c] and [nxt] when [c] is neither an opening
    group nor an alternation and [nxt] is none of a closing group, an
    alternation, or a quantifier. *)
Definition concat_between (c nxt : Char) : Prop :=
  (c ≠ LPAREN ∧ c ≠ BAR)
  ∧ (nxt ≠ RPAREN ∧ nxt ≠ BAR ∧ nxt ≠ STAR ∧ nxt ≠ PLUS ∧ nxt ≠ QMARK).

#[global] Instance concat_between_dec c nxt : Decision (concat_between c nxt).
Proof. unfold concat_between. apply _. Defined.

(** Pass 1 as the specification words it: every character is emitted,
    followed by the operator when the rule asks for one. *)
Fixpoint insert_concat_spec (regex : list Char) : list Char :=
  match regex with
  | [] => []
  | c :: regex' =>
      match regex' with
      | [] => [c]
      | nxt :: _ =>
          if decide (concat_between c nxt)
          then c :: DOT :: insert_concat_spec regex'
          else c :: insert_concat_spec regex'
      end
  end.

(** ** The [NFA] class *)

Record NFA : Type := mkNFA {
  start_state : nat;
  accept_state : nat;
  transitions : gmap nat (gmap N (gset nat))
}.

Definition add_transition (nfa : NFA) (from_state : nat) (symbol : Char)
    (to_state : nat) : NFA :=
  let by_symbol := default ∅ (transitions nfa !! from_state) in
  let dests := default ∅ (by_symbol !! symbol) in
  {| start_state := start_state nfa;
     accept_state := accept_state nfa;
     transitions :=
       <[from_state := <[symbol := dests ∪ {[to_state]}]> by_symbol]>
         (transitions nfa) |}.

(** [all_states] of [to_graphviz]: the keys of the transition map, every
    destination, and the accept state. *)
Definition dests_of (by_symbol : gmap N (gset nat)) : gset nat :=
  ⋃ (map_to_list by_symbol).*2.

Definition keys_and_dests (T : gmap nat (gmap N (gset nat))) : gset nat :=
  dom T ∪ ⋃ (dests_of <$> (map_to_list T).*2).

Definition all_states (nfa : NFA) : gset nat :=
  keys_and_dests (transitions nfa) ∪ {[accept_state nfa]}.

(** ** [postfix_to_nfa] *)

(** The builder's mutable state: the counter cell [next_state_id[0]] and the
    operand [stack]. *)
Record builder : Type := mkBuilder {
  next_state_id : nat;
  stack : list NFA
}.

Definition Build (A : Type) : Type := builder → result (A * builder).

#[global] Instance Build_ret : MRet Build := λ A a b, Ok (a, b).
#[global] Instance Build_bind : MBind Build :=
  λ A B k m b, match m b with
               | Ok (a, b') => k a b'
               | Raise e => Raise e
               end.

Definition new_state : Build nat :=
  λ b, let s := next_state_id b in
       Ok (s, {| next_state_id := S (next_state_id b); stack := stack b |}).

(** [stack.pop()] *)
Definition pop : Build NFA :=
  λ b, match stack b with
       | [] => Raise IndexError
       | nfa :: stack' =>
           Ok (nfa, {| next_state_id := next_state_id b; stack := stack' |})
       end.

(** [stack.append(nfa)] *)
Definition push (nfa : NFA) : Build unit :=
  λ b, Ok ((), {| next_state_id := next_state_id b; stack := nfa :: stack b |}).

(** [for symbol, destinations in transitions.items():
       nfa.transitions[state][symbol] = destinations.copy()] *)
Definition copy_symbols (by_symbol2 target : gmap N (gset nat))
    : gmap N (gset nat) :=
  map_fold (λ symbol destinations acc, <[symbol := destinations]> acc)
    target by_symbol2.

(** [for state, transitions in nfa2.transitions.items(): ...], started from
    [dict(nfa1.transitions)]. *)
Definition merge_transitions (t1 t2 : gmap nat (gmap N (gset nat)))
    : gmap nat (gmap N (gset nat)) :=
  map_fold (λ state by_symbol2 acc,
              <[state := copy_symbols by_symbol2 (default ∅ (acc !! state))]> acc)
    t1 t2.

(** The body of [for char in postfix]. *)
Definition process (char : Char) : Build unit :=
  if negb (char_in char [STAR; PLUS; QMARK; DOT; BAR]) then
    start ← new_state;
    accept ← new_state;
    let nfa := mkNFA start accept ∅ in
    let nfa := add_transition nfa start char accept in
    push nfa
  else if char =? STAR then
    nfa1 ← pop;
    start ← new_state;
    accept ← new_state;
    let nfa := mkNFA start accept (transitions nfa1) in
    let nfa := add_transition nfa start EPSILON (start_state nfa1) in
    let nfa := add_transition nfa (accept_state nfa1) EPSILON (start_state nfa1) in
    let nfa := add_transition nfa start EPSILON accept in
    let nfa := add_transition nfa (accept_state nfa1) EPSILON accept in
    push nfa
  else if char =? PLUS then
    nfa1 ← pop;
    start ← new_state;
    accept ← new_state;
    let nfa := mkNFA start accept (transitions nfa1) in
    let nfa := add_transition nfa start EPSILON (start_state nfa1) in
    let nfa := add_transition nfa (accept_state nfa1) EPSILON (start_state nfa1) in
    let nfa := add_transition nfa (accept_state nfa1) EPSILON accept in
    push nfa
  else if char =? QMARK then
    nfa1 ← pop;
    start ← new_state;
    accept ← new_state;
    let nfa := mkNFA start accept (transitions nfa1) in
    let nfa := add_transition nfa start EPSILON (start_state nfa1) in
    let nfa := add_transition nfa (accept_state nfa1) EPSILON accept in
    let nfa := add_transition nfa start EPSILON accept in
    push nfa
  else if char =? DOT then
    nfa2 ← pop;
    nfa1 ← pop;
    let nfa := mkNFA (start_state nfa1) (accept_state nfa2)
                 (merge_transitions (transitions nfa1) (transitions nfa2)) in
    let nfa := add_transition nfa (accept_state nfa1) EPSILON (start_state nfa2) in
    push nfa
  else if char =? BAR then
    nfa2 ← pop;
    nfa1 ← pop;
    start ← new_state;
    accept ← new_state;
    let nfa := mkNFA start accept
                 (merge_transitions (transitions nfa1) (transitions nfa2)) in
    let nfa := add_transition nfa start EPSILON (start_state nfa1) in
    let nfa := add_transition nfa start EPSILON (start_state nfa2) in
    let nfa := add_transition nfa (accept_state nfa1) EPSILON accept in
    let nfa := add_transition nfa (accept_state nfa2) EPSILON accept in
    push nfa
  else mret ().

Fixpoint process_all (postfix : list Char) : Build unit :=
  match postfix with
  | [] => mret ()
  | char :: postfix' => process char ;; process_all postfix'
  end.

(** [next_state_id = [0]], [stack = []] *)
Definition fresh_builder : builder := {| next_state_id := 0; stack := [] |}.

Definition postfix_to_nfa (postfix : list Char) : result NFA :=
  '(nfa, _) ← (process_all postfix ;; pop) fresh_builder;
  Ok nfa.

(** ** [regex_to_nfa] *)

Definition regex_to_nfa (regex : list Char) : result NFA :=
  regex ← expand_character_classes regex;
  postfix ← infix_to_postfix regex;
  postfix_to_nfa postfix.

(** ** Vocabulary of the specification *)

(** The edge [s --a--> t] is in the transition map: [t in T[s][a]]. *)
Definition has_edge (T : gmap nat (gmap N (gset nat)))
    (s : nat) (a : Char) (t : nat) : Prop :=
  ∃ by_symbol dests,
    T !! s = Some by_symbol ∧ by_symbol !! a = Some dests ∧ t ∈ dests.

Definition edge (nfa : NFA) (s : nat) (a : Char) (t : nat) : Prop :=
  has_edge (transitions nfa) s a t.

(** The entry of the transition map for a (state, symbol) pair. *)
Definition entry (T : gmap nat (gmap N (gset nat))) (s : nat) (a : Char)
    : option (gset nat) :=
  T !! s ≫= λ by_symbol, by_symbol !! a.

(** The states of a fragment: those [to_graphviz] draws, and the start. *)
Definition frag_states (nfa : NFA) : gset nat :=
  {[start_state nfa]} ∪ all_states nfa.

(** Operands an operator token takes from the stack; a literal takes none. *)
Definition operands_required (char : Char) : nat :=
  if char_in char [STAR; PLUS; QMARK] then 1
  else if char_in char [DOT; BAR] then 2
  else 0.

(** Some token of [postfix] is processed with fewer operands on the stack
    than it requires, [depth] being the number of fragments on the stack
    before the first token. *)
Fixpoint underflows (depth : nat) (postfix : list Char) : bool :=
  match postfix with
  | [] => false
  | char :: postfix' =>
      if (depth <? operands_required char)%nat then true
      else underflows (depth - operands_required char + 1) postfix'
  end.

(** The number of fragments left on the stack after [postfix]. *)
Fixpoint fragments_left (depth : nat) (postfix : list Char) : nat :=
  match postfix with
  | [] => depth
  | char :: postfix' =>
      fragments_left (depth - operands_required char + 1) postfix'
  end.

(** The edges the construction table of the specification adds for each
    operator, [s0] and [s1] being the new states and [N1] ([N2]) the left
    (right) operand. *)
Definition star_edges (s0 s1 : nat) (N1 : NFA) : list (nat * Char * nat) :=
  [ (s0, EPSILON, start_state N1);
    (accept_state N1, EPSILON, start_state N1);
    (s0, EPSILON, s1);
    (accept_state N1, EPSILON, s1) ].

Definition plus_edges (s0 s1 : nat) (N1 : NFA) : list (nat * Char * nat) :=
  [ (s0, EPSILON, start_state N1);
    (accept_state N1, EPSILON, start_state N1);
    (accept_state N1, EPSILON, s1) ].

Definition qmark_edges (s0 s1 : nat) (N1 : NFA) : list (nat * Char * nat) :=
  [ (s0, EPSILON, start_state N1);
    (accept_state N1, EPSILON, s1);
    (s0, EPSILON, s1) ].

Definition dot_edges (N1 N2 : NFA) : list (nat * Char * nat) :=
  [ (accept_state N1, EPSILON, start_state N2) ].

Definition bar_edges (s0 s1 : nat) (N1 N2 : NFA) : list (nat * Char * nat) :=
  [ (s0, EPSILON, start_state N1);
    (s0, EPSILON, start_state N2);
    (accept_state N1, EPSILON, s1);
    (accept_state N2, EPSILON, s1) ].

(** One row of the construction table: from builder [b], the token leaves
    builder [b'], in which [minted] states were issued and the operands were
    replaced by one fragment with the given [start], [accept], whose edges
    are those of the [operands] and the [added] ones, and no other. *)
Definition table_row (b b' : builder) (minted : nat) (rest : list NFA)
    (operands : list NFA) (added : list (nat * Char * nat))
    (start accept : nat) : Prop :=
  ∃ nfa,
    b' = {| next_state_id := minted + next_state_id b; stack := nfa :: rest |}
    ∧ start_state nfa = start
    ∧ accept_state nfa = accept
    ∧ ∀ s a t, edge nfa s a t ↔
        (∃ operand, operand ∈ operands ∧ edge operand s a t)
        ∨ (s, a, t) ∈ added.

(** A run of [add_transition] calls and the states they mention. *)
Definition add_edges (nfa : NFA) (edges : list (nat * Char * nat)) : NFA :=
  foldl (λ nfa '(s, a, t), add_transition nfa s a t) nfa edges.
Arguments add_edges : simpl never.

Definition endpoints (edges : list (nat * Char * nat)) : gset nat :=
  list_to_set (edges.*1.*1) ∪ list_to_set (edges.*2).

(** Every state of every fragment on the stack was issued by the counter. *)
Definition states_issued (b : builder) : Prop :=
  ∀ nfa x, nfa ∈ stack b → x ∈ frag_states nfa → (x < next_state_id b)%nat.

(** Two fragments at different positions of the stack share no state. *)
Definition stack_disjoint (b : builder) : Prop :=
  ∀ i j nfa1 nfa2,
    i ≠ j → stack b !! i = Some nfa1 → stack b !! j = Some nfa2 →
    frag_states nfa1 ## frag_states nfa2.

(** Every entry of [T] is still in [T'], with at least its destinations. *)
Definition entries_kept (T T' : gmap nat (gmap N (gset nat))) : Prop :=
  ∀ s a dests, entry T s a = Some dests →
    ∃ dests', entry T' s a = Some dests' ∧ dests ⊆ dests'.

(** Every identifier the counter has issued is a state of a fragment on the
    stack. *)
Definition states_in_use (b : builder) : Prop :=
  ∀ x, (x < next_state_id b)%nat → ∃ nfa, nfa ∈ stack b ∧ x ∈ frag_states nfa.

(** The invariant of the builder between two tokens. *)
Definition builder_inv (b : builder) : Prop :=
  states_issued b ∧ stack_disjoint b ∧ states_in_use b.

(** The outcomes of [process char b], by the branch taken. *)
Inductive process_view (char : Char) (b : builder)
    : result (unit * builder) → Prop :=
  | view_literal :
      char_in char [STAR; PLUS; QMARK; DOT; BAR] = false →
      process_view char b
        (Ok ((), {| next_state_id := 2 + next_state_id b;
                    stack :=
                      add_edges
                        (mkNFA (next_state_id b) (S (next_state_id b)) ∅)
                        [(next_state_id b, char, S (next_state_id b))]
                      :: stack b |}))
  | view_underflow :
      (length (stack b) < operands_required char)%nat →
      process_view char b (Raise IndexError)
  | view_unary N1 rest added :
      stack b = N1 :: rest →
      (char, added) ∈
        [ (STAR, star_edges (next_state_id b) (S (next_state_id b)) N1);
          (PLUS, plus_edges (next_state_id b) (S (next_state_id b)) N1);
          (QMARK, qmark_edges (next_state_id b) (S (next_state_id b)) N1) ] →
      process_view char b
        (Ok ((), {| next_state_id := 2 + next_state_id b;
                    stack :=
                      add_edges
                        (mkNFA (next_state_id b) (S (next_state_id b))
                           (transitions N1))
                        added
                      :: rest |}))
  | view_dot N2 N1 rest :
      char = DOT →
      stack b = N2 :: N1 :: rest →
      process_view char b
        (Ok ((), {| next_state_id := next_state_id b;
                    stack :=
                      add_edges
                        (mkNFA (start_state N1) (accept_state N2)
                           (merge_transitions (transitions N1) (transitions N2)))
                        (dot_edges N1 N2)
                      :: rest |}))
  | view_bar N2 N1 rest :
      char = BAR →
      stack b = N2 :: N1 :: rest →
      process_view char b
        (Ok ((), {| next_state_id := 2 + next_state_id b;
                    stack :=
                      add_edges
                        (mkNFA (next_state_id b) (S (next_state_id b))
                           (merge_transitions (transitions N1) (transitions N2)))
                        (bar_edges (next_state_id b) (S (next_state_id b)) N1 N2)
                      :: rest |})).

(** ** Vocabulary of the further properties *)

(** A token of pass 2 that goes straight to the output: it has no
    precedence and is not a closing parenthesis. *)
Definition is_operand (c : Char) : Prop := c ≠ RPAREN ∧ precedence c = None.

#[global] Instance is_operand_dec c : Decision (is_operand c).
Proof. unfold is_operand. apply _. Defined.

Definition is_paren (c : Char) : Prop := c = LPAREN ∨ c = RPAREN.

#[global] Instance is_paren_dec c : Decision (is_paren c).
Proof. unfold is_paren. apply _. Defined.

(** The outcomes of [shunt char output stack], by the branch taken;
    [moved] are the tokens popped from the stack to the output. *)
Inductive shunt_view (char : Char) (output stack : list Char)
    : result (list Char * list Char) → Prop :=
  | shunt_open :
      char = LPAREN →
      shunt_view char output stack (Ok (output, char :: stack))
  | shunt_close_missing :
      char = RPAREN → LPAREN ∉ stack →
      shunt_view char output stack (Raise IndexError)
  | shunt_close moved stack' :
      char = RPAREN → stack = moved ++ LPAREN :: stack' → LPAREN ∉ moved →
      shunt_view char output stack (Ok (output ++ moved, stack'))
  | shunt_operator moved stack' :
      char ≠ LPAREN → char ≠ RPAREN → is_Some (precedence char) →
      stack = moved ++ stack' →
      shunt_view char output stack (Ok (output ++ moved, char :: stack'))
  | shunt_operand :
      is_operand char →
      shunt_view char output stack (Ok (output ++ [char], stack)).

(** The postfix form of a string of operands: the first two, then every
    further one followed by a concatenation. *)
Definition operands_postfix (regex : list Char) : list Char :=
  match regex with
  | [] => []
  | c :: regex' => c :: flat_map (λ x, [x; DOT]) regex'
  end.

(** Every state key of the map has a symbol, and every entry has a
    destination. *)
Definition entries_nonempty (T : gmap nat (gmap N (gset nat))) : Prop :=
  (∀ s by_symbol, T !! s = Some by_symbol → by_symbol ≠ ∅)
  ∧ (∀ s a dests, entry T s a = Some dests → dests ≠ ∅).

(** The shape of a fragment of the construction: the start state differs
    from the accept state, no edge leaves the accept state, no edge enters
    the start state, and some edge leaves the start state. *)
Definition thompson_shape (F : NFA) : Prop :=
  start_state F ≠ accept_state F
  ∧ (∀ a t, ¬ edge F (accept_state F) a t)
  ∧ (∀ s a, ¬ edge F s a (start_state F))
  ∧ (∃ a t, edge F (start_state F) a t).

(** Every edge is labelled [ε] or with a literal token of [tokens]. *)
Definition labels_from (tokens : list Char) (F : NFA) : Prop :=
  ∀ s a t, edge F s a t →
    a = EPSILON
    ∨ (a ∈ tokens ∧ char_in a [STAR; PLUS; QMARK; DOT; BAR] = false).

Definition frag_ok (tokens : list Char) (F : NFA) : Prop :=
  entries_nonempty (transitions F) ∧ thompson_shape F ∧ labels_from tokens F.

(** The tokens that create two states: all but the concatenation. *)
Definition minting_tokens (postfix : list Char) : nat :=
  length (filter (λ c, c ≠ DOT) postfix).

(** The edges of the automaton of a string of literals: character [i]
    labels the edge from [2i] to [2i+1], and an epsilon edge joins [2i+1] to
    [2i+2]. *)
Definition chain_edge (w : list Char) (s : nat) (a : Char) (t : nat) : Prop :=
  (∃ i : nat, w !! i = Some a ∧ s = (2 * i)%nat ∧ t = (2 * i + 1)%nat)
  ∨ (a = EPSILON
     ∧ ∃ i : nat, (i + 1 < length w)%nat
                  ∧ s = (2 * i + 1)%nat ∧ t = (2 * i + 2)%nat).

(** ** Expressions, their infix text and their postfix order *)

(** The expressions of the pattern syntax: literals, the three quantifiers,
    concatenation, alternation, and a parenthesised group. *)
Inductive regex : Type :=
  | Lit (c : Char)
  | Star (r : regex)
  | Plus (r : regex)
  | Opt (r : regex)
  | Cat (r1 r2 : regex)
  | Alt (r1 r2 : regex)
  | Group (r : regex).

(** How tightly the outermost construct binds: alternation least, then
    concatenation, then the quantifiers; a literal or a group is atomic. *)
Definition level (r : regex) : nat :=
  match r with
  | Alt _ _ => 1
  | Cat _ _ => 2
  | Star _ | Plus _ | Opt _ => 3
  | Lit _ | Group _ => 4
  end.

(** The text of [r] where binding strength [l] is needed: in parentheses
    when [r] binds less. *)
Definition paren (l : nat) (r : regex) (text : list Char) : list Char :=
  if (level r <? l)%nat then [LPAREN] ++ text ++ [RPAREN] else text.

(** The pattern a user writes for an expression: concatenation is
    juxtaposition, operators associate to the left, and parentheses are put
    where the binding strengths ask for them (and where a [Group] is). *)
Fixpoint infix_text (r : regex) : list Char :=
  match r with
  | Lit c => [c]
  | Star a => paren 3 a (infix_text a) ++ [STAR]
  | Plus a => paren 3 a (infix_text a) ++ [PLUS]
  | Opt a => paren 3 a (infix_text a) ++ [QMARK]
  | Cat a b => paren 2 a (infix_text a) ++ paren 3 b (infix_text b)
  | Alt a b => paren 1 a (infix_text a) ++ [BAR] ++ paren 2 b (infix_text b)
  | Group a => [LPAREN] ++ infix_text a ++ [RPAREN]
  end.

(** The same text with the concatenation operator written out. *)
Fixpoint explicit_text (r : regex) : list Char :=
  match r with
  | Lit c => [c]
  | Star a => paren 3 a (explicit_text a) ++ [STAR]
  | Plus a => paren 3 a (explicit_text a) ++ [PLUS]
  | Opt a => paren 3 a (explicit_text a) ++ [QMARK]
  | Cat a b =>
      paren 2 a (explicit_text a) ++ [DOT] ++ paren 3 b (explicit_text b)
  | Alt a b =>
      paren 1 a (explicit_text a) ++ [BAR] ++ paren 2 b (explicit_text b)
  | Group a => [LPAREN] ++ explicit_text a ++ [RPAREN]
  end.

(** Postfix order: the operands of an operator, left then right, and then
    the operator; parentheses leave no trace. *)
Fixpoint postfix_of (r : regex) : list Char :=
  match r with
  | Lit c => [c]
  | Star a => postfix_of a ++ [STAR]
  | Plus a => postfix_of a ++ [PLUS]
  | Opt a => postfix_of a ++ [QMARK]
  | Cat a b => postfix_of a ++ postfix_of b ++ [DOT]
  | Alt a b => postfix_of a ++ postfix_of b ++ [BAR]
  | Group a => postfix_of a
  end.

(** The literals of the expression are operands: none is an operator or a
    parenthesis. *)
Fixpoint literals_ok (r : regex) : Prop :=
  match r with
  | Lit c => is_operand c
  | Star a | Plus a | Opt a | Group a => literals_ok a
  | Cat a b | Alt a b => literals_ok a ∧ literals_ok b
  end.

(** A text that begins as an expression begins, and one that ends as an
    expression ends. *)
Definition starts_ok (text : list Char) : Prop :=
  match text with
  | [] => False
  | c :: _ => is_operand c ∨ c = LPAREN
  end.

Definition ends_ok (text : list Char) : Prop :=
  ∃ text' c,
    text = text' ++ [c]
    ∧ (is_operand c ∨ c = RPAREN ∨ c = STAR ∨ c = PLUS ∨ c = QMARK).

(** The stack top, if any, binds less than [l]; a token binds at least
    [l]. *)
Definition stack_below (l : nat) (stack : list Char) : Prop :=
  match stack with
  | [] => True
  | top :: _ => ∃ q : nat, precedence top = Some q ∧ (q < l)%nat
  end.

Definition binds_at_least (l : nat) (c : Char) : Prop :=
  ∃ q : nat, precedence c = Some q ∧ (l ≤ q)%nat.

(** Scanning [text] where binding strength [l] is needed sends the postfix
    form [post] to the output, but for the operators [pending] it leaves on
    top of the stack. *)
Definition runs_as (text : list Char) (l : nat) (post : list Char) : Prop :=
  ∀ output stack rest,
    stack_below l stack →
    ∃ sent pending,
      shunting_yard (text ++ rest) output stack
      = shunting_yard rest (output ++ sent) (pending ++ stack)
      ∧ sent ++ pending = post
      ∧ Forall (binds_at_least l) pending.

(** * Properties *)

(** ** Class expansion *)

Section Expansion.

Implicit Types (rest pre expanded content : list Char) (x y c : Char).

Lemma rbind_Ok {A B} (a : A) (k : A → result B) : rbind (Ok a) k = k a.
Proof. reflexivity. Qed.

(** The accumulator [expanded] is only ever extended on the right. *)
Lemma expand_loop_acc rest :
  (∀ expanded,
      expand_loop rest expanded
      = rbind (expand_loop rest []) (λ r, Ok (expanded ++ r)))
  ∧ (∀ content expanded,
      scan_class rest content expanded
      = rbind (scan_class rest content []) (λ r, Ok (expanded ++ r))).
Proof.
  induction rest as [|c rest [IHe IHs]]; split; intros; simpl.
  - by rewrite app_nil_r.
  - done.
  - destruct (c =? LBRACKET).
    + apply IHs.
    + rewrite (IHe (expanded ++ [c])), (IHe [c]).
      destruct (expand_loop rest []); simpl; [|done].
      by rewrite <- app_assoc.
  - destruct (c =? RBRACKET); [|apply IHs].
    destruct (expand_class content) as [cls|]; [|done].
    rewrite (IHe (expanded ++ cls)), (IHe cls).
    destruct (expand_loop rest []); simpl; [|done].
    by rewrite <- app_assoc.
Qed.

(** Characters before the first [[] are copied. *)
Lemma expand_loop_literals pre rest expanded :
  LBRACKET ∉ pre →
  expand_loop (pre ++ rest) expanded = expand_loop rest (expanded ++ pre).
Proof.
  revert expanded. induction pre as [|c pre IH]; intros expanded Hpre; simpl.
  - by rewrite app_nil_r.
  - apply not_elem_of_cons in Hpre as [Hc Hpre].
    destruct (N.eqb_spec c LBRACKET) as [->|_]; [done|].
    rewrite IH by done. by rewrite <- app_assoc.
Qed.

(** A class whose content is [x-y]. *)
Lemma expand_class_range x y :
  expand_class [x; DASH; y]
  = Ok ([LPAREN] ++ join [BAR] (range_chars x y) ++ [RPAREN]).
Proof.
  unfold expand_class, char_in. cbn [existsb length].
  rewrite N.eqb_refl, orb_true_l, orb_true_r. reflexivity.
Qed.

Lemma expand_loop_class x y rest expanded :
  x ≠ RBRACKET → y ≠ RBRACKET →
  expand_loop ([LBRACKET; x; DASH; y; RBRACKET] ++ rest) expanded
  = expand_loop rest
      (expanded ++ [LPAREN] ++ join [BAR] (range_chars x y) ++ [RPAREN]).
Proof.
  intros Hx%N.eqb_neq Hy%N.eqb_neq.
  cbn [app expand_loop scan_class].
  rewrite N.eqb_refl, Hx, Hy, N.eqb_refl.
  change (DASH =? RBRACKET) with false. cbn iota.
  by rewrite expand_class_range.
Qed.

Lemma expand_in_context pre x y rest :
  LBRACKET ∉ pre → x ≠ RBRACKET → y ≠ RBRACKET →
  expand_character_classes (pre ++ [LBRACKET; x; DASH; y; RBRACKET] ++ rest)
  = rbind (expand_character_classes rest)
      (λ r, Ok (pre ++ [LPAREN] ++ join [BAR] (range_chars x y) ++ [RPAREN] ++ r)).
Proof.
  intros Hpre Hx Hy. unfold expand_character_classes.
  rewrite expand_loop_literals by done.
  rewrite expand_loop_class by done.
  rewrite (proj1 (expand_loop_acc rest)).
  destruct (expand_loop rest []); cbn [rbind]; [|done].
  f_equal. rewrite app_nil_l. by rewrite <- !app_assoc.
Qed.

Lemma range_chars_length x y :
  x ≤ y → length (range_chars x y) = N.to_nat (y - x + 1).
Proof. intros. unfold range_chars. rewrite length_fmap, length_seq. lia. Qed.

Lemma range_chars_lookup x y (k : nat) :
  (k < length (range_chars x y))%nat →
  range_chars x y !! k = Some [x + N.of_nat k].
Proof.
  unfold range_chars. rewrite length_fmap, length_seq. intros Hk.
  rewrite list_lookup_fmap, lookup_seq_lt by done. simpl.
  do 2 f_equal. lia.
Qed.

Lemma range_chars_reversed x y : y < x → range_chars x y = [].
Proof.
  intros. unfold range_chars.
  replace (N.to_nat y + 1 - N.to_nat x)%nat with 0%nat by lia. done.
Qed.

End Expansion.

(** C6. A class [[x-y]] with [ord(x) <= ord(y)] (its content, up to the first
    closing bracket, being the three characters [x], [-], [y]) becomes the
    parenthesised alternation of the characters [x], [x+1], ..., [y], one
    per code point in ascending order; the characters before the class are
    copied unchanged and the text after it is expanded in turn; a pattern
    without any class is returned as it is; ["[a-c]"] gives ["(a|b|c)"]. *)
Theorem valid_class_expansion (pre rest : list Char) (x y : Char) :
  LBRACKET ∉ pre → x ≠ RBRACKET → y ≠ RBRACKET → x ≤ y →
  expand_character_classes (pre ++ [LBRACKET; x; DASH; y; RBRACKET] ++ rest)
  = rbind (expand_character_classes rest)
      (λ r, Ok (pre ++ [LPAREN] ++ join [BAR] (range_chars x y) ++ [RPAREN] ++ r))
  ∧ length (range_chars x y) = N.to_nat (y - x + 1)
  ∧ (∀ k : nat, (k < length (range_chars x y))%nat →
       range_chars x y !! k = Some [x + N.of_nat k])
  ∧ expand_character_classes pre = Ok pre
  ∧ expand_character_classes (str "[a-c]") = Ok (str "(a|b|c)").
Proof.
  intros Hpre Hx Hy Hxy. repeat split.
  - by apply expand_in_context.
  - by apply range_chars_length.
  - apply range_chars_lookup.
  - unfold expand_character_classes.
    rewrite <- (app_nil_r pre) at 1. by rewrite expand_loop_literals.
Qed.

Lemma valid_class_expansion_witness :
  expand_character_classes (str "x[a-c]y") = Ok (str "x(a|b|c)y")
  ∧ length (range_chars (ch "a") (ch "c")) = 3%nat.
Proof.
  destruct (valid_class_expansion (str "x") (str "y") (ch "a") (ch "c"))
    as (H1 & H2 & _).
  - vm_compute. by intros [?|[]]%list_elem_of_In.
  - vm_compute. discriminate.
  - vm_compute. discriminate.
  - vm_compute. discriminate.
  - split; [exact H1 | exact H2].
Defined.

(** C3 (as the code has it). A reversed class [[x-y]], [ord(x) > ord(y)],
    is not rejected: [range] is empty and the class is replaced by the empty
    group ["()"], in any context. *)
Theorem reversed_class_expansion (pre rest : list Char) (x y : Char) :
  LBRACKET ∉ pre → x ≠ RBRACKET → y ≠ RBRACKET → y < x →
  expand_character_classes [LBRACKET; x; DASH; y; RBRACKET]
  = Ok [LPAREN; RPAREN]
  ∧ expand_character_classes (pre ++ [LBRACKET; x; DASH; y; RBRACKET] ++ rest)
    = rbind (expand_character_classes rest)
        (λ r, Ok (pre ++ [LPAREN; RPAREN] ++ r)).
Proof.
  intros Hpre Hx Hy Hxy. split.
  - unfold expand_character_classes.
    change [LBRACKET; x; DASH; y; RBRACKET]
      with ([LBRACKET; x; DASH; y; RBRACKET] ++ []).
    rewrite expand_loop_class by done.
    by rewrite range_chars_reversed.
  - rewrite expand_in_context by done. by rewrite range_chars_reversed.
Qed.

Lemma reversed_class_expansion_witness :
  expand_character_classes (str "[z-a]") = Ok (str "()")
  ∧ expand_character_classes (str "p[9-0]q") = Ok (str "p()q").
Proof.
  split.
  - apply (reversed_class_expansion [] [] (ch "z") (ch "a")).
    + apply not_elem_of_nil.
    + vm_compute; discriminate.
    + vm_compute; discriminate.
    + vm_compute; reflexivity.
  - apply (reversed_class_expansion (str "p") (str "q") (ch "9") (ch "0")).
    + vm_compute. by intros [?|[]]%list_elem_of_In.
    + vm_compute; discriminate.
    + vm_compute; discriminate.
    + vm_compute; reflexivity.
Defined.

(** C3, the claim as stated fails: ["[z-a]"] is a reversed range and the
    expansion returns ["()"] instead of raising. *)
Lemma reversed_class_not_rejected :
  ch "a" < ch "z"
  ∧ expand_character_classes (str "[z-a]") = Ok (str "()")
  ∧ ¬ failed (expand_character_classes (str "[z-a]")).
Proof.
  split; [reflexivity|]. split; [reflexivity|].
  intros [e He]. discriminate He.
Qed.

(** ** Explicit concatenation and postfix order *)

Section Postfix.

Implicit Types (regex pre output stack : list Char) (c nxt : Char).

Lemma concat_between_test c nxt :
  negb (char_in c [LPAREN; BAR])
  && negb (char_in nxt [RPAREN; BAR; STAR; PLUS; QMARK])
  = bool_decide (concat_between c nxt).
Proof.
  unfold char_in, concat_between. cbn [existsb].
  case_bool_decide as H.
  - destruct H as ((?&?) & (?&?&?&?&?)).
    repeat match goal with
           | H : ?a ≠ ?b |- _ => apply N.eqb_neq in H; rewrite H; clear H
           end.
    reflexivity.
  - apply not_true_is_false. intros [Hc Hn]%andb_true_iff. apply H.
    apply negb_true_iff in Hc, Hn.
    repeat match goal with
           | H : _ || _ = false |- _ => apply orb_false_iff in H as [? ?]
           end.
    repeat split; by apply N.eqb_neq.
Qed.

(** The loop over positions, started at position [length pre] of
    [pre ++ regex], emits what the structural description emits for
    [regex]. *)
Lemma explicit_loop pre regex (explicit : list Char) :
  foldl (explicit_step (pre ++ regex) (length (pre ++ regex))) explicit
    (seq (length pre) (length regex))
  = explicit ++ insert_concat_spec regex.
Proof.
  revert pre explicit.
  induction regex as [|c regex IH]; intros pre explicit.
  - simpl. by rewrite app_nil_r.
  - cbn [length seq foldl].
    specialize (IH (pre ++ [c])).
    replace (length (pre ++ [c])) with (S (length pre)) in IH
      by (rewrite length_app; simpl; lia).
    rewrite <- app_assoc in IH. cbn [app] in IH.
    rewrite IH. clear IH.
    unfold explicit_step at 1.
    rewrite app_nth2, Nat.sub_diag by lia. cbn [nth].
    rewrite length_app. cbn [length].
    destruct regex as [|nxt regex]; cbn [length];
      match goal with
      | |- context [(?a <? ?b)%nat] => destruct (Nat.ltb_spec a b); [|]
      end; try lia.
    + cbn [insert_concat_spec]. by rewrite app_nil_r.
    + rewrite app_nth2 by lia.
      replace (length pre + 1 - length pre)%nat with 1%nat by lia.
      cbn [nth]. rewrite concat_between_test.
      cbn [insert_concat_spec].
      destruct (decide (concat_between c nxt)) as [H'|H'].
      * rewrite bool_decide_eq_true_2 by done.
        by rewrite <- !app_assoc.
      * rewrite bool_decide_eq_false_2 by done.
        by rewrite <- !app_assoc.
Qed.

Lemma insert_concat_refines regex :
  insert_concat regex = insert_concat_spec regex.
Proof. apply (explicit_loop [] regex []). Qed.

(** Pass 1 keeps every character and adds nothing but the operator. *)
Lemma insert_concat_spec_keeps regex c :
  c ∈ regex → c ∈ insert_concat_spec regex.
Proof.
  induction regex as [|c0 regex IH]; [done|].
  intros Hc. cbn [insert_concat_spec].
  destruct regex as [|nxt regex]; [done|].
  apply elem_of_cons in Hc as [-> | Hc];
    destruct (decide (concat_between c0 nxt)); set_solver.
Qed.

Lemma insert_concat_spec_adds regex c :
  c ∈ insert_concat_spec regex → c ∈ regex ∨ c = DOT.
Proof.
  induction regex as [|c0 regex IH];
    [cbn; intros H; by apply elem_of_nil in H|].
  cbn [insert_concat_spec].
  destruct regex as [|nxt regex]; [by left|].
  destruct (decide (concat_between c0 nxt)); set_solver.
Qed.

(** The operator stack only holds tokens that have a precedence, so the
    lookup [precedence[stack[-1]]] never misses; popping moves tokens from
    the stack to the end of the output. *)
Lemma pop_higher_total (p : nat) output stack :
  Forall (λ c, is_Some (precedence c)) stack →
  ∃ output' stack',
    pop_higher p output stack = Ok (output', stack')
    ∧ output' ++ stack' = output ++ stack
    ∧ Forall (λ c, is_Some (precedence c)) stack'.
Proof.
  revert output. induction stack as [|top stack IH]; intros output Hst.
  - by exists output, [].
  - apply Forall_cons in Hst as [[q Hq] Hst]. cbn [pop_higher]. rewrite Hq.
    destruct (p <=? q)%nat.
    + destruct (IH (output ++ [top]) Hst) as (o' & s' & -> & Happ & Hs').
      exists o', s'. split; [done|]. split; [|done].
      by rewrite Happ, <- app_assoc.
    + exists output, (top :: stack). split; [done|]. split; [done|].
      apply Forall_cons. eauto.
Qed.

Lemma shunt_total char output stack :
  char ≠ RPAREN →
  Forall (λ c, is_Some (precedence c)) stack →
  ∃ output' stack',
    shunt char output stack = Ok (output', stack')
    ∧ output' ++ stack' ≡ₚ char :: output ++ stack
    ∧ Forall (λ c, is_Some (precedence c)) stack'.
Proof.
  intros Hrp%N.eqb_neq Hst. unfold shunt.
  destruct (N.eqb_spec char LPAREN) as [->|_].
  - exists output, (LPAREN :: stack). split; [done|]. split.
    + by rewrite Permutation_middle.
    + apply Forall_cons. split; [by eexists|done].
  - rewrite Hrp. destruct (precedence char) as [p|] eqn:Hp.
    + destruct (pop_higher_total p output stack Hst)
        as (o' & s' & -> & Happ & Hs').
      exists o', (char :: s'). split; [done|]. split.
      * by rewrite <- Permutation_middle, Happ.
      * apply Forall_cons. split; [by eexists|done].
    + exists (output ++ [char]), stack. split; [done|]. split; [|done].
      rewrite <- app_assoc. cbn [app]. by rewrite <- Permutation_middle.
Qed.

Lemma shunting_yard_total regex output stack :
  RPAREN ∉ regex →
  Forall (λ c, is_Some (precedence c)) stack →
  ∃ output' stack',
    shunting_yard regex output stack = Ok (output', stack')
    ∧ output' ++ stack' ≡ₚ regex ++ output ++ stack.
Proof.
  revert output stack.
  induction regex as [|char regex IH]; intros output stack Hrp Hst.
  - by exists output, stack.
  - apply not_elem_of_cons in Hrp as [Hc Hrp]. cbn [shunting_yard].
    destruct (shunt_total char output stack (not_eq_sym Hc) Hst)
      as (o1 & s1 & -> & Hperm & Hs1).
    destruct (IH o1 s1 Hrp Hs1) as (o' & s' & Hrun & Hperm').
    exists o', s'. split; [exact Hrun|].
    rewrite Hperm', Hperm. symmetry. apply Permutation_middle.
Qed.

(** Without a closing parenthesis in the pattern the conversion cannot
    raise, and its result is a rearrangement of the pattern with its
    explicit concatenations. *)
Lemma infix_to_postfix_no_rparen regex :
  RPAREN ∉ regex →
  ∃ postfix, infix_to_postfix regex = Ok postfix
             ∧ postfix ≡ₚ insert_concat regex.
Proof.
  intros Hrp. unfold infix_to_postfix.
  destruct (shunting_yard_total (insert_concat regex) [] [])
    as (o & st & -> & Hperm).
  - rewrite insert_concat_refines.
    intros [H | H]%insert_concat_spec_adds; [done|discriminate H].
  - constructor.
  - exists (o ++ st). split; [done|]. by rewrite Hperm, app_nil_r.
Qed.

End Postfix.

(** C2 (as the code has it). When an opening parenthesis is left on the
    operator stack after the scan, [infix_to_postfix] does not raise: the
    closing loop moves the stack, parentheses included, to the output, and
    the string is returned; ["(a|b"] gives ["ab|("].  A pattern with an
    opening parenthesis and no closing one is always converted, and the
    parenthesis is in the result. *)
Theorem surplus_paren_is_emitted (regex output stack : list Char) :
  shunting_yard (insert_concat regex) [] [] = Ok (output, stack) →
  LPAREN ∈ stack →
  infix_to_postfix regex = Ok (output ++ stack)
  ∧ LPAREN ∈ output ++ stack
  ∧ infix_to_postfix (str "(a|b") = Ok (str "ab|(")
  ∧ (∀ regex', LPAREN ∈ regex' → RPAREN ∉ regex' →
       ∃ postfix, infix_to_postfix regex' = Ok postfix
                  ∧ LPAREN ∈ postfix
                  ∧ postfix ≡ₚ insert_concat regex').
Proof.
  intros Hscan Hparen. unfold infix_to_postfix at 1.
  rewrite Hscan. split; [done|]. split; [set_solver|]. split; [done|].
  intros regex' Hlp Hrp.
  destruct (infix_to_postfix_no_rparen regex' Hrp) as (postfix & Hrun & Hperm).
  exists postfix. split; [done|]. split; [|done].
  rewrite Hperm, insert_concat_refines. by apply insert_concat_spec_keeps.
Qed.

Lemma surplus_paren_is_emitted_witness :
  infix_to_postfix (str "((a") = Ok (str "a((").
Proof.
  apply (surplus_paren_is_emitted (str "((a") (str "a") (str "((")).
  - vm_compute. reflexivity.
  - vm_compute. apply list_elem_of_In. simpl. by left.
Defined.

(** C2, the claim as stated fails: after scanning ["(a|b"] the operator
    stack still holds the opening parenthesis, and the conversion returns
    ["ab|("] instead of raising. *)
Lemma surplus_paren_not_rejected :
  shunting_yard (insert_concat (str "(a|b")) [] [] = Ok (str "ab", str "|(")
  ∧ infix_to_postfix (str "(a|b") = Ok (str "ab|(")
  ∧ ¬ failed (infix_to_postfix (str "(a|b")).
Proof.
  split; [reflexivity|]. split; [reflexivity|].
  intros [e He]. discriminate He.
Qed.

(** ** Transition maps *)

Section Transitions.

Implicit Types (T : gmap nat (gmap N (gset nat))).
Implicit Types (m : gmap N (gset nat)) (nfa : NFA) (s t x f : nat).
Implicit Types (a : Char) (added : list (nat * Char * nat)).

Lemma copy_symbols_union (m2 m1 : gmap N (gset nat)) :
  copy_symbols m2 m1 = m2 ∪ m1.
Proof.
  unfold copy_symbols.
  apply (map_fold_weak_ind (λ r m, r = m ∪ m1)).
  - by rewrite (left_id_L ∅ (∪)).
  - intros a ds m r Hm ->. by rewrite insert_union_l.
Qed.

(** What the merging loop leaves under each state key. *)
Lemma lookup_merge_transitions (t1 t2 : gmap nat (gmap N (gset nat))) s :
  merge_transitions t1 t2 !! s
  = match t2 !! s with
    | Some m2 => Some (m2 ∪ default ∅ (t1 !! s))
    | None => t1 !! s
    end.
Proof.
  unfold merge_transitions. revert s.
  apply (map_fold_weak_ind
           (λ (r m : gmap nat (gmap N (gset nat))),
              ∀ s : nat, r !! s = match m !! s with
                                 | Some m2 => Some (m2 ∪ default ∅ (t1 !! s))
                                 | None => t1 !! s
                                 end)).
  - intros s. by rewrite lookup_empty.
  - intros i x m r Hm IH s. rewrite copy_symbols_union.
    destruct (decide (i = s)) as [->|Hne].
    + rewrite !lookup_insert_eq. by rewrite IH, Hm.
    + rewrite !lookup_insert_ne by done. apply IH.
Qed.

Lemma merge_transitions_disjoint (t1 t2 : gmap nat (gmap N (gset nat))) :
  dom t1 ## dom t2 → merge_transitions t1 t2 = t1 ∪ t2.
Proof.
  intros Hd. apply map_eq; intros s.
  rewrite lookup_merge_transitions, lookup_union.
  destruct (t2 !! s) as [m2|] eqn:E2; destruct (t1 !! s) as [m1|] eqn:E1;
    simpl; try done.
  - exfalso. apply (Hd s); apply elem_of_dom; eauto.
  - by rewrite (right_id_L ∅ (∪)).
Qed.

Lemma has_edge_entry T s a t :
  has_edge T s a t ↔ ∃ dests, entry T s a = Some dests ∧ t ∈ dests.
Proof.
  unfold has_edge, entry. split.
  - intros (m & ds & Hm & Hds & Ht). exists ds. by rewrite Hm.
  - intros (ds & He & Ht). destruct (T !! s) as [m|]; [|done]. eauto.
Qed.

(** An edge starts at a key of the transition map. *)
Lemma has_edge_source T s a t : has_edge T s a t → s ∈ dom T.
Proof. intros (m & _ & Hm & _). apply elem_of_dom. eauto. Qed.

Lemma has_edge_union (t1 t2 : gmap nat (gmap N (gset nat))) s a t :
  dom t1 ## dom t2 →
  has_edge (t1 ∪ t2) s a t ↔ has_edge t1 s a t ∨ has_edge t2 s a t.
Proof.
  intros Hd. unfold has_edge. setoid_rewrite lookup_union_Some_raw. split.
  - intros (m & ds & [H1 | [_ H2]] & Ha & Ht); eauto 8.
  - intros [(m & ds & H1 & Ha & Ht) | (m & ds & H2 & Ha & Ht)].
    + eauto 8.
    + exists m, ds. split; [|done]. right. split; [|done].
      apply not_elem_of_dom. intros Hin. apply (Hd s Hin).
      apply elem_of_dom. eauto.
Qed.

Lemma entry_add_transition nfa f a t s (b : Char) :
  entry (transitions (add_transition nfa f a t)) s b
  = if decide (s = f ∧ b = a)
    then Some (default ∅ (entry (transitions nfa) f a) ∪ {[t]})
    else entry (transitions nfa) s b.
Proof.
  unfold entry, add_transition. cbn [transitions].
  destruct (decide (s = f)) as [->|Hs].
  - rewrite lookup_insert_eq. cbn [mbind option_bind].
    destruct (decide (b = a)) as [->|Hb].
    + rewrite lookup_insert_eq, decide_True by done.
      destruct (transitions nfa !! f); cbn [default mbind option_bind];
        [done|]. by rewrite lookup_empty.
    + rewrite lookup_insert_ne, decide_False by first [done | intros [? ?]; done | congruence].
      destruct (transitions nfa !! f); cbn [default mbind option_bind];
        [done|]. by rewrite lookup_empty.
  - rewrite lookup_insert_ne, decide_False by first [done | intros [? ?]; done | congruence]. done.
Qed.

Lemma edge_add_transition nfa f a t s (b : Char) x :
  edge (add_transition nfa f a t) s b x
  ↔ edge nfa s b x ∨ (s, b, x) = (f, a, t).
Proof.
  unfold edge. rewrite !has_edge_entry. setoid_rewrite entry_add_transition.
  destruct (decide (s = f ∧ b = a)) as [[-> ->]|Hne].
  - destruct (entry (transitions nfa) f a) as [ds|]; cbn [default].
    + split.
      * intros (ds' & [= <-] & [Hx | ->%elem_of_singleton]%elem_of_union);
          eauto.
      * intros [(ds' & [= <-] & Hx) | [= ->]];
          eexists; (split; [done|]); set_solver.
    + split.
      * intros (ds' & [= <-] & Hx). right. f_equal. set_solver.
      * intros [(ds' & [=] & _) | [= ->]].
        eexists; (split; [done|]); set_solver.
  - split; [eauto|]. intros [H | [= -> -> ->]]; [done|]. by destruct Hne.
Qed.

Lemma add_transition_keeps nfa f a t :
  entries_kept (transitions nfa) (transitions (add_transition nfa f a t)).
Proof.
  intros s b ds He. rewrite entry_add_transition.
  destruct (decide (s = f ∧ b = a)) as [[-> ->]|Hne].
  - rewrite He. eexists; split; [done|]. cbn [default]. set_solver.
  - eauto.
Qed.

Lemma dom_add_transition nfa f a t :
  dom (transitions (add_transition nfa f a t)) = {[f]} ∪ dom (transitions nfa).
Proof. unfold add_transition. cbn [transitions]. apply dom_insert_L. Qed.

Lemma elem_of_dests_of m x :
  x ∈ dests_of m ↔ ∃ a dests, m !! a = Some dests ∧ x ∈ dests.
Proof.
  unfold dests_of. rewrite elem_of_union_list. split.
  - intros (X & HX & Hx).
    apply list_elem_of_fmap in HX as ([a ds] & -> & Hin).
    apply elem_of_map_to_list in Hin. eauto.
  - intros (a & ds & Hm & Hx). exists ds. split; [|done].
    apply list_elem_of_fmap. exists (a, ds). split; [done|].
    by apply elem_of_map_to_list.
Qed.

Lemma elem_of_keys_and_dests T x :
  x ∈ keys_and_dests T ↔ x ∈ dom T ∨ ∃ s a, has_edge T s a x.
Proof.
  unfold keys_and_dests. rewrite elem_of_union, elem_of_union_list.
  assert ((∃ X, X ∈ dests_of <$> (map_to_list T).*2 ∧ x ∈ X)
          ↔ ∃ s a, has_edge T s a x) as ->; [|tauto].
  unfold has_edge. split.
  - intros (X & HX & Hx).
    apply list_elem_of_fmap in HX as (m & -> & Hm).
    apply list_elem_of_fmap in Hm as ([s m'] & -> & Hin).
    apply elem_of_map_to_list in Hin.
    apply elem_of_dests_of in Hx as (a & ds & Ha & Hx). eauto 8.
  - intros (s & a & m & ds & Hm & Ha & Hx).
    exists (dests_of m). split.
    + apply list_elem_of_fmap. exists m. split; [done|].
      apply list_elem_of_fmap. exists (s, m). split; [done|].
      by apply elem_of_map_to_list.
    + apply elem_of_dests_of. eauto.
Qed.

Lemma keys_and_dests_union (t1 t2 : gmap nat (gmap N (gset nat))) :
  dom t1 ## dom t2 →
  keys_and_dests (t1 ∪ t2) = keys_and_dests t1 ∪ keys_and_dests t2.
Proof.
  intros Hd. apply set_eq; intros x.
  rewrite elem_of_union, !elem_of_keys_and_dests, dom_union_L, elem_of_union.
  setoid_rewrite (has_edge_union t1 t2 _ _ _ Hd). naive_solver.
Qed.

Lemma keys_and_dests_add_transition nfa f a t :
  keys_and_dests (transitions (add_transition nfa f a t))
  = keys_and_dests (transitions nfa) ∪ {[f; t]}.
Proof.
  apply set_eq; intros x.
  rewrite elem_of_union, !elem_of_keys_and_dests, dom_add_transition.
  pose proof (edge_add_transition nfa f a t) as He. unfold edge in He.
  setoid_rewrite He. split.
  - intros [Hx | (s & b & [H | [= -> -> ->]])]; [set_solver|eauto|set_solver].
  - intros [[Hx | (s & b & H)] | Hx]; [set_solver|eauto 6|].
    apply elem_of_union in Hx as [->%elem_of_singleton | ->%elem_of_singleton].
    + left. set_solver.
    + right. exists f, a. by right.
Qed.

Lemma frag_states_add_transition nfa f a t :
  frag_states (add_transition nfa f a t) = frag_states nfa ∪ {[f; t]}.
Proof.
  unfold frag_states, all_states.
  rewrite keys_and_dests_add_transition. cbn [add_transition start_state accept_state].
  set_solver.
Qed.

(** [add_edges]: start and accept stay, the edges and their end points
    are added, and every entry is kept. *)
Lemma add_edges_spec nfa added :
  start_state (add_edges nfa added) = start_state nfa
  ∧ accept_state (add_edges nfa added) = accept_state nfa
  ∧ frag_states (add_edges nfa added) = frag_states nfa ∪ endpoints added
  ∧ entries_kept (transitions nfa) (transitions (add_edges nfa added))
  ∧ ∀ s a t, edge (add_edges nfa added) s a t
             ↔ edge nfa s a t ∨ (s, a, t) ∈ added.
Proof.
  revert nfa. induction added as [|[[f b] u] added IH]; intros nfa.
  - unfold add_edges, endpoints. cbn [foldl fmap list_fmap list_to_set].
    split; [done|]. split; [done|]. split; [set_solver|]. split.
    + intros s a ds H. eauto.
    + intros s a t. rewrite elem_of_nil. tauto.
  - unfold add_edges in *. cbn [foldl].
    destruct (IH (add_transition nfa f b u)) as (Hs & Ha & Hf & Hk & He).
    rewrite Hs, Ha, Hf, frag_states_add_transition.
    repeat split.
    + assert (∀ X A B : gset nat,
                 X ∪ {[f; u]} ∪ (A ∪ B) = X ∪ ({[f]} ∪ A ∪ ({[u]} ∪ B))) as Hset
        by (intros; set_solver).
      apply Hset.
    + intros s a ds H.
      destruct (add_transition_keeps nfa f b u s a ds H) as (ds' & H' & Hsub).
      destruct (Hk s a ds' H') as (ds'' & H'' & Hsub').
      exists ds''. split; [done|]. set_solver.
    + rewrite He, edge_add_transition, elem_of_cons. naive_solver.
    + rewrite He, edge_add_transition, elem_of_cons. naive_solver.
Qed.

End Transitions.

(** ** The builder *)

Section Builder.

Implicit Types (b : builder) (char : Char) (postfix : list Char).
Implicit Types (N : NFA) (rest : list NFA).

Lemma token_cases char :
  char_in char [STAR; PLUS; QMARK; DOT; BAR] = false
  ∨ char = STAR ∨ char = PLUS ∨ char = QMARK ∨ char = DOT ∨ char = BAR.
Proof.
  unfold char_in. cbn [existsb].
  destruct (N.eqb_spec char STAR); [tauto|].
  destruct (N.eqb_spec char PLUS); [tauto|].
  destruct (N.eqb_spec char QMARK); [tauto|].
  destruct (N.eqb_spec char DOT); [tauto|].
  destruct (N.eqb_spec char BAR); [tauto|].
  by left.
Qed.

Lemma literal_requires_nothing char :
  char_in char [STAR; PLUS; QMARK; DOT; BAR] = false →
  operands_required char = 0%nat.
Proof.
  unfold operands_required, char_in. cbn [existsb].
  intros H. repeat (apply orb_false_iff in H as [-> H]). done.
Qed.

Lemma process_viewP char b : process_view char b (process char b).
Proof.
  destruct b as [n stk].
  destruct (token_cases char) as [Hlit | [-> | [-> | [-> | [-> | ->]]]]].
  - pose proof (view_literal char {| next_state_id := n; stack := stk |} Hlit)
      as V.
    unfold process. rewrite Hlit. exact V.
  - destruct stk as [|N1 rest]; [by apply view_underflow; cbn; lia|].
    refine (view_unary STAR (mkBuilder n (N1 :: rest)) N1 rest
              (star_edges n (S n) N1) eq_refl _). set_solver.
  - destruct stk as [|N1 rest]; [by apply view_underflow; cbn; lia|].
    refine (view_unary PLUS (mkBuilder n (N1 :: rest)) N1 rest
              (plus_edges n (S n) N1) eq_refl _). set_solver.
  - destruct stk as [|N1 rest]; [by apply view_underflow; cbn; lia|].
    refine (view_unary QMARK (mkBuilder n (N1 :: rest)) N1 rest
              (qmark_edges n (S n) N1) eq_refl _). set_solver.
  - destruct stk as [|N2 [|N1 rest]];
      [by apply view_underflow; cbn; lia..|].
    exact (view_dot DOT (mkBuilder n (N2 :: N1 :: rest)) N2 N1 rest eq_refl eq_refl).
  - destruct stk as [|N2 [|N1 rest]];
      [by apply view_underflow; cbn; lia..|].
    exact (view_bar BAR (mkBuilder n (N2 :: N1 :: rest)) N2 N1 rest eq_refl eq_refl).
Qed.

Lemma frag_states_decomp N :
  frag_states N
  = {[start_state N; accept_state N]} ∪ keys_and_dests (transitions N).
Proof. unfold frag_states, all_states. set_solver. Qed.

Lemma dom_sub_frag_states N : dom (transitions N) ⊆ frag_states N.
Proof.
  intros x Hx. rewrite frag_states_decomp. apply elem_of_union_r.
  apply elem_of_keys_and_dests. by left.
Qed.

Lemma keys_and_dests_empty : keys_and_dests ∅ = ∅.
Proof.
  apply set_eq; intros x. rewrite elem_of_keys_and_dests, dom_empty_L.
  split; [|set_solver].
  intros [H | (s & a & m & ds & H & _)]; [done|].
  by rewrite lookup_empty in H.
Qed.

Lemma new_fragment_states (start accept : nat) T added :
  frag_states (add_edges (mkNFA start accept T) added)
  = {[start; accept]} ∪ keys_and_dests T ∪ endpoints added.
Proof.
  destruct (add_edges_spec (mkNFA start accept T) added) as (_ & _ & -> & _).
  by rewrite frag_states_decomp.
Qed.

(** The states of the fragment each branch builds. *)
Lemma literal_states (n : nat) char :
  frag_states (add_edges (mkNFA n (S n) ∅) [(n, char, S n)]) = {[n; S n]}.
Proof.
  rewrite new_fragment_states, keys_and_dests_empty.
  unfold endpoints. cbn. set_solver.
Qed.

Lemma unary_states (n : nat) char N1 added :
  (char, added) ∈ [ (STAR, star_edges n (S n) N1);
                    (PLUS, plus_edges n (S n) N1);
                    (QMARK, qmark_edges n (S n) N1) ] →
  frag_states (add_edges (mkNFA n (S n) (transitions N1)) added)
  = {[n; S n]} ∪ frag_states N1.
Proof.
  intros Hin. rewrite new_fragment_states, (frag_states_decomp N1).
  repeat (apply elem_of_cons in Hin as [[= -> ->] | Hin]);
    [..|by apply elem_of_nil in Hin];
    unfold endpoints; cbn; set_solver.
Qed.

Lemma dot_states N1 N2 :
  dom (transitions N1) ## dom (transitions N2) →
  frag_states
    (add_edges
       (mkNFA (start_state N1) (accept_state N2)
          (merge_transitions (transitions N1) (transitions N2)))
       (dot_edges N1 N2))
  = frag_states N1 ∪ frag_states N2.
Proof.
  intros Hd. rewrite new_fragment_states, merge_transitions_disjoint by done.
  rewrite keys_and_dests_union by done.
  rewrite (frag_states_decomp N1), (frag_states_decomp N2).
  unfold endpoints. cbn. set_solver.
Qed.

Lemma bar_states (n : nat) N1 N2 :
  dom (transitions N1) ## dom (transitions N2) →
  frag_states
    (add_edges
       (mkNFA n (S n) (merge_transitions (transitions N1) (transitions N2)))
       (bar_edges n (S n) N1 N2))
  = {[n; S n]} ∪ frag_states N1 ∪ frag_states N2.
Proof.
  intros Hd. rewrite new_fragment_states, merge_transitions_disjoint by done.
  rewrite keys_and_dests_union by done.
  rewrite (frag_states_decomp N1), (frag_states_decomp N2).
  unfold endpoints. cbn. set_solver.
Qed.

Lemma lookup_app_plus {A} (l1 l2 : list A) (j : nat) :
  (l1 ++ l2) !! (length l1 + j)%nat = l2 !! j.
Proof. induction l1; [done|]. by cbn. Qed.

(** Replacing the operands on top of the stack by a fragment made of
    their states and of [k] newly issued ones keeps the invariant. *)
Lemma inv_replace b (operands : list NFA) rest (F : NFA) (k : nat) :
  builder_inv b →
  stack b = operands ++ rest →
  (∀ x, x ∈ frag_states F ↔
        (∃ N, N ∈ operands ∧ x ∈ frag_states N)
        ∨ (next_state_id b ≤ x < k + next_state_id b)%nat) →
  builder_inv {| next_state_id := k + next_state_id b; stack := F :: rest |}.
Proof.
  intros (Hiss & Hdis & Huse) Hstk HF.
  assert (Hrest : ∀ N x, N ∈ rest → x ∈ frag_states N →
                         (x < next_state_id b)%nat).
  { intros N x HN. apply Hiss. rewrite Hstk. set_solver. }
  assert (Hops : ∀ N x, N ∈ operands → x ∈ frag_states N →
                        (x < next_state_id b)%nat).
  { intros N x HN. apply Hiss. rewrite Hstk. set_solver. }
  assert (HFrest : ∀ j N, rest !! j = Some N →
                          frag_states F ## frag_states N).
  { intros j N Hj x HxF HxN.
    apply HF in HxF as [(N' & HN' & Hx') | Hx'].
    - apply list_elem_of_lookup in HN' as (i & Hi).
      apply (Hdis i (length operands + j)%nat N' N) with (x := x);
        [| | |done|done].
      + apply lookup_lt_Some in Hi. lia.
      + rewrite Hstk. by apply lookup_app_l_Some.
      + by rewrite Hstk, lookup_app_plus.
    - pose proof (Hrest N x (list_elem_of_lookup_2 _ _ _ Hj) HxN). lia. }
  split; [|split].
  - intros N x [-> | HN]%elem_of_cons Hx; cbn in *.
    + apply HF in Hx as [(N' & HN' & Hx') | ?]; [|lia].
      pose proof (Hops N' x HN' Hx'). lia.
    + pose proof (Hrest N x HN Hx). lia.
  - intros [|i] [|j] Na Nb Hij Ha Hb; cbn in *; simplify_eq.
    + by eapply HFrest.
    + symmetry. by eapply HFrest.
    + apply (Hdis (length operands + i)%nat (length operands + j)%nat);
        [lia|by rewrite Hstk, lookup_app_plus..].
  - intros x Hx. cbn in *.
    destruct (decide (x < next_state_id b)%nat) as [Hlt|Hge].
    + destruct (Huse x Hlt) as (N & HN & HxN).
      rewrite Hstk in HN. apply elem_of_app in HN as [HN | HN].
      * exists F. split; [set_solver|]. apply HF. eauto.
      * exists N. split; [set_solver|done].
    + exists F. split; [set_solver|]. apply HF. right. lia.
Qed.

Lemma top_two_disjoint b N2 N1 rest :
  builder_inv b → stack b = N2 :: N1 :: rest →
  dom (transitions N1) ## dom (transitions N2).
Proof.
  intros (_ & Hdis & _) Hstk x H1 H2.
  apply (Hdis 1%nat 0%nat N1 N2) with (x := x);
    [done|by rewrite Hstk..| |]; by apply dom_sub_frag_states.
Qed.

Lemma process_inv char b b' :
  builder_inv b → process char b = Ok ((), b') → builder_inv b'.
Proof.
  intros Hinv.
  destruct (process_viewP char b)
    as [Hlit | Hu | N1 rest added Hstk Hin
        | N2 N1 rest -> Hstk | N2 N1 rest -> Hstk]; intros [= <-].
  - apply (inv_replace b [] (stack b) _ 2); [done|done|].
    intros x. rewrite literal_states. split.
    + intros Hx. right.
      assert (x = next_state_id b ∨ x = S (next_state_id b)) as [->| ->]
        by set_solver; lia.
    + intros [(N & HN & _) | Hx]; [by apply elem_of_nil in HN|].
      assert (x = next_state_id b ∨ x = S (next_state_id b)) as [->| ->]
        by lia; set_solver.
  - apply (inv_replace b [N1] rest _ 2); [done|done|].
    intros x. rewrite (unary_states _ char N1 added Hin). split.
    + intros [Hx | Hx]%elem_of_union;
        [right|left; exists N1; (split; [repeat constructor|done])].
      assert (x = next_state_id b ∨ x = S (next_state_id b)) as [->| ->]
        by set_solver; lia.
    + intros [(N & ->%list_elem_of_singleton & Hx) | Hx]; [set_solver|].
      assert (x = next_state_id b ∨ x = S (next_state_id b)) as [->| ->]
        by lia; set_solver.
  - pose proof (top_two_disjoint b N2 N1 rest Hinv Hstk) as Hd.
    apply (inv_replace b [N2; N1] rest _ 0); [done|done|].
    intros x. rewrite (dot_states N1 N2 Hd). split.
    + intros [Hx | Hx]%elem_of_union; left;
        [exists N1 | exists N2]; (split; [repeat constructor|done]).
    + intros [(N & HN & Hx) | Hx]; [|lia].
      apply elem_of_cons in HN as [-> | ->%list_elem_of_singleton];
        set_solver.
  - pose proof (top_two_disjoint b N2 N1 rest Hinv Hstk) as Hd.
    apply (inv_replace b [N2; N1] rest _ 2); [done|done|].
    intros x. rewrite (bar_states _ N1 N2 Hd). split.
    + intros [[Hx | Hx]%elem_of_union | Hx]%elem_of_union;
        [right
        |left; exists N1; (split; [repeat constructor|done])
        |left; exists N2; (split; [repeat constructor|done])].
      assert (x = next_state_id b ∨ x = S (next_state_id b)) as [->| ->]
        by set_solver; lia.
    + intros [(N & HN & Hx) | Hx].
      * apply elem_of_cons in HN as [-> | ->%list_elem_of_singleton];
          set_solver.
      * assert (x = next_state_id b ∨ x = S (next_state_id b)) as [->| ->]
          by lia; set_solver.
Qed.

Lemma fresh_builder_inv : builder_inv fresh_builder.
Proof.
  split; [|split].
  - intros N x HN. by apply elem_of_nil in HN.
  - intros i j N1 N2 _ H. cbn in H. by rewrite lookup_nil in H.
  - intros x Hx. cbn in Hx. lia.
Qed.

Lemma process_all_cons char postfix b :
  process_all (char :: postfix) b
  = match process char b with
    | Ok (_, b') => process_all postfix b'
    | Raise e => Raise e
    end.
Proof. reflexivity. Qed.

Lemma process_all_inv postfix b b' :
  builder_inv b → process_all postfix b = Ok ((), b') → builder_inv b'.
Proof.
  revert b. induction postfix as [|char postfix IH]; intros b Hinv.
  - by intros [= <-].
  - rewrite process_all_cons.
    destruct (process char b) as [[[] b1]|e] eqn:Hp; [|done].
    apply IH. by eapply process_inv.
Qed.

(** Every builder the evaluator can reach satisfies the invariant. *)
Lemma reachable_inv postfix b :
  process_all postfix fresh_builder = Ok ((), b) → builder_inv b.
Proof. apply process_all_inv, fresh_builder_inv. Qed.

(** *** Stack depth *)

Lemma process_depth char b :
  if (length (stack b) <? operands_required char)%nat
  then process char b = Raise IndexError
  else ∃ b', process char b = Ok ((), b')
             ∧ length (stack b')
               = (length (stack b) - operands_required char + 1)%nat.
Proof.
  destruct (process_viewP char b)
    as [Hlit | Hu | N1 rest added Hstk Hin
        | N2 N1 rest -> Hstk | N2 N1 rest -> Hstk].
  - rewrite (literal_requires_nothing _ Hlit). cbn.
    eexists; split; [done|]. cbn. lia.
  - apply Nat.ltb_lt in Hu. by rewrite Hu.
  - rewrite Hstk.
    repeat (apply elem_of_cons in Hin as [[= -> ->] | Hin]);
      [..|by apply elem_of_nil in Hin];
      cbn; (eexists; split; [done|]); cbn; lia.
  - rewrite Hstk. cbn. eexists; split; [done|]. cbn. lia.
  - rewrite Hstk. cbn. eexists; split; [done|]. cbn. lia.
Qed.

Lemma process_all_underflow postfix b :
  underflows (length (stack b)) postfix = true →
  process_all postfix b = Raise IndexError.
Proof.
  revert b. induction postfix as [|char postfix IH]; intros b; [done|].
  cbn [underflows]. rewrite process_all_cons.
  pose proof (process_depth char b) as Hd.
  destruct (length (stack b) <? operands_required char)%nat.
  - by rewrite Hd.
  - destruct Hd as (b' & -> & Hlen). rewrite <- Hlen. apply IH.
Qed.

Lemma process_all_no_underflow postfix b :
  underflows (length (stack b)) postfix = false →
  ∃ b', process_all postfix b = Ok ((), b')
        ∧ length (stack b') = fragments_left (length (stack b)) postfix.
Proof.
  revert b. induction postfix as [|char postfix IH]; intros b.
  - intros _. by exists b.
  - cbn [underflows fragments_left]. rewrite process_all_cons.
    pose proof (process_depth char b) as Hd.
    destruct (length (stack b) <? operands_required char)%nat; [done|].
    destruct Hd as (b' & -> & Hlen). rewrite <- Hlen. apply IH.
Qed.

Lemma fragments_left_pos (depth : nat) postfix :
  underflows depth postfix = false →
  postfix ≠ [] ∨ (1 ≤ depth)%nat →
  (1 ≤ fragments_left depth postfix)%nat.
Proof.
  revert depth. induction postfix as [|char postfix IH]; intros depth Hu Hd.
  - cbn. by destruct Hd.
  - cbn [underflows fragments_left] in *.
    destruct (depth <? operands_required char)%nat; [done|].
    apply IH; [done|]. right. lia.
Qed.

Lemma postfix_to_nfa_top postfix b N rest :
  process_all postfix fresh_builder = Ok ((), b) →
  stack b = N :: rest →
  postfix_to_nfa postfix = Ok N.
Proof.
  intros Hrun Hstk. unfold postfix_to_nfa.
  change ((process_all postfix ≫= λ _, pop) fresh_builder)
    with (match process_all postfix fresh_builder with
          | Ok (_, b') => pop b'
          | Raise e => Raise e
          end).
  rewrite Hrun. unfold pop. by rewrite Hstk.
Qed.

(** *** The operator branches, evaluated *)

Lemma process_STAR (n : nat) N1 rest :
  process STAR (mkBuilder n (N1 :: rest))
  = Ok ((), mkBuilder (2 + n)
              (add_edges (mkNFA n (S n) (transitions N1))
                 (star_edges n (S n) N1) :: rest)).
Proof. reflexivity. Qed.

Lemma process_PLUS (n : nat) N1 rest :
  process PLUS (mkBuilder n (N1 :: rest))
  = Ok ((), mkBuilder (2 + n)
              (add_edges (mkNFA n (S n) (transitions N1))
                 (plus_edges n (S n) N1) :: rest)).
Proof. reflexivity. Qed.

Lemma process_QMARK (n : nat) N1 rest :
  process QMARK (mkBuilder n (N1 :: rest))
  = Ok ((), mkBuilder (2 + n)
              (add_edges (mkNFA n (S n) (transitions N1))
                 (qmark_edges n (S n) N1) :: rest)).
Proof. reflexivity. Qed.

Lemma process_DOT (n : nat) N2 N1 rest :
  process DOT (mkBuilder n (N2 :: N1 :: rest))
  = Ok ((), mkBuilder n
              (add_edges
                 (mkNFA (start_state N1) (accept_state N2)
                    (merge_transitions (transitions N1) (transitions N2)))
                 (dot_edges N1 N2) :: rest)).
Proof. reflexivity. Qed.

Lemma process_BAR (n : nat) N2 N1 rest :
  process BAR (mkBuilder n (N2 :: N1 :: rest))
  = Ok ((), mkBuilder (2 + n)
              (add_edges
                 (mkNFA n (S n)
                    (merge_transitions (transitions N1) (transitions N2)))
                 (bar_edges n (S n) N1 N2) :: rest)).
Proof. reflexivity. Qed.

(** *** Rows of the construction table *)

Lemma table_row_intro b rest (operands : list NFA) added
    (start accept minted : nat) T :
  (∀ s a t, has_edge T s a t
            ↔ ∃ operand, operand ∈ operands ∧ edge operand s a t) →
  table_row b
    {| next_state_id := minted + next_state_id b;
       stack := add_edges (mkNFA start accept T) added :: rest |}
    minted rest operands added start accept.
Proof.
  intros HT.
  destruct (add_edges_spec (mkNFA start accept T) added)
    as (Hs & Ha & _ & _ & He).
  eexists. split; [done|]. split; [done|]. split; [done|].
  intros s a t. rewrite He. unfold edge at 1. cbn [transitions].
  by rewrite HT.
Qed.

Lemma unary_operand_edges N1 s (a : Char) (t : nat) :
  has_edge (transitions N1) s a t
  ↔ ∃ operand, operand ∈ [N1] ∧ edge operand s a t.
Proof.
  split.
  - intros H. exists N1. split; [constructor|done].
  - by intros (N & ->%list_elem_of_singleton & H).
Qed.

Lemma binary_operand_edges N1 N2 s (a : Char) (t : nat) :
  dom (transitions N1) ## dom (transitions N2) →
  has_edge (merge_transitions (transitions N1) (transitions N2)) s a t
  ↔ ∃ operand, operand ∈ [N1; N2] ∧ edge operand s a t.
Proof.
  intros Hd. rewrite merge_transitions_disjoint, has_edge_union by done.
  split.
  - intros [H | H]; [exists N1 | exists N2];
      (split; [repeat constructor|done]).
  - intros (N & HN & H).
    apply elem_of_cons in HN as [-> | ->%list_elem_of_singleton]; eauto.
Qed.

(** *** Entries are never overwritten *)

Lemma entries_kept_trans (T1 T2 T3 : gmap nat (gmap N (gset nat))) :
  entries_kept T1 T2 → entries_kept T2 T3 → entries_kept T1 T3.
Proof.
  intros H12 H23 s a ds H.
  destruct (H12 s a ds H) as (ds' & H' & Hsub).
  destruct (H23 s a ds' H') as (ds'' & H'' & Hsub').
  exists ds''. split; [done|]. set_solver.
Qed.

Lemma entries_kept_merge (t1 t2 : gmap nat (gmap N (gset nat))) :
  dom t1 ## dom t2 →
  entries_kept t1 (merge_transitions t1 t2)
  ∧ entries_kept t2 (merge_transitions t1 t2).
Proof.
  intros Hd. rewrite merge_transitions_disjoint by done.
  split; intros s a ds; unfold entry;
    destruct (_ !! s) as [m|] eqn:Hm; cbn; try done; intros Ha;
    exists ds; (split; [|done]).
  - by rewrite (lookup_union_Some_l _ _ _ _ Hm).
  - assert (t1 !! s = None) as Hnone.
    { apply not_elem_of_dom. intros Hin. apply (Hd s Hin).
      apply elem_of_dom. eauto. }
    by rewrite lookup_union_r, Hm.
Qed.

Lemma add_edges_keeps (start accept : nat) T added :
  entries_kept T (transitions (add_edges (mkNFA start accept T) added)).
Proof.
  by destruct (add_edges_spec (mkNFA start accept T) added)
    as (_ & _ & _ & Hk & _).
Qed.

Lemma process_keeps_entries char b b' :
  builder_inv b →
  process char b = Ok ((), b') →
  ∀ operand, operand ∈ take (operands_required char) (stack b) →
    ∃ nfa rest, stack b' = nfa :: rest
                ∧ entries_kept (transitions operand) (transitions nfa).
Proof.
  intros Hinv.
  destruct (process_viewP char b)
    as [Hlit | Hu | N1 rest added Hstk Hin
        | N2 N1 rest -> Hstk | N2 N1 rest -> Hstk]; intros [= <-] operand.
  - rewrite (literal_requires_nothing _ Hlit). cbn.
    intros H. by apply elem_of_nil in H.
  - rewrite Hstk.
    assert (operands_required char = 1%nat) as ->.
    { repeat (apply elem_of_cons in Hin as [[= -> ->] | Hin]);
        [..|by apply elem_of_nil in Hin]; done. }
    cbn. intros ->%list_elem_of_singleton.
    eexists _, _. split; [done|]. apply add_edges_keeps.
  - pose proof (top_two_disjoint b N2 N1 rest Hinv Hstk) as Hd.
    destruct (entries_kept_merge _ _ Hd) as [H1 H2].
    rewrite Hstk. cbn.
    intros [-> | ->%list_elem_of_singleton]%elem_of_cons;
      (eexists _, _; split; [done|]);
      (eapply entries_kept_trans; [|apply add_edges_keeps]); done.
  - pose proof (top_two_disjoint b N2 N1 rest Hinv Hstk) as Hd.
    destruct (entries_kept_merge _ _ Hd) as [H1 H2].
    rewrite Hstk. cbn.
    intros [-> | ->%list_elem_of_singleton]%elem_of_cons;
      (eexists _, _; split; [done|]);
      (eapply entries_kept_trans; [|apply add_edges_keeps]); done.
Qed.

End Builder.

(** C1 (as the code has it). A postfix sequence in which some operator is
    processed with fewer operands on the stack than it requires makes
    [postfix_to_nfa] raise ([IndexError], from popping the empty stack);
    ["a|"] fails this way.  Fragments left over are not an error: when the
    run ends with one fragment or more on the stack, the top one is
    returned, and every non-empty sequence without underflow ends so. *)
Theorem underflow_raises (postfix : list Char) :
  underflows 0 postfix = true →
  postfix_to_nfa postfix = Raise IndexError
  ∧ postfix_to_nfa (str "a|") = Raise IndexError
  ∧ (∀ postfix' b, process_all postfix' fresh_builder = Ok ((), b) →
       (1 ≤ length (stack b))%nat →
       ∃ nfa, head (stack b) = Some nfa ∧ postfix_to_nfa postfix' = Ok nfa)
  ∧ (∀ postfix', postfix' ≠ [] → underflows 0 postfix' = false →
       ∃ nfa, postfix_to_nfa postfix' = Ok nfa).
Proof.
  intros Hu. split; [|split; [reflexivity|split]].
  - unfold postfix_to_nfa.
    change ((process_all postfix ≫= λ _, pop) fresh_builder)
      with (match process_all postfix fresh_builder with
            | Ok (_, b') => pop b'
            | Raise e => Raise e
            end).
    by rewrite (process_all_underflow postfix fresh_builder Hu).
  - intros postfix' b Hrun Hlen.
    destruct (stack b) as [|nfa rest] eqn:Hstk; [cbn in Hlen; lia|].
    exists nfa. split; [done|]. by eapply postfix_to_nfa_top.
  - intros postfix' Hne Hno.
    destruct (process_all_no_underflow postfix' fresh_builder Hno)
      as (b & Hrun & Hlen).
    pose proof (fragments_left_pos 0 postfix' Hno (or_introl Hne)) as Hpos.
    cbn [fresh_builder stack length] in Hlen. rewrite <- Hlen in Hpos.
    destruct (stack b) as [|nfa rest] eqn:Hstk; [cbn in Hpos; lia|].
    exists nfa. by eapply postfix_to_nfa_top.
Qed.

Lemma underflow_raises_witness :
  postfix_to_nfa (str "ab.|") = Raise IndexError.
Proof.
  apply (underflow_raises (str "ab.|")). vm_compute. reflexivity.
Defined.

(** C1, the claim as stated fails: after ["ab"] two fragments are on the
    operand stack and [postfix_to_nfa] returns the top one instead of
    raising. *)
Lemma leftover_fragments_not_rejected :
  (∃ b, process_all (str "ab") fresh_builder = Ok ((), b)
        ∧ length (stack b) = 2%nat)
  ∧ ¬ failed (postfix_to_nfa (str "ab")).
Proof.
  split.
  - eexists. split; reflexivity.
  - intros [e He]. vm_compute in He. discriminate He.
Qed.

(** C9. On the empty pattern the evaluator receives no token and the final
    [stack.pop()] raises on the empty operand stack: [regex_to_nfa] returns
    no automaton. *)
Theorem empty_pattern_raises :
  expand_character_classes [] = Ok []
  ∧ infix_to_postfix [] = Ok []
  ∧ process_all [] fresh_builder = Ok ((), fresh_builder)
  ∧ stack fresh_builder = []
  ∧ postfix_to_nfa [] = Raise IndexError
  ∧ regex_to_nfa [] = Raise IndexError.
Proof. repeat split. Qed.

(** C4. In every builder the evaluator reaches, each operator token gives
    the fragment of the construction table.  The two states an operator
    creates, [s0] and [s1], are the next two identifiers, distinct and on no
    fragment of the stack.  A binary operator takes the top of the stack as
    its right operand [N2] and the fragment below as its left operand [N1].
    The new fragment has the start and accept states of its row, and its
    edges are the edges of its operands and the epsilon edges of its row. *)
Theorem thompson_table (postfix : list Char) (b : builder) :
  process_all postfix fresh_builder = Ok ((), b) →
  let s0 := next_state_id b in
  let s1 := S (next_state_id b) in
  (s0 ≠ s1
   ∧ (∀ N, N ∈ stack b → (s0 ∉ frag_states N) ∧ (s1 ∉ frag_states N)))
  ∧ (∀ N1 rest, stack b = N1 :: rest →
       ∃ b', process STAR b = Ok ((), b')
             ∧ table_row b b' 2 rest [N1]
                 [ (s0, EPSILON, start_state N1);
                   (accept_state N1, EPSILON, start_state N1);
                   (s0, EPSILON, s1);
                   (accept_state N1, EPSILON, s1) ] s0 s1)
  ∧ (∀ N1 rest, stack b = N1 :: rest →
       ∃ b', process PLUS b = Ok ((), b')
             ∧ table_row b b' 2 rest [N1]
                 [ (s0, EPSILON, start_state N1);
                   (accept_state N1, EPSILON, start_state N1);
                   (accept_state N1, EPSILON, s1) ] s0 s1)
  ∧ (∀ N1 rest, stack b = N1 :: rest →
       ∃ b', process QMARK b = Ok ((), b')
             ∧ table_row b b' 2 rest [N1]
                 [ (s0, EPSILON, start_state N1);
                   (accept_state N1, EPSILON, s1);
                   (s0, EPSILON, s1) ] s0 s1)
  ∧ (∀ N2 N1 rest, stack b = N2 :: N1 :: rest →
       ∃ b', process DOT b = Ok ((), b')
             ∧ table_row b b' 0 rest [N1; N2]
                 [ (accept_state N1, EPSILON, start_state N2) ]
                 (start_state N1) (accept_state N2))
  ∧ (∀ N2 N1 rest, stack b = N2 :: N1 :: rest →
       ∃ b', process BAR b = Ok ((), b')
             ∧ table_row b b' 2 rest [N1; N2]
                 [ (s0, EPSILON, start_state N1);
                   (s0, EPSILON, start_state N2);
                   (accept_state N1, EPSILON, s1);
                   (accept_state N2, EPSILON, s1) ] s0 s1).
Proof.
  intros Hrun s0 s1. pose proof (reachable_inv postfix b Hrun) as Hinv.
  destruct b as [n stk]. cbn in s0, s1. subst s0 s1.
  split; [|split; [|split; [|split; [|split]]]].
  - split; [lia|]. intros N HN.
    destruct Hinv as (Hiss & _). split; intros Hx.
    + pose proof (Hiss N n HN Hx). cbn in *. lia.
    + pose proof (Hiss N (S n) HN Hx). cbn in *. lia.
  - intros N1 rest [= ->]. eexists. split; [apply process_STAR|].
    apply (table_row_intro (mkBuilder n (N1 :: rest)) rest [N1]
             (star_edges n (S n) N1) n (S n) 2 (transitions N1)).
    intros. apply unary_operand_edges.
  - intros N1 rest [= ->]. eexists. split; [apply process_PLUS|].
    apply (table_row_intro (mkBuilder n (N1 :: rest)) rest [N1]
             (plus_edges n (S n) N1) n (S n) 2 (transitions N1)).
    intros. apply unary_operand_edges.
  - intros N1 rest [= ->]. eexists. split; [apply process_QMARK|].
    apply (table_row_intro (mkBuilder n (N1 :: rest)) rest [N1]
             (qmark_edges n (S n) N1) n (S n) 2 (transitions N1)).
    intros. apply unary_operand_edges.
  - intros N2 N1 rest [= ->]. eexists. split; [apply process_DOT|].
    apply (table_row_intro (mkBuilder n (N2 :: N1 :: rest)) rest [N1; N2]
             (dot_edges N1 N2) (start_state N1) (accept_state N2) 0
             (merge_transitions (transitions N1) (transitions N2))).
    intros. apply binary_operand_edges.
    by apply (top_two_disjoint _ N2 N1 rest Hinv).
  - intros N2 N1 rest [= ->]. eexists. split; [apply process_BAR|].
    apply (table_row_intro (mkBuilder n (N2 :: N1 :: rest)) rest [N1; N2]
             (bar_edges n (S n) N1 N2) n (S n) 2
             (merge_transitions (transitions N1) (transitions N2))).
    intros. apply binary_operand_edges.
    by apply (top_two_disjoint _ N2 N1 rest Hinv).
Qed.

Lemma thompson_table_witness :
  let Na := add_edges (mkNFA 0 1 ∅) [(0%nat, ch "a", 1%nat)] in
  let Nb := add_edges (mkNFA 2 3 ∅) [(2%nat, ch "b", 3%nat)] in
  let b := mkBuilder 4 [Nb; Na] in
  process_all (str "ab") fresh_builder = Ok ((), b)
  ∧ ∃ b', process DOT b = Ok ((), b')
          ∧ table_row b b' 0 [] [Na; Nb] [(1%nat, EPSILON, 2%nat)] 0 3.
Proof.
  intros Na Nb b.
  assert (Hrun : process_all (str "ab") fresh_builder = Ok ((), b))
    by reflexivity.
  split; [exact Hrun|].
  destruct (thompson_table (str "ab") b Hrun) as (_ & _ & _ & _ & Hdot & _).
  exact (Hdot Nb Na [] eq_refl).
Defined.

(** C8. The counter starts at 0 and each [new_state] returns the current
    value and moves the counter one up, so two calls in a row return [n] and
    [n + 1].  In every builder the evaluator reaches, the states of the
    fragments on the stack are exactly the identifiers below the counter,
    and fragments at different positions share none.  Hence no operator
    overwrites an entry: every (state, symbol) entry of an operand it takes
    is in the new fragment, with at least its destinations. *)
Theorem counter_keeps_fragments_apart (postfix : list Char) (b : builder) :
  process_all postfix fresh_builder = Ok ((), b) →
  next_state_id fresh_builder = 0%nat
  ∧ (∀ b0, ∃ b1 b2,
       new_state b0 = Ok (next_state_id b0, b1)
       ∧ new_state b1 = Ok (S (next_state_id b0), b2)
       ∧ next_state_id b2 = S (S (next_state_id b0)))
  ∧ states_issued b
  ∧ states_in_use b
  ∧ stack_disjoint b
  ∧ (∀ char b', process char b = Ok ((), b') →
       (next_state_id b ≤ next_state_id b')%nat
       ∧ ∀ operand, operand ∈ take (operands_required char) (stack b) →
           ∃ nfa rest, stack b' = nfa :: rest
             ∧ entries_kept (transitions operand) (transitions nfa)).
Proof.
  intros Hrun. pose proof (reachable_inv postfix b Hrun) as Hinv.
  split; [reflexivity|]. split.
  { intros b0. eexists _, _. repeat split. }
  destruct Hinv as (Hiss & Hdis & Huse).
  split; [done|]. split; [done|]. split; [done|].
  intros char b' Hp. split.
  - revert Hp. destruct (process_viewP char b); intros [= <-]; cbn; lia.
  - by apply process_keeps_entries.
Qed.

Lemma counter_keeps_fragments_apart_witness :
  let Na := add_edges (mkNFA 0 1 ∅) [(0%nat, ch "a", 1%nat)] in
  let Nb := add_edges (mkNFA 2 3 ∅) [(2%nat, ch "b", 3%nat)] in
  stack_disjoint (mkBuilder 4 [Nb; Na])
  ∧ states_issued (mkBuilder 4 [Nb; Na]).
Proof.
  intros Na Nb.
  assert (Hrun : process_all (str "ab") fresh_builder
                 = Ok ((), mkBuilder 4 [Nb; Na])) by reflexivity.
  destruct (counter_keeps_fragments_apart (str "ab") _ Hrun)
    as (_ & _ & Hiss & _ & Hdis & _).
  split; [exact Hdis | exact Hiss].
Defined.

(** ** The whole pipeline on one literal *)

Section Pipeline.

Implicit Types (c : Char).

Lemma literal_fragment (n : nat) c :
  add_transition (mkNFA n (S n) ∅) n c (S n)
  = mkNFA n (S n) {[ n := {[ c := {[ S n ]} ]} ]}.
Proof.
  unfold add_transition. cbn [start_state accept_state transitions].
  rewrite lookup_empty. cbn [default]. rewrite lookup_empty. cbn [default].
  by rewrite (left_id_L ∅ (∪)), !insert_empty.
Qed.

Lemma literal_edges (n : nat) c s (a : Char) (t : nat) :
  edge (mkNFA n (S n) {[ n := {[ c := {[ S n ]} ]} ]}) s a t
  ↔ (s, a, t) = (n, c, S n).
Proof.
  unfold edge, has_edge. cbn [transitions]. split.
  - intros (m & ds & [-> <-]%lookup_singleton_Some
              & [-> <-]%lookup_singleton_Some & ->%elem_of_singleton).
    done.
  - intros [= -> -> ->]. eexists _, _.
    rewrite !lookup_singleton_eq. by rewrite elem_of_singleton.
Qed.

Lemma literal_all_states (n : nat) c :
  all_states (mkNFA n (S n) {[ n := {[ c := {[ S n ]} ]} ]}) = {[n; S n]}.
Proof.
  rewrite <- literal_fragment. unfold all_states.
  rewrite keys_and_dests_add_transition.
  cbn [transitions accept_state add_transition].
  rewrite keys_and_dests_empty. set_solver.
Qed.

(** A character that is no operator and no bracket goes through class
    expansion and postfix conversion unchanged, and is a literal token. *)
Lemma literal_passes c :
  c ∉ [STAR; PLUS; QMARK; DOT; BAR; LPAREN; RPAREN; LBRACKET; RBRACKET] →
  expand_character_classes [c] = Ok [c]
  ∧ infix_to_postfix [c] = Ok [c]
  ∧ char_in c [STAR; PLUS; QMARK; DOT; BAR] = false.
Proof.
  rewrite !not_elem_of_cons.
  intros (Hstar%N.eqb_neq & Hplus%N.eqb_neq & Hq%N.eqb_neq & Hdot%N.eqb_neq
          & Hbar%N.eqb_neq & Hlp%N.eqb_neq & Hrp%N.eqb_neq & Hlb%N.eqb_neq
          & _).
  split; [|split].
  - unfold expand_character_classes. cbn [expand_loop]. by rewrite Hlb.
  - unfold infix_to_postfix. change (insert_concat [c]) with [c].
    cbn [shunting_yard]. unfold shunt, precedence.
    by rewrite Hlp, Hrp, Hstar, Hplus, Hq, Hdot, Hbar.
  - unfold char_in. cbn [existsb].
    by rewrite Hstar, Hplus, Hq, Hdot, Hbar.
Qed.

Lemma literal_postfix_to_nfa c :
  char_in c [STAR; PLUS; QMARK; DOT; BAR] = false →
  postfix_to_nfa [c] = Ok (mkNFA 0 1 {[ 0%nat := {[ c := {[ 1%nat ]} ]} ]}).
Proof.
  intros Hlit. rewrite <- literal_fragment.
  apply (postfix_to_nfa_top [c]
           (mkBuilder 2 [add_transition (mkNFA 0 1 ∅) 0 c 1]) _ []);
    [|done].
  cbn [process_all]. unfold process. by rewrite Hlit.
Qed.

End Pipeline.

(** C7. For a single character [c] that is no operator and no bracket,
    [regex_to_nfa] returns an automaton with exactly two states, its start
    and its accept state, which differ, and with the single edge from start
    to accept, labelled [c]. *)
Theorem single_literal_nfa (c : Char) :
  c ∉ [STAR; PLUS; QMARK; DOT; BAR; LPAREN; RPAREN; LBRACKET; RBRACKET] →
  ∃ nfa,
    regex_to_nfa [c] = Ok nfa
    ∧ all_states nfa = {[start_state nfa; accept_state nfa]}
    ∧ size (all_states nfa) = 2%nat
    ∧ start_state nfa ≠ accept_state nfa
    ∧ transitions nfa = {[ start_state nfa := {[ c := {[ accept_state nfa ]} ]} ]}
    ∧ ∀ s a t, edge nfa s a t ↔ (s, a, t) = (start_state nfa, c, accept_state nfa).
Proof.
  intros Hc. destruct (literal_passes c Hc) as (Hexp & Hpost & Hlit).
  exists (mkNFA 0 1 {[ 0%nat := {[ c := {[ 1%nat ]} ]} ]}).
  split; [|split; [|split; [|split; [|split]]]].
  - unfold regex_to_nfa. rewrite Hexp. cbn [mbind result_bind rbind].
    rewrite Hpost. cbn [mbind result_bind rbind].
    by apply literal_postfix_to_nfa.
  - apply literal_all_states.
  - rewrite literal_all_states. rewrite size_union by set_solver.
    by rewrite !size_singleton.
  - done.
  - done.
  - apply literal_edges.
Qed.

Lemma single_literal_nfa_witness :
  ∃ nfa, regex_to_nfa (str "a") = Ok nfa ∧ size (all_states nfa) = 2%nat.
Proof.
  destruct (single_literal_nfa (ch "a")) as (nfa & Hrun & _ & Hsize & _).
  - vm_compute. intros H. apply list_elem_of_In in H. simpl in H.
    repeat (destruct H as [H|H]; [discriminate H|]). exact H.
  - exists nfa. split; [exact Hrun | exact Hsize].
Defined.

(** * Further properties *)

(** ** Class expansion: composition and errors *)

Section ExpansionErrors.

Implicit Types (rest pre expanded content : list Char) (x y c : Char).

(** A part of the pattern that expands on its own can be split off. *)
Lemma expand_loop_app (s1 s2 : list Char) :
  (∀ expanded r,
      expand_loop s1 expanded = Ok r →
      expand_loop (s1 ++ s2) expanded = expand_loop s2 r)
  ∧ (∀ content expanded r,
      scan_class s1 content expanded = Ok r →
      scan_class (s1 ++ s2) content expanded = expand_loop s2 r).
Proof.
  induction s1 as [|c s1 [IHe IHs]]; split; intros; cbn in *.
  - by simplify_eq.
  - done.
  - destruct (c =? LBRACKET); [by apply IHs|by apply IHe].
  - destruct (c =? RBRACKET); [|by apply IHs].
    destruct (expand_class content); [by apply IHe|done].
Qed.

Lemma scan_class_unclosed rest content expanded :
  RBRACKET ∉ rest →
  scan_class rest content expanded = Raise (ValueError "Unmatched [ in regex").
Proof.
  revert content. induction rest as [|c rest IH]; intros content Hr; [done|].
  apply not_elem_of_cons in Hr as [Hc Hr]. cbn [scan_class].
  destruct (N.eqb_spec c RBRACKET) as [->|_]; [done|]. by apply IH.
Qed.

Lemma scan_class_closed content rest (seen expanded : list Char) :
  RBRACKET ∉ content →
  scan_class (content ++ RBRACKET :: rest) seen expanded
  = match expand_class (seen ++ content) with
    | Ok cls => expand_loop rest (expanded ++ cls)
    | Raise e => Raise e
    end.
Proof.
  revert seen. induction content as [|c content IH]; intros seen Hc.
  - cbn. by rewrite app_nil_r.
  - apply not_elem_of_cons in Hc as [Hc Hcontent]. cbn [app scan_class].
    destruct (N.eqb_spec c RBRACKET) as [->|_]; [done|].
    rewrite IH by done. by rewrite <- app_assoc.
Qed.

Lemma expand_class_wrong_shape content :
  length content ≠ 3%nat ∨ DASH ∉ content →
  expand_class content
  = Raise (ValueError "Only simple ranges like [a-z] supported").
Proof.
  intros H. unfold expand_class.
  destruct (char_in DASH content && (length content =? 3)%nat) eqn:E; [|done].
  apply andb_true_iff in E as [Hin Hlen]. apply Nat.eqb_eq in Hlen.
  destruct H as [H | H]; [done|]. exfalso. apply H.
  unfold char_in in Hin. apply existsb_exists in Hin as (c & Hc & ->%N.eqb_eq).
  by apply list_elem_of_In.
Qed.

Lemma expand_class_wrong_dash x (d : Char) y :
  d ≠ DASH → x = DASH ∨ y = DASH →
  expand_class [x; d; y] = Raise (ValueError "Invalid character class").
Proof.
  intros Hd%N.eqb_neq Hxy. unfold expand_class, char_in. cbn [existsb length].
  rewrite Hd. change (3 =? 3)%nat with true.
  destruct Hxy as [-> | ->]; rewrite N.eqb_refl, ?orb_true_r, ?orb_true_l;
    reflexivity.
Qed.

Lemma expand_app (s1 s2 r1 : list Char) :
  expand_character_classes s1 = Ok r1 →
  expand_character_classes (s1 ++ s2)
  = rbind (expand_character_classes s2) (λ r2, Ok (r1 ++ r2)).
Proof.
  unfold expand_character_classes. intros H1.
  rewrite (proj1 (expand_loop_app s1 s2) [] r1 H1).
  apply (proj1 (expand_loop_acc s2)).
Qed.

End ExpansionErrors.

(** X1. Expansion composes: when a first part of the pattern expands on its
    own, the expansion of the whole is that result followed by the expansion
    of the remainder, and it fails exactly as the remainder fails. *)
Theorem expansion_composes (s1 s2 r1 : list Char) :
  expand_character_classes s1 = Ok r1 →
  expand_character_classes (s1 ++ s2)
  = rbind (expand_character_classes s2) (λ r2, Ok (r1 ++ r2)).
Proof. apply expand_app. Qed.

Lemma expansion_composes_witness :
  expand_character_classes (str "[0-1]" ++ str "x[a-b]")
  = Ok (str "(0|1)" ++ str "x(a|b)").
Proof.
  apply (expansion_composes (str "[0-1]") (str "x[a-b]") (str "(0|1)")).
  vm_compute. reflexivity.
Defined.

(** X2. An opening bracket that is not closed raises
    [ValueError("Unmatched [ in regex")], whatever well-formed text comes
    before it, and [regex_to_nfa] raises the same. *)
Theorem unclosed_bracket_raises (pre rest r : list Char) :
  expand_character_classes pre = Ok r →
  RBRACKET ∉ rest →
  expand_character_classes (pre ++ LBRACKET :: rest)
  = Raise (ValueError "Unmatched [ in regex")
  ∧ regex_to_nfa (pre ++ LBRACKET :: rest)
    = Raise (ValueError "Unmatched [ in regex").
Proof.
  intros Hpre Hrest.
  assert (expand_character_classes (pre ++ LBRACKET :: rest)
          = Raise (ValueError "Unmatched [ in regex")) as H.
  { rewrite (expand_app pre (LBRACKET :: rest) r Hpre).
    unfold expand_character_classes. cbn [expand_loop].
    rewrite N.eqb_refl. by rewrite scan_class_unclosed. }
  split; [done|]. unfold regex_to_nfa. by rewrite H.
Qed.

Lemma unclosed_bracket_raises_witness :
  regex_to_nfa (str "a[b-c]d[e-f")
  = Raise (ValueError "Unmatched [ in regex").
Proof.
  apply (unclosed_bracket_raises (str "a[b-c]d") (str "e-f") (str "a(b|c)d")).
  - vm_compute. reflexivity.
  - vm_compute. intros H. apply list_elem_of_In in H. simpl in H.
    repeat (destruct H as [H|H]; [discriminate H|]). exact H.
Defined.

(** X3. A bracketed class whose content (the text up to the first closing
    bracket) is not three characters long, or has no dash, raises
    [ValueError("Only simple ranges like [a-z] supported")]; one of three
    characters with a dash that is not in the middle raises
    [ValueError("Invalid character class")]. *)
Theorem malformed_class_raises (pre content rest r : list Char) :
  expand_character_classes pre = Ok r →
  RBRACKET ∉ content →
  (length content ≠ 3%nat ∨ DASH ∉ content →
     expand_character_classes (pre ++ [LBRACKET] ++ content ++ RBRACKET :: rest)
     = Raise (ValueError "Only simple ranges like [a-z] supported"))
  ∧ (∀ x d y, content = [x; d; y] → d ≠ DASH → x = DASH ∨ y = DASH →
       expand_character_classes (pre ++ [LBRACKET] ++ content ++ RBRACKET :: rest)
       = Raise (ValueError "Invalid character class")).
Proof.
  intros Hpre Hcontent.
  assert (∀ e, expand_class content = Raise e →
               expand_character_classes
                 (pre ++ [LBRACKET] ++ content ++ RBRACKET :: rest) = Raise e)
    as Hraise.
  { intros e He. rewrite (expand_app pre _ r Hpre).
    unfold expand_character_classes. cbn [app expand_loop].
    rewrite N.eqb_refl, scan_class_closed by done. cbn [app].
    by rewrite He. }
  split.
  - intros H. by apply Hraise, expand_class_wrong_shape.
  - intros x d y -> Hd Hxy. by apply Hraise, expand_class_wrong_dash.
Qed.

Lemma malformed_class_raises_witness :
  expand_character_classes (str "x[abc]y")
  = Raise (ValueError "Only simple ranges like [a-z] supported")
  ∧ expand_character_classes (str "x[-ab]y")
    = Raise (ValueError "Invalid character class").
Proof.
  split.
  - apply (malformed_class_raises (str "x") (str "abc") (str "y") (str "x")).
    + vm_compute. reflexivity.
    + vm_compute. intros H. apply list_elem_of_In in H. simpl in H.
      repeat (destruct H as [H|H]; [discriminate H|]). exact H.
    + right. vm_compute. intros H. apply list_elem_of_In in H. simpl in H.
      repeat (destruct H as [H|H]; [discriminate H|]). exact H.
  - apply (malformed_class_raises (str "x") (str "-ab") (str "y") (str "x"))
      with (x := ch "-") (d := ch "a") (y := ch "b").
    + vm_compute. reflexivity.
    + vm_compute. intros H. apply list_elem_of_In in H. simpl in H.
      repeat (destruct H as [H|H]; [discriminate H|]). exact H.
    + reflexivity.
    + vm_compute. discriminate.
    + left. reflexivity.
Defined.

(** ** Postfix conversion: what the scan keeps *)

Section ShuntingYard.

Implicit Types (regex output stack moved : list Char) (c char : Char).

Lemma pop_to_paren_moves output stack :
  ∃ moved stack',
    stack = moved ++ stack'
    ∧ (LPAREN ∉ moved)
    ∧ pop_to_paren output stack = (output ++ moved, stack')
    ∧ (stack' = [] ∨ ∃ below, stack' = LPAREN :: below).
Proof.
  revert output. induction stack as [|top stack IH]; intros output.
  - exists [], [].
    split; [done|]. split; [apply not_elem_of_nil|].
    split; [cbn; by rewrite app_nil_r|by left].
  - cbn [pop_to_paren]. destruct (N.eqb_spec top LPAREN) as [->|Hne].
    + exists [], (LPAREN :: stack).
      split; [done|]. split; [apply not_elem_of_nil|].
      split; [cbn; by rewrite app_nil_r|]. right. by eexists.
    + destruct (IH (output ++ [top])) as (moved & s' & -> & Hm & -> & Hs').
      exists (top :: moved), s'. rewrite <- app_assoc.
      split; [done|]. split; [|done]. apply not_elem_of_cons. by split.
Qed.

Lemma pop_higher_moves (p : nat) output stack :
  Forall (λ c, is_Some (precedence c)) stack →
  ∃ moved stack',
    stack = moved ++ stack'
    ∧ pop_higher p output stack = Ok (output ++ moved, stack').
Proof.
  revert output. induction stack as [|top stack IH]; intros output Hst.
  - exists [], []. split; [done|]. cbn. by rewrite app_nil_r.
  - apply Forall_cons in Hst as [[q Hq] Hst]. cbn [pop_higher]. rewrite Hq.
    destruct (p <=? q)%nat.
    + destruct (IH (output ++ [top]) Hst) as (moved & s' & -> & ->).
      exists (top :: moved), s'. by rewrite <- app_assoc.
    + exists [], (top :: stack). split; [done|]. by rewrite app_nil_r.
Qed.

Lemma shunt_viewP char output stack :
  Forall (λ c, is_Some (precedence c)) stack →
  shunt_view char output stack (shunt char output stack).
Proof.
  intros Hst. unfold shunt.
  destruct (N.eqb_spec char LPAREN) as [Hlp|Hlp]; [by apply shunt_open|].
  destruct (N.eqb_spec char RPAREN) as [Hrp|Hrp].
  - destruct (pop_to_paren_moves output stack)
      as (moved & s' & -> & Hm & -> & [-> | (below & ->)]).
    + apply shunt_close_missing; [done|]. by rewrite app_nil_r.
    + by apply shunt_close.
  - destruct (precedence char) as [p|] eqn:Hp.
    + destruct (pop_higher_moves p output stack Hst) as (moved & s' & -> & ->).
      by apply shunt_operator.
    + by apply shunt_operand.
Qed.

Lemma stack_has_no_operand stack :
  Forall (λ c, is_Some (precedence c)) stack → filter is_operand stack = [].
Proof.
  induction 1 as [|c stack [p Hp] _ IH]; [done|].
  rewrite filter_cons_False; [done|]. intros [_ H]. by rewrite Hp in H.
Qed.

(** One step of the scan: the stack keeps tokens with a precedence only,
    the operands reach the output in their order, and nothing but
    parentheses is dropped. *)
Lemma shunt_step char output stack output' stack' :
  Forall (λ c, is_Some (precedence c)) stack →
  shunt char output stack = Ok (output', stack') →
  Forall (λ c, is_Some (precedence c)) stack'
  ∧ filter is_operand output' = filter is_operand (output ++ [char])
  ∧ filter (λ c, ¬ is_paren c) (output' ++ stack')
    ≡ₚ filter (λ c, ¬ is_paren c) (char :: output ++ stack).
Proof.
  intros Hst.
  destruct (shunt_viewP char output stack Hst)
    as [-> | -> Hno | moved s' -> -> Hm | moved s' Hlp Hrp Hprec -> | Hop];
    intros [= <- <-].
  - split; [|split].
    + apply Forall_cons. split; [by eexists|done].
    + rewrite filter_app, (filter_cons_False _ LPAREN), filter_nil, app_nil_r;
        [done|]. by intros [_ [=]].
    + by rewrite Permutation_middle.
  - apply Forall_app in Hst as [Hmoved Hst].
    apply Forall_cons in Hst as [_ Hst].
    split; [done|]. split.
    + rewrite !filter_app, (stack_has_no_operand moved Hmoved).
      rewrite (filter_cons_False _ RPAREN); [done|]. by intros [[] _].
    + rewrite (filter_cons_False _ RPAREN) by (intros H; apply H; by right).
      rewrite <- !app_assoc, !filter_app.
      rewrite (filter_cons_False _ LPAREN) by (intros H; apply H; by left).
      done.
  - apply Forall_app in Hst as [Hmoved Hst].
    split; [|split].
    + by apply Forall_cons.
    + rewrite !filter_app, (stack_has_no_operand moved Hmoved).
      rewrite (filter_cons_False _ char), filter_nil; [done|].
      intros [_ H]. destruct Hprec as [p Hp]. by rewrite Hp in H.
    + by rewrite <- !app_assoc, <- !Permutation_middle.
  - split; [done|]. split; [done|].
    rewrite <- app_assoc. cbn [app]. by rewrite <- Permutation_middle.
Qed.

Lemma shunt_raises char output stack e :
  Forall (λ c, is_Some (precedence c)) stack →
  shunt char output stack = Raise e →
  e = IndexError ∧ char = RPAREN ∧ LPAREN ∉ stack.
Proof.
  intros Hst.
  destruct (shunt_viewP char output stack Hst); intros [= <-]; done.
Qed.

Lemma shunting_yard_cons char regex output stack :
  shunting_yard (char :: regex) output stack
  = match shunt char output stack with
    | Ok (output', stack') => shunting_yard regex output' stack'
    | Raise e => Raise e
    end.
Proof.
  cbn [shunting_yard]. by destruct (shunt char output stack) as [[??]|].
Qed.

Lemma shunting_yard_keeps regex output stack output' stack' :
  Forall (λ c, is_Some (precedence c)) stack →
  shunting_yard regex output stack = Ok (output', stack') →
  Forall (λ c, is_Some (precedence c)) stack'
  ∧ filter is_operand output' = filter is_operand (output ++ regex)
  ∧ filter (λ c, ¬ is_paren c) (output' ++ stack')
    ≡ₚ filter (λ c, ¬ is_paren c) (regex ++ output ++ stack).
Proof.
  revert output stack.
  induction regex as [|char regex IH]; intros output stack Hst.
  - intros [= <- <-]. by rewrite app_nil_r.
  - rewrite shunting_yard_cons.
    destruct (shunt char output stack) as [[o1 s1]|] eqn:Hstep; [|done].
    destruct (shunt_step _ _ _ _ _ Hst Hstep) as (Hs1 & Hop1 & Hperm1).
    intros Hrun. destruct (IH o1 s1 Hs1 Hrun) as (Hs' & Hop' & Hperm').
    split; [done|]. split.
    + replace (output ++ char :: regex) with ((output ++ [char]) ++ regex)
        by (by rewrite <- app_assoc).
      by rewrite Hop', !(filter_app _ _ regex), Hop1.
    + rewrite Hperm', (filter_app _ regex), Hperm1, <- filter_app.
      f_equiv. symmetry. apply Permutation_middle.
Qed.

Lemma shunting_yard_raises regex output stack e :
  Forall (λ c, is_Some (precedence c)) stack →
  shunting_yard regex output stack = Raise e → e = IndexError.
Proof.
  revert output stack.
  induction regex as [|char regex IH]; intros output stack Hst; [done|].
  rewrite shunting_yard_cons.
  destruct (shunt char output stack) as [[o1 s1]|e1] eqn:Hstep.
  - destruct (shunt_step _ _ _ _ _ Hst Hstep) as (Hs1 & _). by apply IH.
  - intros [= <-]. by destruct (shunt_raises _ _ _ _ Hst Hstep).
Qed.

Lemma shunting_yard_unopened regex output stack :
  LPAREN ∉ regex → RPAREN ∈ regex → LPAREN ∉ stack →
  Forall (λ c, is_Some (precedence c)) stack →
  shunting_yard regex output stack = Raise IndexError.
Proof.
  revert output stack.
  induction regex as [|char regex IH]; intros output stack Hlp Hrp Hno Hst.
  - by apply elem_of_nil in Hrp.
  - apply not_elem_of_cons in Hlp as [Hc Hlp]. rewrite shunting_yard_cons.
    destruct (shunt_viewP char output stack Hst)
      as [-> | -> _ | moved s' -> -> Hm | moved s' _ Hne Hprec -> | [Hne Hop]].
    + done.
    + done.
    + exfalso. apply Hno. set_solver.
    + apply IH; [done|set_solver|set_solver|].
      apply Forall_app in Hst as [_ Hst]. by apply Forall_cons.
    + apply IH; [done|set_solver|done|done].
Qed.

Lemma insert_concat_operands regex :
  filter is_operand (insert_concat_spec regex) = filter is_operand regex.
Proof.
  induction regex as [|c regex IH]; [done|].
  cbn [insert_concat_spec]. destruct regex as [|nxt regex]; [done|].
  destruct (decide (concat_between c nxt)).
  - rewrite !(filter_cons _ c), (filter_cons_False _ DOT), IH; [done|].
    by intros [_ [=]].
  - by rewrite !(filter_cons _ c), IH.
Qed.

End ShuntingYard.

Lemma infix_to_postfix_run (regex : list Char) :
  infix_to_postfix regex
  = match shunting_yard (insert_concat regex) [] [] with
    | Ok (output, stack) => Ok (output ++ stack)
    | Raise e => Raise e
    end.
Proof.
  unfold infix_to_postfix.
  by destruct (shunting_yard (insert_concat regex) [] []) as [[??]|].
Qed.

(** X4. [infix_to_postfix] fails in one way only: with [IndexError], and only
    on a pattern that has a closing parenthesis.  The lookup
    [precedence[stack[-1]]] never raises [KeyError]. *)
Theorem infix_raises_index_error_only (regex : list Char) (e : exn) :
  infix_to_postfix regex = Raise e →
  e = IndexError ∧ RPAREN ∈ regex.
Proof.
  intros Hraise. split.
  - rewrite infix_to_postfix_run in Hraise.
    destruct (shunting_yard (insert_concat regex) [] []) as [[o s]|e'] eqn:Hrun;
      [done|]. injection Hraise as ->.
    by apply (shunting_yard_raises _ _ _ _ (Forall_nil_2 _) Hrun).
  - destruct (decide (RPAREN ∈ regex)) as [|Hno]; [done|].
    destruct (infix_to_postfix_no_rparen regex Hno) as (postfix & Hok & _).
    by rewrite Hok in Hraise.
Qed.

Lemma infix_raises_index_error_only_witness :
  IndexError = IndexError ∧ RPAREN ∈ str "a)b".
Proof.
  apply (infix_raises_index_error_only (str "a)b") IndexError).
  vm_compute. reflexivity.
Defined.

(** X5. A pattern with a closing parenthesis and no opening one raises
    [IndexError]: the stack is emptied without meeting a ['('] and the
    [stack.pop()] that should discard it fails. *)
Theorem unopened_paren_raises (regex : list Char) :
  LPAREN ∉ regex → RPAREN ∈ regex →
  infix_to_postfix regex = Raise IndexError.
Proof.
  intros Hlp Hrp. rewrite infix_to_postfix_run.
  rewrite shunting_yard_unopened; [done| | |apply not_elem_of_nil|constructor].
  - rewrite insert_concat_refines.
    intros [H | H]%insert_concat_spec_adds; [done|discriminate H].
  - rewrite insert_concat_refines. by apply insert_concat_spec_keeps.
Qed.

Lemma unopened_paren_raises_witness :
  infix_to_postfix (str "a|b)*") = Raise IndexError.
Proof.
  apply (unopened_paren_raises (str "a|b)*")).
  - vm_compute. intros H. apply list_elem_of_In in H. simpl in H.
    repeat (destruct H as [H|H]; [discriminate H|]). exact H.
  - vm_compute. apply list_elem_of_In. simpl. tauto.
Defined.

(** X6. The conversion keeps the operands in their order: the tokens of the
    result that are neither operators nor parentheses are those of the
    pattern, in the same sequence. *)
Theorem postfix_keeps_operand_order (regex postfix : list Char) :
  infix_to_postfix regex = Ok postfix →
  filter is_operand postfix = filter is_operand regex.
Proof.
  rewrite infix_to_postfix_run.
  destruct (shunting_yard (insert_concat regex) [] []) as [[o s]|] eqn:Hrun;
    [|done].
  intros [= <-].
  destruct (shunting_yard_keeps _ _ _ _ _ (Forall_nil_2 _) Hrun)
    as (Hs & Hop & _).
  rewrite filter_app, (stack_has_no_operand s Hs), app_nil_r, Hop.
  cbn [app]. rewrite insert_concat_refines. apply insert_concat_operands.
Qed.

Lemma postfix_keeps_operand_order_witness :
  filter is_operand (str "ab|c*.") = str "abc".
Proof.
  apply (postfix_keeps_operand_order (str "(a|b)c*") (str "ab|c*.")).
  vm_compute. reflexivity.
Defined.

(** X7. The conversion loses nothing but parentheses: apart from them the
    result is a rearrangement of the pattern with its explicit
    concatenations. *)
Theorem postfix_keeps_tokens (regex postfix : list Char) :
  infix_to_postfix regex = Ok postfix →
  filter (λ c, ¬ is_paren c) postfix
  ≡ₚ filter (λ c, ¬ is_paren c) (insert_concat regex).
Proof.
  rewrite infix_to_postfix_run.
  destruct (shunting_yard (insert_concat regex) [] []) as [[o s]|] eqn:Hrun;
    [|done].
  intros [= <-].
  destruct (shunting_yard_keeps _ _ _ _ _ (Forall_nil_2 _) Hrun)
    as (_ & _ & Hperm).
  by rewrite Hperm, app_nil_r.
Qed.

Lemma postfix_keeps_tokens_witness :
  filter (λ c, ¬ is_paren c) (str "ab|c*.")
  ≡ₚ filter (λ c, ¬ is_paren c) (insert_concat (str "(a|b)c*")).
Proof.
  apply (postfix_keeps_tokens (str "(a|b)c*") (str "ab|c*.")).
  vm_compute. reflexivity.
Defined.

(** ** Postfix conversion of a string of operands *)

Section Operands.

Implicit Types (regex output stack : list Char) (c : Char).

Lemma operand_chars c :
  is_operand c →
  c ≠ LPAREN ∧ c ≠ RPAREN ∧ c ≠ STAR ∧ c ≠ PLUS ∧ c ≠ QMARK ∧ c ≠ DOT
  ∧ c ≠ BAR.
Proof.
  intros [Hr Hp].
  repeat split; try done; intros ->; by vm_compute in Hp.
Qed.

Lemma operands_concat_between c nxt :
  is_operand c → is_operand nxt → concat_between c nxt.
Proof.
  intros Hc Hn.
  destruct (operand_chars c Hc) as (? & ? & ? & ? & ? & ? & ?).
  destruct (operand_chars nxt Hn) as (? & ? & ? & ? & ? & ? & ?).
  by repeat split.
Qed.

Lemma insert_concat_of_operands c regex :
  Forall is_operand (c :: regex) →
  insert_concat_spec (c :: regex) = c :: flat_map (λ x, [DOT; x]) regex.
Proof.
  revert c. induction regex as [|nxt regex IH]; intros c Hall; [done|].
  apply Forall_cons in Hall as [Hc Hall].
  pose proof Hall as [Hn _]%Forall_cons.
  cbn [insert_concat_spec] in *.
  rewrite decide_True by by apply operands_concat_between.
  by rewrite IH.
Qed.

Lemma shunt_of_operand c output stack :
  is_operand c → shunt c output stack = Ok (output ++ [c], stack).
Proof.
  intros Hc. pose proof Hc as [_ Hp].
  destruct (operand_chars c Hc) as (Hlp%N.eqb_neq & Hrp%N.eqb_neq & _).
  unfold shunt. by rewrite Hlp, Hrp, Hp.
Qed.

(** With a concatenation waiting on the stack, every further pair of a
    concatenation and an operand moves the waiting one to the output. *)
Lemma shunting_yard_of_pairs regex output :
  Forall is_operand regex →
  shunting_yard (flat_map (λ x, [DOT; x]) regex) output [DOT]
  = Ok (output ++ flat_map (λ x, [DOT; x]) regex, [DOT]).
Proof.
  revert output. induction regex as [|x regex IH]; intros output Hall.
  - cbn. by rewrite app_nil_r.
  - apply Forall_cons in Hall as [Hx Hall].
    cbn [flat_map app]. rewrite shunting_yard_cons.
    change (shunt DOT output [DOT]) with (Ok (output ++ [DOT], [DOT])).
    cbn iota. rewrite shunting_yard_cons, shunt_of_operand by done.
    cbn iota. rewrite IH by done. by rewrite <- !app_assoc.
Qed.

Lemma pairs_shift (l : list Char) :
  flat_map (λ x, [DOT; x]) l ++ [DOT] = DOT :: flat_map (λ x, [x; DOT]) l.
Proof. induction l as [|x l IH]; [done|]. cbn. by rewrite IH. Qed.

Lemma infix_to_postfix_of_operands regex :
  Forall is_operand regex →
  infix_to_postfix regex = Ok (operands_postfix regex).
Proof.
  intros Hall. rewrite infix_to_postfix_run, insert_concat_refines.
  destruct regex as [|c [|x regex]]; [done| |].
  - apply Forall_cons in Hall as [Hc _]. cbn [insert_concat_spec].
    rewrite shunting_yard_cons, shunt_of_operand by done. done.
  - rewrite insert_concat_of_operands by done.
    apply Forall_cons in Hall as [Hc Hall].
    apply Forall_cons in Hall as [Hx Hall].
    cbn [flat_map app].
    rewrite shunting_yard_cons, shunt_of_operand by done. cbn iota.
    rewrite shunting_yard_cons.
    change (shunt DOT ([] ++ [c]) []) with (Ok ([c], [DOT])).
    cbn iota. rewrite shunting_yard_cons, shunt_of_operand by done.
    cbn iota. rewrite shunting_yard_of_pairs by done.
    cbn [operands_postfix flat_map app].
    by rewrite pairs_shift.
Qed.

End Operands.

(** X8. A pattern made of operands only (no operator, no parenthesis)
    becomes its left-nested concatenation: the first two operands, then each
    further operand followed by a concatenation operator. *)
Theorem operands_become_left_nested (regex : list Char) :
  Forall is_operand regex →
  infix_to_postfix regex = Ok (operands_postfix regex).
Proof. apply infix_to_postfix_of_operands. Qed.

Lemma operands_become_left_nested_witness :
  infix_to_postfix (str "abcd") = Ok (str "ab.c.d.").
Proof.
  apply (operands_become_left_nested (str "abcd")).
  repeat constructor; vm_compute; discriminate.
Defined.

(** ** [add_transition] *)

(** X9. [add_transition] adds the edge and nothing else: the start and the
    accept state stay, the source becomes a key of the transition map, and
    the edges afterwards are the edges before together with the new one. *)
Theorem add_transition_adds_one_edge (nfa : NFA) (f : nat) (a : Char) (t : nat) :
  start_state (add_transition nfa f a t) = start_state nfa
  ∧ accept_state (add_transition nfa f a t) = accept_state nfa
  ∧ dom (transitions (add_transition nfa f a t)) = {[f]} ∪ dom (transitions nfa)
  ∧ edge (add_transition nfa f a t) f a t
  ∧ ∀ s b x, edge (add_transition nfa f a t) s b x
             ↔ edge nfa s b x ∨ (s, b, x) = (f, a, t).
Proof.
  split; [done|]. split; [done|]. split; [apply dom_add_transition|].
  split; [|apply edge_add_transition].
  apply edge_add_transition. by right.
Qed.

(** X10. Adding the same edge twice is adding it once, and the order in
    which two edges are added does not matter. *)
Theorem add_transition_idempotent_commutative (nfa : NFA)
    (f1 f2 : nat) (a1 a2 : Char) (t1 t2 : nat) :
  add_transition (add_transition nfa f1 a1 t1) f1 a1 t1
  = add_transition nfa f1 a1 t1
  ∧ add_transition (add_transition nfa f1 a1 t1) f2 a2 t2
    = add_transition (add_transition nfa f2 a2 t2) f1 a1 t1.
Proof.
  split.
  - unfold add_transition. cbv zeta.
    cbn [start_state accept_state transitions].
    apply (f_equal (mkNFA _ _)).
    rewrite lookup_insert_eq. cbn [from_option id].
    rewrite lookup_insert_eq. cbn [from_option id].
    rewrite !insert_insert_eq.
    replace (default ∅ (default ∅ (transitions nfa !! f1) !! a1)
             ∪ {[t1]} ∪ {[t1]})
      with (default ∅ (default ∅ (transitions nfa !! f1) !! a1) ∪ {[t1]})
      by set_solver.
    done.
  - unfold add_transition. cbv zeta.
    cbn [start_state accept_state transitions].
    apply (f_equal (mkNFA _ _)).
    destruct (decide (f1 = f2)) as [<-|Hf].
    + rewrite !lookup_insert_eq. cbn [from_option id]. rewrite !insert_insert_eq.
      apply (f_equal (λ m, <[f1 := m]> (transitions nfa))).
      destruct (decide (a1 = a2)) as [<-|Ha].
      * rewrite !lookup_insert_eq. cbn [from_option id]. rewrite !insert_insert_eq.
        apply (f_equal (λ d, <[a1 := d]> _)). set_solver.
      * rewrite !lookup_insert_ne by done. by rewrite insert_insert_ne.
    + rewrite !lookup_insert_ne by done. by rewrite insert_insert_ne.
Qed.

(** ** The builder: failure, counting, shape *)

Section BuilderFacts.

Implicit Types (b : builder) (char : Char) (postfix : list Char).
Implicit Types (N F : NFA) (rest : list NFA) (T : gmap nat (gmap N (gset nat))).

Lemma postfix_to_nfa_run postfix :
  postfix_to_nfa postfix
  = match process_all postfix fresh_builder with
    | Ok (_, b) => match stack b with
                   | [] => Raise IndexError
                   | nfa :: _ => Ok nfa
                   end
    | Raise e => Raise e
    end.
Proof.
  unfold postfix_to_nfa.
  change ((process_all postfix ≫= λ _, pop) fresh_builder)
    with (match process_all postfix fresh_builder with
          | Ok (_, b') => pop b'
          | Raise e => Raise e
          end).
  destruct (process_all postfix fresh_builder) as [[[] b]|e]; [|done].
  unfold pop. by destruct (stack b).
Qed.

Lemma postfix_to_nfa_Ok postfix nfa :
  postfix_to_nfa postfix = Ok nfa →
  ∃ b rest, process_all postfix fresh_builder = Ok ((), b)
            ∧ stack b = nfa :: rest.
Proof.
  rewrite postfix_to_nfa_run.
  destruct (process_all postfix fresh_builder) as [[[] b]|e]; [|done].
  destruct (stack b) as [|nfa' rest] eqn:Hstk; [done|].
  intros [= ->]. by exists b, rest.
Qed.

Lemma process_all_raises postfix b e :
  process_all postfix b = Raise e → e = IndexError.
Proof.
  destruct (underflows (length (stack b)) postfix) eqn:Hu.
  - rewrite (process_all_underflow postfix b Hu). by intros [= <-].
  - destruct (process_all_no_underflow postfix b Hu) as (b' & -> & _). done.
Qed.

Lemma process_counts char b b' :
  process char b = Ok ((), b') →
  next_state_id b'
  = ((if decide (char = DOT) then 0 else 2) + next_state_id b)%nat.
Proof.
  destruct (process_viewP char b)
    as [Hlit | Hu | N1 rest added Hstk Hin
        | N2 N1 rest -> Hstk | N2 N1 rest -> Hstk]; intros [= <-];
    cbn [next_state_id].
  - rewrite decide_False; [done|]. by intros ->.
  - rewrite decide_False; [done|]. intros ->.
    repeat (apply elem_of_cons in Hin as [[=] | Hin]).
    by apply elem_of_nil in Hin.
  - by rewrite decide_True.
  - by rewrite decide_False.
Qed.

Lemma process_all_counts postfix b b' :
  process_all postfix b = Ok ((), b') →
  next_state_id b' = (2 * minting_tokens postfix + next_state_id b)%nat.
Proof.
  revert b. induction postfix as [|char postfix IH]; intros b.
  - by intros [= <-].
  - rewrite process_all_cons.
    destruct (process char b) as [[[] b1]|] eqn:Hp; [|done].
    intros Hrun. rewrite (IH b1 Hrun), (process_counts char b b1 Hp).
    unfold minting_tokens. rewrite filter_cons.
    destruct (decide (char = DOT)) as [->|Hne].
    + by rewrite decide_False by (by intros H).
    + rewrite decide_True by done. cbn [length]. lia.
Qed.

(** *** Entries are never empty *)

Lemma entries_nonempty_empty : entries_nonempty ∅.
Proof.
  split.
  - intros s m H. by rewrite lookup_empty in H.
  - intros s a ds H. unfold entry in H. by rewrite lookup_empty in H.
Qed.

Lemma entries_nonempty_add_transition nfa (f : nat) (a : Char) (t : nat) :
  entries_nonempty (transitions nfa) →
  entries_nonempty (transitions (add_transition nfa f a t)).
Proof.
  intros [Hkeys Hsets]. split.
  - intros s m. unfold add_transition. cbn [transitions].
    destruct (decide (f = s)) as [->|Hne].
    + rewrite lookup_insert_eq. intros [= <-]. apply insert_non_empty.
    + rewrite lookup_insert_ne by done. apply Hkeys.
  - intros s b ds. rewrite entry_add_transition.
    destruct (decide (s = f ∧ b = a)); [|apply Hsets].
    intros [= <-]. set_solver.
Qed.

Lemma entries_nonempty_add_edges nfa (added : list (nat * Char * nat)) :
  entries_nonempty (transitions nfa) →
  entries_nonempty (transitions (add_edges nfa added)).
Proof.
  revert nfa. induction added as [|[[f a] t] added IH]; intros nfa H; [done|].
  unfold add_edges in *. cbn [foldl].
  by apply IH, entries_nonempty_add_transition.
Qed.

Lemma entry_union_disjoint (t1 t2 : gmap nat (gmap N (gset nat)))
    (s : nat) (a : Char) :
  dom t1 ## dom t2 →
  entry (t1 ∪ t2) s a = match t1 !! s with
                        | Some _ => entry t1 s a
                        | None => entry t2 s a
                        end.
Proof.
  intros Hd. unfold entry. rewrite lookup_union.
  by destruct (t1 !! s) as [m1|], (t2 !! s) as [m2|].
Qed.

Lemma entries_nonempty_merge (t1 t2 : gmap nat (gmap N (gset nat))) :
  dom t1 ## dom t2 →
  entries_nonempty t1 → entries_nonempty t2 →
  entries_nonempty (merge_transitions t1 t2).
Proof.
  intros Hd [Hk1 Hs1] [Hk2 Hs2]. rewrite merge_transitions_disjoint by done.
  split.
  - intros s m [H | [_ H]]%lookup_union_Some_raw; eauto.
  - intros s a ds. rewrite entry_union_disjoint by done.
    destruct (t1 !! s); eauto.
Qed.

(** In such a map a state is a key exactly when an edge leaves it. *)
Lemma key_has_edge T (s : nat) :
  entries_nonempty T → s ∈ dom T → ∃ a t, has_edge T s a t.
Proof.
  intros [Hkeys Hsets] [m Hm]%elem_of_dom.
  destruct (map_choose m (Hkeys s m Hm)) as (a & ds & Ha).
  assert (entry T s a = Some ds) as He by (unfold entry; by rewrite Hm).
  destruct (set_choose_L ds (Hsets s a ds He)) as (t & Ht).
  exists a, t, m, ds. done.
Qed.

Lemma edge_endpoints F (s : nat) (a : Char) (t : nat) :
  edge F s a t → s ∈ frag_states F ∧ t ∈ frag_states F.
Proof.
  intros He. rewrite frag_states_decomp. split; apply elem_of_union_r;
    apply elem_of_keys_and_dests.
  - left. by eapply has_edge_source.
  - right. eauto.
Qed.

Lemma start_accept_in_frag F :
  start_state F ∈ frag_states F ∧ accept_state F ∈ frag_states F.
Proof. rewrite frag_states_decomp. set_solver. Qed.

Lemma new_fragment_edges (start accept : nat) T
    (added : list (nat * Char * nat)) (operands : list NFA) :
  (∀ s a t, has_edge T s a t
            ↔ ∃ operand, operand ∈ operands ∧ edge operand s a t) →
  ∀ s a t, edge (add_edges (mkNFA start accept T) added) s a t
           ↔ (∃ operand, operand ∈ operands ∧ edge operand s a t)
             ∨ (s, a, t) ∈ added.
Proof.
  intros HT s a t.
  destruct (add_edges_spec (mkNFA start accept T) added)
    as (_ & _ & _ & _ & He).
  rewrite He. unfold edge at 1. cbn [transitions]. by rewrite HT.
Qed.

End BuilderFacts.

(** X11. [postfix_to_nfa] fails exactly when the token sequence is empty or
    some operator finds fewer operands on the stack than it takes, and then
    with [IndexError]; in every other case it returns an automaton. *)
Theorem postfix_failure_characterised (postfix : list Char) :
  (postfix_to_nfa postfix = Raise IndexError
   ↔ postfix = [] ∨ underflows 0 postfix = true)
  ∧ (∀ e, postfix_to_nfa postfix = Raise e → e = IndexError)
  ∧ ((∃ nfa, postfix_to_nfa postfix = Ok nfa)
     ↔ postfix ≠ [] ∧ underflows 0 postfix = false).
Proof.
  assert (postfix ≠ [] → underflows 0 postfix = false →
          ∃ nfa, postfix_to_nfa postfix = Ok nfa) as Hok.
  { intros Hne Hno.
    destruct (process_all_no_underflow postfix fresh_builder Hno)
      as (b & Hrun & Hlen).
    pose proof (fragments_left_pos 0 postfix Hno (or_introl Hne)) as Hpos.
    cbn [fresh_builder stack length] in Hlen. rewrite <- Hlen in Hpos.
    destruct (stack b) as [|nfa rest] eqn:Hstk; [cbn in Hpos; lia|].
    exists nfa. by eapply postfix_to_nfa_top. }
  assert (postfix = [] ∨ underflows 0 postfix = true →
          postfix_to_nfa postfix = Raise IndexError) as Hfail.
  { intros [-> | Hu]; [done|]. rewrite postfix_to_nfa_run.
    by rewrite (process_all_underflow postfix fresh_builder Hu). }
  split; [|split].
  - split; [|done]. intros Hraise.
    destruct postfix as [|c postfix]; [by left|]. right.
    destruct (underflows 0 (c :: postfix)) eqn:Hu; [done|].
    destruct (Hok ltac:(done) eq_refl) as (nfa & Hnfa).
    by rewrite Hnfa in Hraise.
  - intros e. rewrite postfix_to_nfa_run.
    destruct (process_all postfix fresh_builder) as [[[] b]|e'] eqn:Hrun.
    + destruct (stack b); [by intros [= <-]|done].
    + intros [= <-]. by eapply process_all_raises.
  - split.
    + intros (nfa & Hnfa). split.
      * intros ->. done.
      * destruct (underflows 0 postfix) eqn:Hu; [|done].
        rewrite Hfail in Hnfa by auto. done.
    + intros [Hne Hno]. by apply Hok.
Qed.

Lemma postfix_failure_characterised_witness :
  postfix_to_nfa (str "a*b") ≠ Raise IndexError
  ∧ ∃ nfa, postfix_to_nfa (str "a*b") = Ok nfa.
Proof.
  destruct (postfix_failure_characterised (str "a*b")) as (Hraise & _ & Hok).
  split.
  - intros [H | H]%Hraise; [discriminate H|]. vm_compute in H. discriminate H.
  - apply Hok. split; [discriminate|]. vm_compute. reflexivity.
Defined.

(** ** The shape of the fragments *)

Section Shape.

Implicit Types (b : builder) (char : Char) (postfix tokens : list Char).
Implicit Types (N F : NFA) (rest : list NFA).

Lemma frag_ok_more_tokens tokens char F :
  frag_ok tokens F → frag_ok (tokens ++ [char]) F.
Proof.
  intros (Hne & Hshape & Hlab). split; [done|]. split; [done|].
  intros s a t He. destruct (Hlab s a t He) as [-> | [Hin Hlit]]; [by left|].
  right. split; [|done]. apply elem_of_app. by left.
Qed.

Lemma operand_below b N :
  builder_inv b → N ∈ stack b →
  (start_state N < next_state_id b)%nat
  ∧ (accept_state N < next_state_id b)%nat
  ∧ ∀ s a t, edge N s a t →
      (s < next_state_id b)%nat ∧ (t < next_state_id b)%nat.
Proof.
  intros (Hiss & _) HN.
  destruct (start_accept_in_frag N) as [Hs Ha].
  split; [by apply (Hiss N)|]. split; [by apply (Hiss N)|].
  intros s a t [Hs' Ht']%edge_endpoints. split; by apply (Hiss N).
Qed.

Lemma top_two_apart b N2 N1 rest :
  builder_inv b → stack b = N2 :: N1 :: rest →
  ∀ x, x ∈ frag_states N1 → x ∈ frag_states N2 → False.
Proof.
  intros (_ & Hdis & _) Hstk x H1 H2.
  apply (Hdis 1%nat 0%nat N1 N2) with (x := x); [done|by rewrite Hstk..|done|done].
Qed.

Ltac added_cases H :=
  unfold star_edges, plus_edges, qmark_edges, dot_edges, bar_edges in H;
  rewrite ?elem_of_cons, ?elem_of_nil in H;
  destruct_or!; simplify_eq.

(** The fragment of a literal. *)
Lemma literal_frag_ok tokens (n : nat) char :
  char_in char [STAR; PLUS; QMARK; DOT; BAR] = false →
  frag_ok (tokens ++ [char])
    (add_edges (mkNFA n (S n) ∅) [(n, char, S n)]).
Proof.
  intros Hlit.
  assert (∀ s a t, has_edge ∅ s a t
                   ↔ ∃ operand, operand ∈ @nil NFA ∧ edge operand s a t) as HT.
  { intros s a t. split.
    - intros (m & ds & H & _). by rewrite lookup_empty in H.
    - intros (N & HN & _). by apply elem_of_nil in HN. }
  pose proof (new_fragment_edges n (S n) ∅ [(n, char, S n)] [] HT) as E.
  destruct (add_edges_spec (mkNFA n (S n) ∅) [(n, char, S n)])
    as (Hs & Ha & _).
  cbn [start_state accept_state] in Hs, Ha.
  split; [|split].
  - apply entries_nonempty_add_edges, entries_nonempty_empty.
  - unfold thompson_shape. rewrite Hs, Ha. split; [lia|]. split; [|split].
    + intros a t [(N & HN & _) | Hin]%E; [by apply elem_of_nil in HN|].
      added_cases Hin. lia.
    + intros s a [(N & HN & _) | Hin]%E; [by apply elem_of_nil in HN|].
      added_cases Hin. lia.
    + exists char, (S n). apply E. right. constructor.
  - intros s a t [(N & HN & _) | Hin]%E; [by apply elem_of_nil in HN|].
    added_cases Hin. right. split; [|done]. apply elem_of_app. right.
    constructor.
Qed.

(** The fragment of [*], [+] or [?]. *)
Lemma unary_frag_ok tokens char (n : nat) N1
    (added : list (nat * Char * nat)) :
  (char, added) ∈ [ (STAR, star_edges n (S n) N1);
                    (PLUS, plus_edges n (S n) N1);
                    (QMARK, qmark_edges n (S n) N1) ] →
  frag_ok tokens N1 →
  (start_state N1 < n)%nat → (accept_state N1 < n)%nat →
  (∀ s a t, edge N1 s a t → (s < n)%nat ∧ (t < n)%nat) →
  frag_ok tokens (add_edges (mkNFA n (S n) (transitions N1)) added).
Proof.
  intros Hin (Hne & Hshape & Hlab) Hst Hac Hbelow.
  pose proof (new_fragment_edges n (S n) (transitions N1) added [N1]
                (unary_operand_edges N1)) as E.
  destruct (add_edges_spec (mkNFA n (S n) (transitions N1)) added)
    as (Hs & Ha & _).
  cbn [start_state accept_state] in Hs, Ha.
  split; [|split].
  - by apply entries_nonempty_add_edges.
  - unfold thompson_shape. rewrite Hs, Ha. split; [lia|]. split; [|split].
    + intros a t [(N & ->%list_elem_of_singleton & He) | Hadd]%E.
      * apply Hbelow in He. lia.
      * repeat (apply elem_of_cons in Hin as [[= -> ->] | Hin]);
          [..|by apply elem_of_nil in Hin]; added_cases Hadd; lia.
    + intros s a [(N & ->%list_elem_of_singleton & He) | Hadd]%E.
      * apply Hbelow in He. lia.
      * repeat (apply elem_of_cons in Hin as [[= -> ->] | Hin]);
          [..|by apply elem_of_nil in Hin]; added_cases Hadd; lia.
    + exists EPSILON, (start_state N1). apply E. right.
      repeat (apply elem_of_cons in Hin as [[= -> ->] | Hin]);
        [..|by apply elem_of_nil in Hin]; constructor.
  - intros s a t [(N & ->%list_elem_of_singleton & He) | Hadd]%E.
    + by apply Hlab in He.
    + left.
      repeat (apply elem_of_cons in Hin as [[= -> ->] | Hin]);
        [..|by apply elem_of_nil in Hin]; by added_cases Hadd.
Qed.

(** The fragment of an alternation. *)
Lemma bar_frag_ok tokens (n : nat) N1 N2 :
  dom (transitions N1) ## dom (transitions N2) →
  frag_ok tokens N1 → frag_ok tokens N2 →
  (start_state N1 < n)%nat → (accept_state N1 < n)%nat →
  (start_state N2 < n)%nat → (accept_state N2 < n)%nat →
  (∀ s a t, edge N1 s a t → (s < n)%nat ∧ (t < n)%nat) →
  (∀ s a t, edge N2 s a t → (s < n)%nat ∧ (t < n)%nat) →
  frag_ok tokens
    (add_edges
       (mkNFA n (S n) (merge_transitions (transitions N1) (transitions N2)))
       (bar_edges n (S n) N1 N2)).
Proof.
  intros Hd (Hne1 & Hshape1 & Hlab1) (Hne2 & Hshape2 & Hlab2)
         Hst1 Hac1 Hst2 Hac2 Hb1 Hb2.
  pose proof (new_fragment_edges n (S n) _ (bar_edges n (S n) N1 N2) [N1; N2]
                (λ s a t, binary_operand_edges N1 N2 s a t Hd)) as E.
  destruct (add_edges_spec
              (mkNFA n (S n)
                 (merge_transitions (transitions N1) (transitions N2)))
              (bar_edges n (S n) N1 N2)) as (Hs & Ha & _).
  cbn [start_state accept_state] in Hs, Ha.
  assert (∀ N s a t, N ∈ [N1; N2] → edge N s a t → (s < n)%nat ∧ (t < n)%nat)
    as Hb.
  { intros N s a t [-> | ->%list_elem_of_singleton]%elem_of_cons;
      [apply Hb1|apply Hb2]. }
  split; [|split].
  - by apply entries_nonempty_add_edges, entries_nonempty_merge.
  - unfold thompson_shape. rewrite Hs, Ha. split; [lia|]. split; [|split].
    + intros a t [(N & HN & He) | Hadd]%E.
      * apply (Hb N _ _ _ HN) in He. lia.
      * added_cases Hadd; lia.
    + intros s a [(N & HN & He) | Hadd]%E.
      * apply (Hb N _ _ _ HN) in He. lia.
      * added_cases Hadd; lia.
    + exists EPSILON, (start_state N1). apply E. right. constructor.
  - intros s a t [(N & HN & He) | Hadd]%E.
    + apply elem_of_cons in HN as [-> | ->%list_elem_of_singleton];
        [by apply Hlab1 in He|by apply Hlab2 in He].
    + left. by added_cases Hadd.
Qed.

(** The fragment of a concatenation. *)
Lemma dot_frag_ok tokens N1 N2 :
  dom (transitions N1) ## dom (transitions N2) →
  (∀ x, x ∈ frag_states N1 → x ∈ frag_states N2 → False) →
  frag_ok tokens N1 → frag_ok tokens N2 →
  frag_ok tokens
    (add_edges
       (mkNFA (start_state N1) (accept_state N2)
          (merge_transitions (transitions N1) (transitions N2)))
       (dot_edges N1 N2)).
Proof.
  intros Hd Hapart (Hne1 & Hshape1 & Hlab1) (Hne2 & Hshape2 & Hlab2).
  destruct Hshape1 as (Hsa1 & Hout1 & Hin1 & (a1 & t1 & Hfirst1)).
  destruct Hshape2 as (Hsa2 & Hout2 & Hin2 & _).
  destruct (start_accept_in_frag N1) as [Hs1 Ha1].
  destruct (start_accept_in_frag N2) as [Hs2 Ha2].
  pose proof (new_fragment_edges (start_state N1) (accept_state N2) _
                (dot_edges N1 N2) [N1; N2]
                (λ s a t, binary_operand_edges N1 N2 s a t Hd)) as E.
  destruct (add_edges_spec
              (mkNFA (start_state N1) (accept_state N2)
                 (merge_transitions (transitions N1) (transitions N2)))
              (dot_edges N1 N2)) as (Hs & Ha & _).
  cbn [start_state accept_state] in Hs, Ha.
  split; [|split].
  - by apply entries_nonempty_add_edges, entries_nonempty_merge.
  - unfold thompson_shape. rewrite Hs, Ha. split; [|split; [|split]].
    + intros Heq. apply (Hapart (start_state N1)); [done|by rewrite Heq].
    + intros a t [(N & HN & He) | Hadd]%E.
      * apply elem_of_cons in HN as [-> | ->%list_elem_of_singleton].
        -- apply edge_endpoints in He as [Hsrc _]. by apply (Hapart _ Hsrc).
        -- by apply Hout2 in He.
      * added_cases Hadd.
        apply (Hapart (accept_state N1)); [done|].
        by match goal with H : accept_state N2 = _ |- _ => rewrite <- H end.
    + intros s a [(N & HN & He) | Hadd]%E.
      * apply elem_of_cons in HN as [-> | ->%list_elem_of_singleton].
        -- by apply Hin1 in He.
        -- apply edge_endpoints in He as [_ Htgt]. by apply (Hapart _ Hs1).
      * added_cases Hadd.
        apply (Hapart (start_state N1)); [done|].
        by match goal with H : start_state N1 = _ |- _ => rewrite H end.
    + exists a1, t1. apply E. left. exists N1. split; [constructor|done].
  - intros s a t [(N & HN & He) | Hadd]%E.
    + apply elem_of_cons in HN as [-> | ->%list_elem_of_singleton];
        [by apply Hlab1 in He|by apply Hlab2 in He].
    + left. by added_cases Hadd.
Qed.

Lemma process_frag_ok tokens char b b' :
  builder_inv b →
  Forall (frag_ok tokens) (stack b) →
  process char b = Ok ((), b') →
  Forall (frag_ok (tokens ++ [char])) (stack b').
Proof.
  intros Hinv Hall.
  assert (∀ l, Forall (frag_ok tokens) l →
               Forall (frag_ok (tokens ++ [char])) l) as Hmore.
  { intros l Hl. eapply Forall_impl; [exact Hl|].
    intros F. apply frag_ok_more_tokens. }
  destruct (process_viewP char b)
    as [Hlit | Hu | N1 rest added Hstk Hin
        | N2 N1 rest -> Hstk | N2 N1 rest -> Hstk]; intros [= <-];
    cbn [stack].
  - apply Forall_cons. split; [by apply literal_frag_ok|by apply Hmore].
  - rewrite Hstk in Hall. apply Forall_cons in Hall as [H1 Hrest].
    destruct (operand_below b N1 Hinv) as (Hst & Hac & Hbelow);
      [rewrite Hstk; constructor|].
    apply Forall_cons. split; [|by apply Hmore].
    apply frag_ok_more_tokens. by eapply unary_frag_ok.
  - rewrite Hstk in Hall.
    apply Forall_cons in Hall as [H2 Hall].
    apply Forall_cons in Hall as [H1 Hrest].
    apply Forall_cons. split; [|by apply Hmore].
    apply frag_ok_more_tokens. apply dot_frag_ok; [| |done|done].
    + by eapply top_two_disjoint.
    + by eapply top_two_apart.
  - rewrite Hstk in Hall.
    apply Forall_cons in Hall as [H2 Hall].
    apply Forall_cons in Hall as [H1 Hrest].
    destruct (operand_below b N1 Hinv) as (Hst1 & Hac1 & Hb1);
      [rewrite Hstk; repeat constructor|].
    destruct (operand_below b N2 Hinv) as (Hst2 & Hac2 & Hb2);
      [rewrite Hstk; repeat constructor|].
    apply Forall_cons. split; [|by apply Hmore].
    apply frag_ok_more_tokens. apply bar_frag_ok; try done.
    by eapply top_two_disjoint.
Qed.

Lemma process_all_frag_ok tokens postfix b b' :
  builder_inv b →
  Forall (frag_ok tokens) (stack b) →
  process_all postfix b = Ok ((), b') →
  Forall (frag_ok (tokens ++ postfix)) (stack b').
Proof.
  revert tokens b. induction postfix as [|char postfix IH];
    intros tokens b Hinv Hall.
  - intros [= <-]. by rewrite app_nil_r.
  - rewrite process_all_cons.
    destruct (process char b) as [[[] b1]|] eqn:Hp; [|done].
    intros Hrun.
    replace (tokens ++ char :: postfix) with ((tokens ++ [char]) ++ postfix)
      by (by rewrite <- app_assoc).
    apply (IH _ b1); [by eapply process_inv|by eapply process_frag_ok|done].
Qed.

(** Every fragment the evaluator can have on its stack has the shape. *)
Lemma reachable_frag_ok postfix b :
  process_all postfix fresh_builder = Ok ((), b) →
  Forall (frag_ok postfix) (stack b).
Proof.
  intros Hrun.
  apply (process_all_frag_ok [] postfix fresh_builder b);
    [apply fresh_builder_inv|constructor|done].
Qed.

End Shape.

(** X12. The automaton [postfix_to_nfa] returns has the shape of a Thompson
    fragment: its start and accept states differ, no edge leaves the accept
    state (it is no key of the transition map), no edge enters the start
    state, and the start state is a key of the transition map. *)
Theorem result_has_thompson_shape (postfix : list Char) (nfa : NFA) :
  postfix_to_nfa postfix = Ok nfa →
  start_state nfa ≠ accept_state nfa
  ∧ (∀ a t, ¬ edge nfa (accept_state nfa) a t)
  ∧ (accept_state nfa ∉ dom (transitions nfa))
  ∧ (∀ s a, ¬ edge nfa s a (start_state nfa))
  ∧ start_state nfa ∈ dom (transitions nfa).
Proof.
  intros (b & rest & Hrun & Hstk)%postfix_to_nfa_Ok.
  pose proof (reachable_frag_ok postfix b Hrun) as Hall.
  rewrite Hstk in Hall. apply Forall_cons in Hall as [(Hne & Hshape & _) _].
  destruct Hshape as (Hsa & Hout & Hin & (a & t & Hfirst)).
  split; [done|]. split; [done|]. split; [|split; [done|]].
  - intros Hkey. destruct (key_has_edge _ _ Hne Hkey) as (a' & t' & He).
    by apply (Hout a' t').
  - by eapply has_edge_source.
Qed.

Lemma result_has_thompson_shape_witness :
  let nfa := mkNFA 0 3 {[ 0%nat := {[ ch "a" := {[ 1%nat ]} ]};
                          1%nat := {[ EPSILON := {[ 2%nat ]} ]};
                          2%nat := {[ ch "b" := {[ 3%nat ]} ]} ]} in
  postfix_to_nfa (str "ab.") = Ok nfa
  ∧ start_state nfa ≠ accept_state nfa
  ∧ (accept_state nfa ∉ dom (transitions nfa)).
Proof.
  intros nfa.
  assert (Hrun : postfix_to_nfa (str "ab.") = Ok nfa)
    by (vm_compute; reflexivity).
  split; [exact Hrun|].
  destruct (result_has_thompson_shape (str "ab.") nfa Hrun)
    as (H1 & _ & H2 & _).
  split; [exact H1 | exact H2].
Defined.

(** X13. In the automaton [postfix_to_nfa] returns no dictionary and no set
    is empty: every state key has a symbol, and every (state, symbol) entry
    has a destination. *)
Theorem result_entries_nonempty (postfix : list Char) (nfa : NFA) :
  postfix_to_nfa postfix = Ok nfa →
  (∀ s by_symbol, transitions nfa !! s = Some by_symbol → by_symbol ≠ ∅)
  ∧ (∀ s by_symbol a dests,
       transitions nfa !! s = Some by_symbol → by_symbol !! a = Some dests →
       dests ≠ ∅).
Proof.
  intros (b & rest & Hrun & Hstk)%postfix_to_nfa_Ok.
  pose proof (reachable_frag_ok postfix b Hrun) as Hall.
  rewrite Hstk in Hall. apply Forall_cons in Hall as [([Hkeys Hsets] & _) _].
  split; [done|]. intros s m a ds Hm Ha.
  apply (Hsets s a). unfold entry. by rewrite Hm.
Qed.

Lemma result_entries_nonempty_witness :
  let nfa := mkNFA 0 3 {[ 0%nat := {[ ch "a" := {[ 1%nat ]} ]};
                          1%nat := {[ EPSILON := {[ 2%nat ]} ]};
                          2%nat := {[ ch "b" := {[ 3%nat ]} ]} ]} in
  postfix_to_nfa (str "ab.") = Ok nfa
  ∧ ∀ s by_symbol, transitions nfa !! s = Some by_symbol → by_symbol ≠ ∅.
Proof.
  intros nfa.
  assert (Hrun : postfix_to_nfa (str "ab.") = Ok nfa)
    by (vm_compute; reflexivity).
  split; [exact Hrun|].
  destruct (result_entries_nonempty (str "ab.") nfa Hrun) as (H1 & _).
  exact H1.
Defined.

(** X14. The builder invents no symbol: every edge of the automaton is
    labelled with ['ε'] or with a token of the postfix sequence that is not
    an operator. *)
Theorem result_labels_come_from_tokens (postfix : list Char) (nfa : NFA) :
  postfix_to_nfa postfix = Ok nfa →
  ∀ s a t, edge nfa s a t →
    a = EPSILON
    ∨ (a ∈ postfix ∧ char_in a [STAR; PLUS; QMARK; DOT; BAR] = false).
Proof.
  intros (b & rest & Hrun & Hstk)%postfix_to_nfa_Ok.
  pose proof (reachable_frag_ok postfix b Hrun) as Hall.
  rewrite Hstk in Hall. by apply Forall_cons in Hall as [(_ & _ & Hlab) _].
Qed.

Lemma result_labels_come_from_tokens_witness :
  let nfa := mkNFA 0 3 {[ 0%nat := {[ ch "a" := {[ 1%nat ]} ]};
                          1%nat := {[ EPSILON := {[ 2%nat ]} ]};
                          2%nat := {[ ch "b" := {[ 3%nat ]} ]} ]} in
  postfix_to_nfa (str "ab.") = Ok nfa
  ∧ ∀ s a t, edge nfa s a t →
      a = EPSILON
      ∨ (a ∈ str "ab." ∧ char_in a [STAR; PLUS; QMARK; DOT; BAR] = false).
Proof.
  intros nfa.
  assert (Hrun : postfix_to_nfa (str "ab.") = Ok nfa)
    by (vm_compute; reflexivity).
  split; [exact Hrun|].
  exact (result_labels_come_from_tokens (str "ab.") nfa Hrun).
Defined.

(** X15. The states [to_graphviz] draws for the automaton are identifiers
    below twice the number of tokens other than ['.'], the start state among
    them; when the evaluation leaves exactly one fragment, they are all of
    these identifiers, so the automaton has two states for each literal and
    each of [*], [+], [?], [|]. *)
Theorem result_state_count (postfix : list Char) (nfa : NFA) :
  postfix_to_nfa postfix = Ok nfa →
  (∀ x, x ∈ all_states nfa → (x < 2 * minting_tokens postfix)%nat)
  ∧ start_state nfa ∈ all_states nfa
  ∧ (fragments_left 0 postfix = 1%nat →
       all_states nfa = set_seq 0 (2 * minting_tokens postfix)
       ∧ size (all_states nfa) = (2 * minting_tokens postfix)%nat).
Proof.
  intros (b & rest & Hrun & Hstk)%postfix_to_nfa_Ok.
  pose proof (reachable_inv postfix b Hrun) as (Hiss & _ & Huse).
  pose proof (process_all_counts postfix _ _ Hrun) as Hn.
  cbn [fresh_builder next_state_id] in Hn. rewrite Nat.add_0_r in Hn.
  pose proof (reachable_frag_ok postfix b Hrun) as Hall.
  rewrite Hstk in Hall.
  apply Forall_cons in Hall as [(_ & (_ & _ & _ & (a & t & Hfirst)) & _) _].
  assert (start_state nfa ∈ all_states nfa) as Hstart.
  { unfold all_states. apply elem_of_union_l, elem_of_keys_and_dests. left.
    by eapply has_edge_source. }
  assert (frag_states nfa = all_states nfa) as Hsame.
  { unfold frag_states. set_solver. }
  assert (∀ x, x ∈ all_states nfa → (x < 2 * minting_tokens postfix)%nat)
    as Hbelow.
  { intros x Hx. rewrite <- Hn. apply (Hiss nfa); [rewrite Hstk; constructor|].
    by rewrite Hsame. }
  split; [done|]. split; [done|]. intros Hone.
  assert (all_states nfa = set_seq 0 (2 * minting_tokens postfix)) as Heq.
  { apply set_eq. intros x. rewrite elem_of_set_seq. split.
    - intros Hx. apply Hbelow in Hx. lia.
    - intros [_ Hx]. rewrite <- Hn in Hx. cbn in Hx.
      destruct (Huse x Hx) as (N & HN & HxN).
      destruct (underflows 0 postfix) eqn:Hu.
      { by rewrite (process_all_underflow postfix fresh_builder Hu) in Hrun. }
      destruct (process_all_no_underflow postfix fresh_builder Hu)
        as (b0 & Hrun0 & Hlen).
      rewrite Hrun in Hrun0. injection Hrun0 as <-.
      cbn [fresh_builder stack length] in Hlen.
      rewrite Hone, Hstk in Hlen. destruct rest; [|done].
      rewrite Hstk in HN. apply list_elem_of_singleton in HN as ->.
      by rewrite <- Hsame. }
  split; [done|]. by rewrite Heq, size_set_seq.
Qed.

Lemma result_state_count_witness :
  let nfa := mkNFA 0 3 {[ 0%nat := {[ ch "a" := {[ 1%nat ]} ]};
                          1%nat := {[ EPSILON := {[ 2%nat ]} ]};
                          2%nat := {[ ch "b" := {[ 3%nat ]} ]} ]} in
  postfix_to_nfa (str "ab.") = Ok nfa
  ∧ size (all_states nfa) = 4%nat.
Proof.
  intros nfa.
  assert (Hrun : postfix_to_nfa (str "ab.") = Ok nfa)
    by (vm_compute; reflexivity).
  split; [exact Hrun|].
  destruct (result_state_count (str "ab.") nfa Hrun) as (_ & _ & H).
  exact (proj2 (H eq_refl)).
Defined.

(** ** The automaton of a string of literals *)

Section Chain.

Implicit Types (b : builder) (c x : Char) (w p rest : list Char) (F : NFA).

Lemma chain_edge_singleton c (s : nat) (a : Char) (t : nat) :
  chain_edge [c] s a t ↔ (s, a, t) = (0%nat, c, 1%nat).
Proof.
  unfold chain_edge. split.
  - intros [(i & Hi & -> & ->) | (_ & i & Hi & _)]; [|cbn in Hi; lia].
    destruct i as [|i]; [|done]. by injection Hi as ->.
  - intros [= -> -> ->]. left. by exists 0%nat.
Qed.

Lemma chain_edge_snoc p x (s : nat) (a : Char) (t : nat) :
  p ≠ [] →
  chain_edge (p ++ [x]) s a t
  ↔ chain_edge p s a t
    ∨ (s, a, t) = ((2 * length p)%nat, x, (2 * length p + 1)%nat)
    ∨ (s, a, t) = ((2 * length p - 1)%nat, EPSILON, (2 * length p)%nat).
Proof.
  intros Hp.
  assert (1 ≤ length p)%nat as Hlen by (destruct p; [done|cbn; lia]).
  unfold chain_edge. rewrite length_app. cbn [length]. split.
  - intros [(i & Hi & -> & ->) | (-> & i & Hi & -> & ->)].
    + apply lookup_app_Some in Hi as [Hi | [Hge Hi]].
      * left. left. by exists i.
      * right. left.
        destruct (i - length p)%nat as [|k] eqn:Hk; [|done].
        injection Hi as ->. assert (i = length p) as -> by lia. done.
    + destruct (decide (i + 1 < length p)%nat) as [Hlt|Hge].
      * left. right. split; [done|]. by exists i.
      * right. right. assert (i = (length p - 1)%nat) as -> by lia.
        repeat f_equal; lia.
  - intros [[(i & Hi & -> & ->) | (-> & i & Hi & -> & ->)]
           | [[= -> -> ->] | [= -> -> ->]]].
    + left. exists i. split; [|done]. by apply lookup_app_l_Some.
    + right. split; [done|]. exists i. split; [lia|done].
    + left. exists (length p). split; [|done].
      rewrite lookup_app_r by lia. by rewrite Nat.sub_diag.
    + right. split; [done|]. exists (length p - 1)%nat.
      split; [lia|]. split; lia.
Qed.

Lemma process_literal (n : nat) (stk : list NFA) x :
  char_in x [STAR; PLUS; QMARK; DOT; BAR] = false →
  process x (mkBuilder n stk)
  = Ok ((), mkBuilder (2 + n)
              (add_edges (mkNFA n (S n) ∅) [(n, x, S n)] :: stk)).
Proof. intros Hlit. unfold process. by rewrite Hlit. Qed.

Lemma literal_fragment_edges (n : nat) x (s : nat) (a : Char) (t : nat) :
  edge (add_edges (mkNFA n (S n) ∅) [(n, x, S n)]) s a t
  ↔ (s, a, t) = (n, x, S n).
Proof.
  change (add_edges (mkNFA n (S n) ∅) [(n, x, S n)])
    with (add_transition (mkNFA n (S n) ∅) n x (S n)).
  rewrite literal_fragment. apply literal_edges.
Qed.

(** One more literal and its concatenation extend the chain. *)
Lemma chain_step p x (n : nat) F :
  builder_inv (mkBuilder n [F]) →
  p ≠ [] →
  n = (2 * length p)%nat →
  start_state F = 0%nat →
  accept_state F = (2 * length p - 1)%nat →
  (∀ s a t, edge F s a t ↔ chain_edge p s a t) →
  char_in x [STAR; PLUS; QMARK; DOT; BAR] = false →
  ∃ F',
    process_all [x; DOT] (mkBuilder n [F]) = Ok ((), mkBuilder (2 + n) [F'])
    ∧ builder_inv (mkBuilder (2 + n) [F'])
    ∧ start_state F' = 0%nat
    ∧ accept_state F' = (2 * length (p ++ [x]) - 1)%nat
    ∧ ∀ s a t, edge F' s a t ↔ chain_edge (p ++ [x]) s a t.
Proof.
  intros Hinv Hp Hn Hs Ha HE Hlit.
  pose proof (process_literal n [F] x Hlit) as Hp1.
  pose proof (literal_fragment_edges n x) as HEL.
  destruct (add_edges_spec (mkNFA n (S n) ∅) [(n, x, S n)])
    as (HsL & HaL & _).
  cbn [start_state accept_state] in HsL, HaL.
  remember (add_edges (mkNFA n (S n) ∅) [(n, x, S n)]) as L eqn:HL.
  pose proof (process_DOT (2 + n) L F []) as Hp2.
  assert (builder_inv (mkBuilder (2 + n) [L; F])) as Hinv1
    by by eapply process_inv.
  pose proof (top_two_disjoint _ L F [] Hinv1 eq_refl) as Hd.
  pose proof (new_fragment_edges (start_state F) (accept_state L) _
                (dot_edges F L) [F; L]
                (λ s a t, binary_operand_edges F L s a t Hd)) as E.
  destruct (add_edges_spec
              (mkNFA (start_state F) (accept_state L)
                 (merge_transitions (transitions F) (transitions L)))
              (dot_edges F L)) as (HsF' & HaF' & _).
  cbn [start_state accept_state] in HsF', HaF'.
  remember (add_edges
              (mkNFA (start_state F) (accept_state L)
                 (merge_transitions (transitions F) (transitions L)))
              (dot_edges F L)) as F' eqn:HF'.
  assert (builder_inv (mkBuilder (2 + n) [F'])) as Hinv2
    by by eapply process_inv.
  exists F'. split; [|split; [done|split; [|split]]].
  - by rewrite process_all_cons, Hp1, process_all_cons, Hp2.
  - by rewrite HsF'.
  - rewrite HaF', HaL, length_app. cbn [length]. lia.
  - intros s a t. rewrite E, chain_edge_snoc by done. unfold dot_edges.
    rewrite list_elem_of_singleton, Ha, HsL. split.
    + intros [(N & HN & He) | Hadd].
      * apply elem_of_cons in HN as [-> | ->%list_elem_of_singleton].
        -- left. by apply HE.
        -- right. left. apply HEL in He. rewrite He.
           repeat f_equal; lia.
      * right. right. rewrite Hadd. repeat f_equal; lia.
    + intros [He | [Heq | Heq]].
      * left. exists F. split; [constructor|]. by apply HE.
      * left. exists L. split; [repeat constructor|].
        apply HEL. rewrite Heq. repeat f_equal; lia.
      * right. rewrite Heq. repeat f_equal; lia.
Qed.

Lemma chain_run rest p (n : nat) F :
  builder_inv (mkBuilder n [F]) →
  p ≠ [] →
  n = (2 * length p)%nat →
  start_state F = 0%nat →
  accept_state F = (2 * length p - 1)%nat →
  (∀ s a t, edge F s a t ↔ chain_edge p s a t) →
  Forall (λ x, char_in x [STAR; PLUS; QMARK; DOT; BAR] = false) rest →
  ∃ (n' : nat) F',
    process_all (flat_map (λ x, [x; DOT]) rest) (mkBuilder n [F])
    = Ok ((), mkBuilder n' [F'])
    ∧ start_state F' = 0%nat
    ∧ accept_state F' = (2 * length (p ++ rest) - 1)%nat
    ∧ ∀ s a t, edge F' s a t ↔ chain_edge (p ++ rest) s a t.
Proof.
  revert p n F. induction rest as [|x rest IH];
    intros p n F Hinv Hp Hn Hs Ha HE Hall.
  - exists n, F. rewrite app_nil_r. done.
  - apply Forall_cons in Hall as [Hx Hall].
    destruct (chain_step p x n F Hinv Hp Hn Hs Ha HE Hx)
      as (F1 & Hrun1 & Hinv1 & Hs1 & Ha1 & HE1).
    destruct (IH (p ++ [x]) (2 + n)%nat F1) as (n' & F' & Hrun & Hs' & Ha' & HE');
      try done.
    + by destruct p.
    + rewrite length_app. cbn [length]. lia.
    + exists n', F'. rewrite <- app_assoc in Ha', HE'. cbn [app] in Ha', HE'.
      split; [|done]. cbn [flat_map app].
      rewrite process_all_cons in Hrun1.
      rewrite process_all_cons.
      destruct (process x (mkBuilder n [F])) as [[[] b1]|]; [|done].
      rewrite process_all_cons in Hrun1. rewrite process_all_cons.
      destruct (process DOT b1) as [[[] b2]|]; [|done].
      injection Hrun1 as ->. exact Hrun.
Qed.

Lemma operand_is_literal_token x :
  is_operand x → char_in x [STAR; PLUS; QMARK; DOT; BAR] = false.
Proof.
  intros (_ & _ & H1%N.eqb_neq & H2%N.eqb_neq & H3%N.eqb_neq & H4%N.eqb_neq
          & H5%N.eqb_neq)%operand_chars.
  unfold char_in. cbn [existsb]. by rewrite H1, H2, H3, H4, H5.
Qed.

Lemma postfix_chain c rest :
  Forall is_operand (c :: rest) →
  ∃ nfa,
    postfix_to_nfa (operands_postfix (c :: rest)) = Ok nfa
    ∧ start_state nfa = 0%nat
    ∧ accept_state nfa = (2 * length (c :: rest) - 1)%nat
    ∧ ∀ s a t, edge nfa s a t ↔ chain_edge (c :: rest) s a t.
Proof.
  intros [Hc Hrest]%Forall_cons.
  set (L := add_edges (mkNFA 0 1 ∅) [(0%nat, c, 1%nat)]).
  assert (process c fresh_builder = Ok ((), mkBuilder 2 [L])) as Hp0
    by by apply process_literal, operand_is_literal_token.
  assert (builder_inv (mkBuilder 2 [L])) as Hinv.
  { eapply process_inv; [apply fresh_builder_inv|exact Hp0]. }
  destruct (add_edges_spec (mkNFA 0 1 ∅) [(0%nat, c, 1%nat)])
    as (HsL & HaL & _).
  fold L in HsL, HaL. cbn [start_state accept_state] in HsL, HaL.
  destruct (chain_run rest [c] 2 L) as (n' & F' & Hrun & Hs' & Ha' & HE');
    try done.
  - intros s a t. unfold L. rewrite literal_fragment_edges.
    by rewrite chain_edge_singleton.
  - eapply Forall_impl; [exact Hrest|]. apply operand_is_literal_token.
  - exists F'. split; [|done].
    apply (postfix_to_nfa_top _ (mkBuilder n' [F']) F' []); [|done].
    cbn [operands_postfix]. rewrite process_all_cons, Hp0. exact Hrun.
Qed.

End Chain.

(** X16. For a non-empty pattern of literals only (no operator, parenthesis
    or opening bracket) [regex_to_nfa] returns the chain automaton: it
    starts at 0 and accepts at [2n - 1], character [i] labels the edge from
    [2i] to [2i + 1], an epsilon edge leads from [2i + 1] to [2i + 2], and
    there is no other edge. *)
Theorem literal_string_automaton (w : list Char) :
  w ≠ [] →
  Forall is_operand w →
  LBRACKET ∉ w →
  ∃ nfa,
    regex_to_nfa w = Ok nfa
    ∧ start_state nfa = 0%nat
    ∧ accept_state nfa = (2 * length w - 1)%nat
    ∧ ∀ s a t, edge nfa s a t ↔ chain_edge w s a t.
Proof.
  intros Hne Hall Hlb. destruct w as [|c rest]; [done|].
  destruct (postfix_chain c rest Hall) as (nfa & Hrun & Hrest).
  exists nfa. split; [|done].
  unfold regex_to_nfa, expand_character_classes.
  rewrite <- (app_nil_r (c :: rest)) at 1.
  rewrite expand_loop_literals by done.
  cbn [expand_loop app mbind result_bind rbind].
  rewrite infix_to_postfix_of_operands by done.
  cbn [mbind result_bind rbind]. exact Hrun.
Qed.

Lemma literal_string_automaton_witness :
  ∃ nfa, regex_to_nfa (str "abc") = Ok nfa
         ∧ accept_state nfa = 5%nat
         ∧ edge nfa 3 EPSILON 4.
Proof.
  destruct (literal_string_automaton (str "abc")) as (nfa & Hrun & _ & Ha & HE).
  - discriminate.
  - repeat constructor; vm_compute; discriminate.
  - vm_compute. intros H. apply list_elem_of_In in H. simpl in H.
    repeat (destruct H as [H|H]; [discriminate H|]). exact H.
  - exists nfa. split; [exact Hrun|]. split; [exact Ha|].
    apply HE. right. split; [reflexivity|]. exists 1%nat.
    split; [vm_compute; lia|]. split; reflexivity.
Defined.

(** ** Closing parentheses never reach the output *)

Section NoClosing.

Implicit Types (regex output stack : list Char) (char : Char).

Lemma stack_has_no_rparen stack :
  Forall (λ c, is_Some (precedence c)) stack → RPAREN ∉ stack.
Proof.
  intros Hst Hin. rewrite Forall_forall in Hst.
  destruct (Hst RPAREN Hin) as [p Hp]. by vm_compute in Hp.
Qed.

Lemma shunt_no_rparen char output stack output' stack' :
  Forall (λ c, is_Some (precedence c)) stack →
  RPAREN ∉ output →
  shunt char output stack = Ok (output', stack') →
  RPAREN ∉ output'.
Proof.
  intros Hst Hout. pose proof (stack_has_no_rparen stack Hst) as Hno.
  destruct (shunt_viewP char output stack Hst)
    as [-> | -> _ | moved s' -> -> Hm | moved s' _ Hne Hprec -> | [Hne Hop]];
    intros [= <- <-]; set_solver.
Qed.

Lemma shunting_yard_no_rparen regex output stack output' stack' :
  Forall (λ c, is_Some (precedence c)) stack →
  RPAREN ∉ output →
  shunting_yard regex output stack = Ok (output', stack') →
  RPAREN ∉ output' ++ stack'.
Proof.
  revert output stack.
  induction regex as [|char regex IH]; intros output stack Hst Hout.
  - intros [= <- <-]. apply not_elem_of_app. split; [done|].
    by apply stack_has_no_rparen.
  - rewrite shunting_yard_cons.
    destruct (shunt char output stack) as [[o1 s1]|] eqn:Hstep; [|done].
    destruct (shunt_step _ _ _ _ _ Hst Hstep) as (Hs1 & _).
    apply IH; [done|]. exact (shunt_no_rparen _ _ _ _ _ Hst Hout Hstep).
Qed.

End NoClosing.

(** X17. A closing parenthesis never reaches the postfix string: whenever the
    conversion succeeds, its result has no [')']. *)
Theorem postfix_has_no_closing_paren (regex postfix : list Char) :
  infix_to_postfix regex = Ok postfix → RPAREN ∉ postfix.
Proof.
  rewrite infix_to_postfix_run.
  destruct (shunting_yard (insert_concat regex) [] []) as [[o s]|] eqn:Hrun;
    [|done].
  intros [= <-].
  by apply (shunting_yard_no_rparen _ _ _ _ _ (Forall_nil_2 _)
              (not_elem_of_nil _) Hrun).
Qed.

Lemma postfix_has_no_closing_paren_witness :
  RPAREN ∉ str "ab|c*.".
Proof.
  apply (postfix_has_no_closing_paren (str "(a|b)c*") (str "ab|c*.")).
  vm_compute. reflexivity.
Defined.

(** ** Postfix order *)

Section ExplicitText.

Implicit Types (c n : Char) (text rest : list Char) (r a b : regex).

(** What pass 1 puts after a character, given what follows it. *)
Lemma insert_concat_spec_cons c text :
  insert_concat_spec (c :: text)
  = c :: match text with
         | [] => []
         | n :: _ => if decide (concat_between c n) then [DOT] else []
         end ++ insert_concat_spec text.
Proof.
  destruct text as [|n text]; [done|]. cbn [insert_concat_spec].
  by destruct (decide (concat_between c n)).
Qed.

Lemma insert_concat_spec_app text c n rest :
  insert_concat_spec ((text ++ [c]) ++ n :: rest)
  = insert_concat_spec (text ++ [c])
    ++ (if decide (concat_between c n) then [DOT] else [])
    ++ insert_concat_spec (n :: rest).
Proof.
  induction text as [|x text IH].
  - cbn [app]. by rewrite (insert_concat_spec_cons c (n :: rest)).
  - cbn [app]. rewrite (insert_concat_spec_cons x), IH.
    rewrite (insert_concat_spec_cons x (text ++ [c])).
    destruct text; cbn [app]; by rewrite <- ?app_assoc.
Qed.

Lemma insert_concat_spec_dot text rest :
  ends_ok text → starts_ok rest →
  insert_concat_spec (text ++ rest)
  = insert_concat_spec text ++ [DOT] ++ insert_concat_spec rest.
Proof.
  intros (text' & c & -> & Hc) Hn. destruct rest as [|n rest]; [done|].
  rewrite insert_concat_spec_app, decide_True; [done|].
  assert (c ≠ LPAREN ∧ c ≠ BAR) as Hleft.
  { destruct Hc as [Hop | [-> | [-> | [-> | ->]]]]; [|done..].
    by destruct (operand_chars c Hop) as (? & ? & ? & ? & ? & ? & ?). }
  assert (n ≠ RPAREN ∧ n ≠ BAR ∧ n ≠ STAR ∧ n ≠ PLUS ∧ n ≠ QMARK) as Hright.
  { destruct Hn as [Hop | ->]; [|done].
    by destruct (operand_chars n Hop) as (? & ? & ? & ? & ? & ? & ?). }
  done.
Qed.

Lemma insert_concat_spec_no_dot text n rest :
  text ≠ [] →
  n ∈ [RPAREN; BAR; STAR; PLUS; QMARK] →
  insert_concat_spec (text ++ n :: rest)
  = insert_concat_spec text ++ insert_concat_spec (n :: rest).
Proof.
  intros Hne Hn. destruct text as [|x text] using rev_ind; [done|]. clear IHtext.
  rewrite insert_concat_spec_app, decide_False; [done|].
  intros (_ & H1 & H2 & H3 & H4 & H5).
  repeat (apply elem_of_cons in Hn as [-> | Hn]; [done|]).
  by apply elem_of_nil in Hn.
Qed.

Lemma insert_concat_spec_opener c text :
  c = LPAREN ∨ c = BAR →
  insert_concat_spec (c :: text) = c :: insert_concat_spec text.
Proof.
  intros Hc. rewrite insert_concat_spec_cons. destruct text as [|n text]; [done|].
  rewrite decide_False; [done|]. intros ((H1 & H2) & _). by destruct Hc.
Qed.

Lemma starts_ok_app text rest : starts_ok text → starts_ok (text ++ rest).
Proof. by destruct text. Qed.

Lemma starts_ok_nonempty text : starts_ok text → text ≠ [].
Proof. by destruct text. Qed.

Lemma ends_ok_app text rest : ends_ok rest → ends_ok (text ++ rest).
Proof.
  intros (rest' & c & -> & Hc). exists (text ++ rest'), c.
  by rewrite app_assoc.
Qed.

Lemma ends_ok_snoc text c :
  is_operand c ∨ c = RPAREN ∨ c = STAR ∨ c = PLUS ∨ c = QMARK →
  ends_ok (text ++ [c]).
Proof. intros Hc. by exists text, c. Qed.

Lemma paren_starts_ends (l : nat) r text :
  starts_ok text → ends_ok text →
  starts_ok (paren l r text) ∧ ends_ok (paren l r text).
Proof.
  intros Hs He. unfold paren. destruct (level r <? l)%nat; [|done]. split.
  - cbn. by right.
  - apply (ends_ok_app [LPAREN]), ends_ok_snoc. tauto.
Qed.

Lemma infix_text_starts_ends r :
  literals_ok r → starts_ok (infix_text r) ∧ ends_ok (infix_text r).
Proof.
  induction r as [c | a IH | a IH | a IH | a IHa b IHb | a IHa b IHb | a IH];
    cbn [infix_text literals_ok].
  - intros Hc. split; [by left|]. apply (ends_ok_snoc []). by left.
  - intros [Hs He]%IH. destruct (paren_starts_ends 3 a _ Hs He) as [Hs' He'].
    split; [by apply starts_ok_app|]. apply ends_ok_snoc. tauto.
  - intros [Hs He]%IH. destruct (paren_starts_ends 3 a _ Hs He) as [Hs' He'].
    split; [by apply starts_ok_app|]. apply ends_ok_snoc. tauto.
  - intros [Hs He]%IH. destruct (paren_starts_ends 3 a _ Hs He) as [Hs' He'].
    split; [by apply starts_ok_app|]. apply ends_ok_snoc. tauto.
  - intros [[Hsa Hea]%IHa [Hsb Heb]%IHb].
    destruct (paren_starts_ends 2 a _ Hsa Hea) as [Hs' _].
    destruct (paren_starts_ends 3 b _ Hsb Heb) as [_ He'].
    split; [by apply starts_ok_app|by apply ends_ok_app].
  - intros [[Hsa Hea]%IHa [Hsb Heb]%IHb].
    destruct (paren_starts_ends 1 a _ Hsa Hea) as [Hs' _].
    destruct (paren_starts_ends 2 b _ Hsb Heb) as [_ He'].
    split; [by apply starts_ok_app|]. by apply ends_ok_app, ends_ok_app.
  - intros _. split; [by right|].
    apply (ends_ok_app [LPAREN]), ends_ok_snoc. tauto.
Qed.

Lemma insert_concat_spec_group text :
  text ≠ [] →
  insert_concat_spec ([LPAREN] ++ text ++ [RPAREN])
  = [LPAREN] ++ insert_concat_spec text ++ [RPAREN].
Proof.
  intros Hne. cbn [app].
  rewrite insert_concat_spec_opener by by left.
  rewrite insert_concat_spec_no_dot; [done|done|]. set_solver.
Qed.

Lemma insert_concat_spec_paren (l : nat) r text text' :
  text ≠ [] →
  insert_concat_spec text = text' →
  insert_concat_spec (paren l r text) = paren l r text'.
Proof.
  intros Hne <-. unfold paren. destruct (level r <? l)%nat; [|done].
  by apply insert_concat_spec_group.
Qed.

(** Pass 1 writes out the concatenations of the expression, and nothing
    else. *)
Lemma insert_concat_of_infix_text r :
  literals_ok r → insert_concat_spec (infix_text r) = explicit_text r.
Proof.
  assert (∀ (l : nat) a,
             literals_ok a →
             insert_concat_spec (infix_text a) = explicit_text a →
             insert_concat_spec (paren l a (infix_text a))
             = paren l a (explicit_text a)
             ∧ starts_ok (paren l a (infix_text a))
             ∧ ends_ok (paren l a (infix_text a))) as Hsub.
  { intros l a Ha IH. destruct (infix_text_starts_ends a Ha) as [Hs He].
    split; [|by apply paren_starts_ends].
    apply insert_concat_spec_paren; [by apply starts_ok_nonempty|done]. }
  assert (∀ (l : nat) a op,
             op ∈ [STAR; PLUS; QMARK] →
             literals_ok a →
             insert_concat_spec (infix_text a) = explicit_text a →
             insert_concat_spec (paren l a (infix_text a) ++ [op])
             = paren l a (explicit_text a) ++ [op]) as Hunary.
  { intros l a op Hop Ha IH. destruct (Hsub l a Ha IH) as (Heq & Hs & _).
    rewrite insert_concat_spec_no_dot, Heq;
      [done|by apply starts_ok_nonempty|set_solver]. }
  induction r as [c | a IH | a IH | a IH | a IHa b IHb | a IHa b IHb | a IH];
    cbn [infix_text explicit_text literals_ok].
  - done.
  - intros Ha. apply Hunary; [set_solver|done|by apply IH].
  - intros Ha. apply Hunary; [set_solver|done|by apply IH].
  - intros Ha. apply Hunary; [set_solver|done|by apply IH].
  - intros [Ha Hb].
    destruct (Hsub 2%nat a Ha (IHa Ha)) as (Heqa & _ & Hea).
    destruct (Hsub 3%nat b Hb (IHb Hb)) as (Heqb & Hsb & _).
    by rewrite insert_concat_spec_dot, Heqa, Heqb.
  - intros [Ha Hb].
    destruct (Hsub 1%nat a Ha (IHa Ha)) as (Heqa & Hsa & _).
    destruct (Hsub 2%nat b Hb (IHb Hb)) as (Heqb & _ & _).
    cbn [app]. rewrite insert_concat_spec_no_dot;
      [|by apply starts_ok_nonempty|set_solver].
    rewrite insert_concat_spec_opener by by right.
    by rewrite Heqa, Heqb.
  - intros Ha. destruct (infix_text_starts_ends a Ha) as [Hs _].
    rewrite insert_concat_spec_group by by apply starts_ok_nonempty.
    by rewrite IH.
Qed.

End ExplicitText.

Section PostfixOrder.

Implicit Types (c op : Char) (text rest output stack pending post : list Char).
Implicit Types (r a b : regex) (l p : nat).

Lemma stack_below_mono l l' stack :
  (l ≤ l')%nat → stack_below l stack → stack_below l' stack.
Proof.
  intros Hl. destruct stack as [|top stack]; [done|].
  intros (q & Hq & Hlt). exists q. split; [done|lia].
Qed.

Lemma binds_at_least_mono l l' pending :
  (l ≤ l')%nat →
  Forall (binds_at_least l') pending → Forall (binds_at_least l) pending.
Proof.
  intros Hl H. eapply Forall_impl; [exact H|].
  intros c (q & Hq & Hle). exists q. split; [done|lia].
Qed.

(** The popping loop of an operator takes all the pending operators that
    bind at least as much, and stops at a top that binds less. *)
Lemma pop_higher_pending p output pending stack :
  Forall (binds_at_least p) pending →
  stack_below p stack →
  pop_higher p output (pending ++ stack) = Ok (output ++ pending, stack).
Proof.
  revert output. induction pending as [|top pending IH]; intros output Hall Hst.
  - cbn [app]. rewrite app_nil_r. destruct stack as [|top stack]; [done|].
    destruct Hst as (q & Hq & Hlt). cbn [pop_higher]. rewrite Hq.
    by destruct (Nat.leb_spec p q); [lia|].
  - apply Forall_cons in Hall as [(q & Hq & Hle) Hall].
    cbn [app pop_higher]. rewrite Hq.
    destruct (Nat.leb_spec p q); [|lia].
    rewrite IH by done. by rewrite <- app_assoc.
Qed.

Lemma shunt_operator_pending op p output pending stack :
  precedence op = Some p → op ≠ LPAREN → op ≠ RPAREN →
  Forall (binds_at_least p) pending →
  stack_below p stack →
  shunt op output (pending ++ stack) = Ok (output ++ pending, op :: stack).
Proof.
  intros Hp Hlp%N.eqb_neq Hrp%N.eqb_neq Hall Hst.
  unfold shunt. rewrite Hlp, Hrp, Hp.
  by rewrite pop_higher_pending.
Qed.

(** The popping loop of a closing parenthesis takes all the pending
    operators and stops at the opening parenthesis, which is discarded. *)
Lemma pop_to_paren_pending output pending stack :
  Forall (binds_at_least 1) pending →
  pop_to_paren output (pending ++ LPAREN :: stack)
  = (output ++ pending, LPAREN :: stack).
Proof.
  revert output. induction pending as [|top pending IH]; intros output Hall.
  - cbn. by rewrite app_nil_r.
  - apply Forall_cons in Hall as [(q & Hq & Hle) Hall].
    cbn [app pop_to_paren].
    destruct (N.eqb_spec top LPAREN) as [->|_].
    + vm_compute in Hq. injection Hq as <-. lia.
    + cbn [negb]. rewrite IH by done. by rewrite <- app_assoc.
Qed.

Lemma shunt_closing_pending output pending stack :
  Forall (binds_at_least 1) pending →
  shunt RPAREN output (pending ++ LPAREN :: stack)
  = Ok (output ++ pending, stack).
Proof.
  intros Hall. unfold shunt.
  change (RPAREN =? LPAREN) with false. change (RPAREN =? RPAREN) with true.
  cbn iota. by rewrite pop_to_paren_pending.
Qed.

Lemma runs_literal c l : is_operand c → runs_as [c] l [c].
Proof.
  intros Hc output stack rest _. exists [c], [].
  cbn [app]. rewrite shunting_yard_cons, shunt_of_operand by done.
  by split.
Qed.

Lemma runs_weaken text l l' post :
  (l ≤ l')%nat → runs_as text l' post → runs_as text l post.
Proof.
  intros Hl Hrun output stack rest Hst.
  destruct (Hrun output stack rest (stack_below_mono l l' stack Hl Hst))
    as (sent & pending & Heq & Hpost & Hall).
  exists sent, pending. split; [done|]. split; [done|].
  by apply (binds_at_least_mono l l').
Qed.

(** A parenthesised text sends its whole postfix form to the output. *)
Lemma runs_group text l l' post :
  (1 ≤ l)%nat →
  runs_as text l post →
  runs_as ([LPAREN] ++ text ++ [RPAREN]) l' post.
Proof.
  intros Hl Hrun output stack rest _.
  destruct (Hrun output (LPAREN :: stack) (RPAREN :: rest))
    as (sent & pending & Heq & Hpost & Hall).
  { exists 0%nat. split; [done|lia]. }
  exists post, []. split; [|split; [by rewrite app_nil_r|done]].
  cbn [app]. rewrite shunting_yard_cons.
  change (shunt LPAREN output stack) with (Ok (output, LPAREN :: stack)).
  cbn iota. rewrite <- app_assoc. cbn [app]. rewrite Heq.
  rewrite shunting_yard_cons, shunt_closing_pending
    by by apply (binds_at_least_mono 1 l).
  cbn iota. by rewrite <- app_assoc, Hpost.
Qed.

Lemma runs_paren l r text post :
  (1 ≤ level r)%nat →
  runs_as text (level r) post →
  runs_as (paren l r text) l post.
Proof.
  intros Hlevel Hrun. unfold paren.
  destruct (Nat.ltb_spec (level r) l).
  - by apply (runs_group text (level r)).
  - by apply (runs_weaken text l (level r)).
Qed.

(** A quantifier follows its operand to the stack. *)
Lemma runs_unary text op post :
  precedence op = Some 3%nat → op ≠ LPAREN → op ≠ RPAREN →
  runs_as text 3 post →
  runs_as (text ++ [op]) 3 (post ++ [op]).
Proof.
  intros Hp Hlp Hrp Hrun output stack rest Hst.
  destruct (Hrun output stack (op :: rest) Hst)
    as (sent & pending & Heq & Hpost & Hall).
  exists post, [op]. split; [|split; [done|]].
  - rewrite <- app_assoc. cbn [app]. rewrite Heq.
    rewrite shunting_yard_cons, (shunt_operator_pending op 3) by done.
    cbn iota. by rewrite <- app_assoc, Hpost.
  - apply Forall_singleton. exists 3%nat. by split.
Qed.

(** A binary operator waits on the stack while its right operand, which
    binds more, is scanned. *)
Lemma runs_binary text1 text2 op p post1 post2 :
  precedence op = Some p → op ≠ LPAREN → op ≠ RPAREN →
  runs_as text1 p post1 →
  runs_as text2 (S p) post2 →
  runs_as (text1 ++ [op] ++ text2) p (post1 ++ post2 ++ [op]).
Proof.
  intros Hp Hlp Hrp Hrun1 Hrun2 output stack rest Hst.
  destruct (Hrun1 output stack (op :: text2 ++ rest) Hst)
    as (sent1 & pending1 & Heq1 & Hpost1 & Hall1).
  destruct (Hrun2 (output ++ post1) (op :: stack) rest)
    as (sent2 & pending2 & Heq2 & Hpost2 & Hall2).
  { exists p. split; [done|lia]. }
  exists (post1 ++ sent2), (pending2 ++ [op]). split; [|split].
  - rewrite <- !app_assoc. cbn [app]. rewrite Heq1.
    rewrite shunting_yard_cons, (shunt_operator_pending op p) by done.
    cbn iota. rewrite <- app_assoc, Hpost1, Heq2.
    by rewrite <- !app_assoc.
  - rewrite <- Hpost2. by rewrite <- !app_assoc.
  - apply Forall_app. split.
    + by apply (binds_at_least_mono p (S p)); [lia|].
    + apply Forall_singleton. exists p. by split.
Qed.

Lemma level_positive r : (1 ≤ level r)%nat.
Proof. destruct r; cbn; lia. Qed.

(** The scan of an expression's text sends its postfix order to the
    output, in every context that binds no more than the expression. *)
Lemma explicit_text_runs r :
  literals_ok r → runs_as (explicit_text r) (level r) (postfix_of r).
Proof.
  induction r as [c | a IH | a IH | a IH | a IHa b IHb | a IHa b IHb | a IH];
    cbn [explicit_text postfix_of literals_ok level].
  - apply runs_literal.
  - intros Ha. apply runs_unary; [done..|].
    apply runs_paren; [apply level_positive|by apply IH].
  - intros Ha. apply runs_unary; [done..|].
    apply runs_paren; [apply level_positive|by apply IH].
  - intros Ha. apply runs_unary; [done..|].
    apply runs_paren; [apply level_positive|by apply IH].
  - intros [Ha Hb]. apply (runs_binary _ _ DOT 2); [done..| |];
      (apply runs_paren; [apply level_positive|]); [by apply IHa|by apply IHb].
  - intros [Ha Hb]. apply (runs_binary _ _ BAR 1); [done..| |];
      (apply runs_paren; [apply level_positive|]); [by apply IHa|by apply IHb].
  - intros Ha. apply (runs_group _ (level a)); [apply level_positive|].
    by apply IH.
Qed.

(** The conversion of an expression's pattern is its postfix order. *)
Lemma infix_to_postfix_of_expression r :
  literals_ok r → infix_to_postfix (infix_text r) = Ok (postfix_of r).
Proof.
  intros Hr. rewrite infix_to_postfix_run, insert_concat_refines.
  rewrite insert_concat_of_infix_text by done.
  destruct (explicit_text_runs r Hr [] [] [] I)
    as (sent & pending & Heq & Hpost & _).
  rewrite app_nil_r in Heq. rewrite Heq. cbn [shunting_yard app].
  by rewrite app_nil_r, Hpost.
Qed.

End PostfixOrder.

(** C5. Pass 1 of [infix_to_postfix] emits every character and puts the
    concatenation operator between [c] and the next character exactly when
    [c] is not an opening group or alternation and the next character is not
    a closing group, alternation or quantifier.  Pass 2 then produces
    postfix order: the pattern of any expression (quantifiers binding more
    than concatenation, concatenation more than alternation, operators
    associating to the left, parentheses where needed or wanted) is
    converted to the expression's operands followed by its operator, all
    the way down.  ["ab"] becomes ["ab."] and ["a*b"] becomes ["a*b."]. *)
Theorem concat_insertion :
  (∀ regex, insert_concat regex = insert_concat_spec regex)
  ∧ insert_concat [] = []
  ∧ (∀ c, insert_concat [c] = [c])
  ∧ (∀ c nxt rest, concat_between c nxt →
       insert_concat (c :: nxt :: rest) = c :: DOT :: insert_concat (nxt :: rest))
  ∧ (∀ c nxt rest, ¬ concat_between c nxt →
       insert_concat (c :: nxt :: rest) = c :: insert_concat (nxt :: rest))
  ∧ infix_to_postfix (str "ab") = Ok (str "ab.")
  ∧ infix_to_postfix (str "a*b") = Ok (str "a*b.")
  ∧ (∀ r, literals_ok r →
       insert_concat (infix_text r) = explicit_text r
       ∧ infix_to_postfix (infix_text r) = Ok (postfix_of r)).
Proof.
  split; [apply insert_concat_refines|].
  split; [reflexivity|]. split; [reflexivity|].
  split; [|split; [|split; [reflexivity|split; [reflexivity|]]]].
  - intros c nxt rest H. rewrite !insert_concat_refines.
    cbn [insert_concat_spec]. by rewrite decide_True.
  - intros c nxt rest H. rewrite !insert_concat_refines.
    cbn [insert_concat_spec]. by rewrite decide_False.
  - intros r Hr. split.
    + rewrite insert_concat_refines. by apply insert_concat_of_infix_text.
    + by apply infix_to_postfix_of_expression.
Qed.

Lemma concat_insertion_witness :
  insert_concat (str "ab") = str "a.b"
  ∧ insert_concat (str "a*") = str "a*"
  ∧ infix_to_postfix (str "(a|b)c*") = Ok (str "ab|c*.")
  ∧ infix_to_postfix (str "a|bc") = Ok (str "abc.|").
Proof.
  destruct concat_insertion as (_ & _ & H1 & Hyes & Hno & _ & _ & Hpost).
  split; [|split; [|split]].
  - etrans; [apply (Hyes (ch "a") (ch "b") [])|].
    + vm_compute. repeat split; discriminate.
    + by rewrite H1.
  - etrans; [apply (Hno (ch "a") (ch "*") [])|].
    + vm_compute. intros (_ & _ & _ & H & _). by apply H.
    + by rewrite H1.
  - apply (Hpost (Cat (Alt (Lit (ch "a")) (Lit (ch "b")))
                      (Star (Lit (ch "c"))))).
    vm_compute. repeat split; discriminate.
  - apply (Hpost (Alt (Lit (ch "a")) (Cat (Lit (ch "b")) (Lit (ch "c"))))).
    vm_compute. repeat split; discriminate.
Defined.

(** ** The literal [ε] and the epsilon edges *)

Section EpsilonLiteral.

Implicit Types (postfix pre post : list Char) (b : builder) (N F : NFA).

Lemma process_all_app pre post b :
  process_all (pre ++ post) b
  = match process_all pre b with
    | Ok (_, b') => process_all post b'
    | Raise e => Raise e
    end.
Proof.
  revert b. induction pre as [|char pre IH]; intros b.
  - reflexivity.
  - cbn [app]. rewrite !process_all_cons.
    destruct (process char b) as [[[] b1]|e]; [apply IH|done].
Qed.

(** An edge of a fragment on the stack is an edge of a fragment on the
    stack after the next token: of the same fragment, or of the one that
    took it as an operand. *)
Lemma process_keeps_edges char b b' N s (a : Char) (t : nat) :
  builder_inv b → process char b = Ok ((), b') →
  N ∈ stack b → edge N s a t →
  ∃ N', N' ∈ stack b' ∧ edge N' s a t.
Proof.
  intros Hinv.
  destruct (process_viewP char b)
    as [Hlit | Hu | N1 rest added Hstk Hin
        | N2 N1 rest -> Hstk | N2 N1 rest -> Hstk]; intros [= <-] HN He;
    cbn [stack].
  - exists N. split; [|done]. apply elem_of_cons. by right.
  - rewrite Hstk in HN. apply elem_of_cons in HN as [-> | HN].
    + eexists. split; [apply elem_of_cons; by left|].
      apply (new_fragment_edges _ _ (transitions N1) added [N1]);
        [intros; apply unary_operand_edges|].
      left. exists N1. split; [constructor|done].
    + exists N. split; [|done]. apply elem_of_cons. by right.
  - pose proof (top_two_disjoint b N2 N1 rest Hinv Hstk) as Hd.
    rewrite Hstk in HN.
    apply elem_of_cons in HN as [-> | [-> | HN]%elem_of_cons].
    + eexists. split; [apply elem_of_cons; by left|].
      apply (new_fragment_edges _ _
               (merge_transitions (transitions N1) (transitions N2))
               (dot_edges N1 N2) [N1; N2]);
        [intros; by apply binary_operand_edges|].
      left. exists N2. split; [repeat constructor|done].
    + eexists. split; [apply elem_of_cons; by left|].
      apply (new_fragment_edges _ _
               (merge_transitions (transitions N1) (transitions N2))
               (dot_edges N1 N2) [N1; N2]);
        [intros; by apply binary_operand_edges|].
      left. exists N1. split; [repeat constructor|done].
    + exists N. split; [|done]. apply elem_of_cons. by right.
  - pose proof (top_two_disjoint b N2 N1 rest Hinv Hstk) as Hd.
    rewrite Hstk in HN.
    apply elem_of_cons in HN as [-> | [-> | HN]%elem_of_cons].
    + eexists. split; [apply elem_of_cons; by left|].
      apply (new_fragment_edges _ _
               (merge_transitions (transitions N1) (transitions N2))
               (bar_edges (next_state_id b) (S (next_state_id b)) N1 N2)
               [N1; N2]);
        [intros; by apply binary_operand_edges|].
      left. exists N2. split; [repeat constructor|done].
    + eexists. split; [apply elem_of_cons; by left|].
      apply (new_fragment_edges _ _
               (merge_transitions (transitions N1) (transitions N2))
               (bar_edges (next_state_id b) (S (next_state_id b)) N1 N2)
               [N1; N2]);
        [intros; by apply binary_operand_edges|].
      left. exists N1. split; [repeat constructor|done].
    + exists N. split; [|done]. apply elem_of_cons. by right.
Qed.

Lemma process_all_keeps_edges postfix b b' N s (a : Char) (t : nat) :
  builder_inv b → process_all postfix b = Ok ((), b') →
  N ∈ stack b → edge N s a t →
  ∃ N', N' ∈ stack b' ∧ edge N' s a t.
Proof.
  revert b N. induction postfix as [|char postfix IH]; intros b N Hinv.
  - intros [= <-]. eauto.
  - rewrite process_all_cons.
    destruct (process char b) as [[[] b1]|e] eqn:Hp; [|done].
    intros Hrun HN He.
    destruct (process_keeps_edges char b b1 N s a t Hinv Hp HN He)
      as (N1 & HN1 & He1).
    apply (IH b1 N1); [by eapply process_inv|done..].
Qed.

(** The edge of a literal token is on the stack at the end of the run, from
    the state the counter showed when the token was read to the next one. *)
Lemma literal_edge_survives pre x post b' :
  char_in x [STAR; PLUS; QMARK; DOT; BAR] = false →
  process_all (pre ++ x :: post) fresh_builder = Ok ((), b') →
  ∃ N, N ∈ stack b'
       ∧ edge N (2 * minting_tokens pre) x (S (2 * minting_tokens pre)).
Proof.
  intros Hlit. rewrite process_all_app.
  destruct (process_all pre fresh_builder) as [[[] b]|e] eqn:Hpre; [|done].
  rewrite process_all_cons.
  pose proof (reachable_inv pre b Hpre) as Hinv.
  pose proof (process_all_counts pre _ _ Hpre) as Hn.
  cbn [fresh_builder next_state_id] in Hn. rewrite Nat.add_0_r in Hn.
  destruct b as [n stk]. cbn [next_state_id] in Hn. subst n.
  pose proof (process_literal (2 * minting_tokens pre) stk x Hlit) as Hp.
  rewrite Hp. intros Hrun.
  eapply (process_all_keeps_edges post _ b' _ _ _ _ _ Hrun).
  - apply elem_of_cons. by left.
  - by apply literal_fragment_edges.
  Unshelve. by eapply process_inv.
Qed.

(** The postfix form of an expression runs, and leaves one more fragment
    on the stack. *)
Lemma postfix_of_runs r :
  literals_ok r →
  ∀ (n : nat) (stk : list NFA), ∃ (n' : nat) F,
    process_all (postfix_of r) (mkBuilder n stk)
    = Ok ((), mkBuilder n' (F :: stk)).
Proof.
  induction r as [c | r IH | r IH | r IH
                  | r1 IH1 r2 IH2 | r1 IH1 r2 IH2 | r IH];
    cbn [literals_ok postfix_of]; intros Hok n stk.
  - exists (2 + n)%nat, (add_edges (mkNFA n (S n) ∅) [(n, c, S n)]).
    rewrite process_all_cons.
    by rewrite process_literal by by apply operand_is_literal_token.
  - destruct (IH Hok n stk) as (n1 & F1 & H1).
    exists (2 + n1)%nat,
      (add_edges (mkNFA n1 (S n1) (transitions F1)) (star_edges n1 (S n1) F1)).
    rewrite process_all_app, H1. cbv beta iota.
    by rewrite process_all_cons, process_STAR.
  - destruct (IH Hok n stk) as (n1 & F1 & H1).
    exists (2 + n1)%nat,
      (add_edges (mkNFA n1 (S n1) (transitions F1)) (plus_edges n1 (S n1) F1)).
    rewrite process_all_app, H1. cbv beta iota.
    by rewrite process_all_cons, process_PLUS.
  - destruct (IH Hok n stk) as (n1 & F1 & H1).
    exists (2 + n1)%nat,
      (add_edges (mkNFA n1 (S n1) (transitions F1)) (qmark_edges n1 (S n1) F1)).
    rewrite process_all_app, H1. cbv beta iota.
    by rewrite process_all_cons, process_QMARK.
  - destruct Hok as [Hok1 Hok2].
    destruct (IH1 Hok1 n stk) as (n1 & F1 & H1).
    destruct (IH2 Hok2 n1 (F1 :: stk)) as (n2 & F2 & H2).
    exists n2,
      (add_edges
         (mkNFA (start_state F1) (accept_state F2)
            (merge_transitions (transitions F1) (transitions F2)))
         (dot_edges F1 F2)).
    rewrite process_all_app, H1. cbv beta iota.
    rewrite process_all_app, H2. cbv beta iota.
    by rewrite process_all_cons, process_DOT.
  - destruct Hok as [Hok1 Hok2].
    destruct (IH1 Hok1 n stk) as (n1 & F1 & H1).
    destruct (IH2 Hok2 n1 (F1 :: stk)) as (n2 & F2 & H2).
    exists (2 + n2)%nat,
      (add_edges
         (mkNFA n2 (S n2)
            (merge_transitions (transitions F1) (transitions F2)))
         (bar_edges n2 (S n2) F1 F2)).
    rewrite process_all_app, H1. cbv beta iota.
    rewrite process_all_app, H2. cbv beta iota.
    by rewrite process_all_cons, process_BAR.
  - by apply IH.
Qed.

(** On the pattern of an expression without an opening bracket, the
    pipeline evaluates the expression's postfix form. *)
Lemma regex_to_nfa_of_expression r :
  literals_ok r → (LBRACKET ∉ infix_text r) →
  regex_to_nfa (infix_text r) = postfix_to_nfa (postfix_of r).
Proof.
  intros Hok Hlb. unfold regex_to_nfa, expand_character_classes.
  rewrite <- (app_nil_r (infix_text r)) at 1.
  rewrite expand_loop_literals by done.
  cbn [expand_loop app mbind result_bind rbind].
  by rewrite infix_to_postfix_of_expression by done.
Qed.

Lemma regex_to_nfa_of_operands c rest :
  Forall is_operand (c :: rest) → (LBRACKET ∉ c :: rest) →
  ∃ nfa,
    regex_to_nfa (c :: rest) = Ok nfa
    ∧ ∀ s a t, edge nfa s a t ↔ chain_edge (c :: rest) s a t.
Proof.
  intros Hall Hlb.
  destruct (postfix_chain c rest Hall) as (nfa & Hrun & _ & _ & HE).
  exists nfa. split; [|done].
  unfold regex_to_nfa, expand_character_classes.
  rewrite <- (app_nil_r (c :: rest)) at 1.
  rewrite expand_loop_literals by done.
  cbn [expand_loop app mbind result_bind rbind].
  rewrite infix_to_postfix_of_operands by done.
  cbn [mbind result_bind rbind]. exact Hrun.
Qed.

End EpsilonLiteral.

(** C10. ['ε'] is no operator token: whatever the builder, the evaluator
    takes the literal branch on it and pushes the fragment whose one edge
    [n --ε--> n+1] is stored under the symbol the operator branches use for
    their epsilon edges.  After ['*'] on that fragment the literal's edge
    and the four edges of the star are five entries under that one symbol.
    In any run of the evaluator the edge of an ['ε'] token stays on the
    stack, and in the automaton of any expression in which ['ε'] occurs it
    is an edge of the result; in the automaton of a string of literals it
    labels the edge of its position as the connecting edges are
    labelled. *)
Theorem epsilon_literal_is_epsilon_edge :
  char_in EPSILON [STAR; PLUS; QMARK; DOT; BAR] = false
  ∧ (∀ b,
       process EPSILON b
       = Ok ((), {| next_state_id := 2 + next_state_id b;
                    stack :=
                      mkNFA (next_state_id b) (S (next_state_id b))
                        {[ next_state_id b
                           := {[ EPSILON := {[ S (next_state_id b) ]} ]} ]}
                      :: stack b |}))
  ∧ (∀ b, ∃ F,
       process_all [EPSILON; STAR] b
       = Ok ((), {| next_state_id := 4 + next_state_id b;
                    stack := F :: stack b |})
       ∧ start_state F = (2 + next_state_id b)%nat
       ∧ accept_state F = (3 + next_state_id b)%nat
       ∧ ∀ s a t, edge F s a t ↔
           (s, a, t) ∈
             [ (next_state_id b, EPSILON, (1 + next_state_id b)%nat);
               ((2 + next_state_id b)%nat, EPSILON, next_state_id b);
               ((1 + next_state_id b)%nat, EPSILON, next_state_id b);
               ((2 + next_state_id b)%nat, EPSILON,
                (3 + next_state_id b)%nat);
               ((1 + next_state_id b)%nat, EPSILON,
                (3 + next_state_id b)%nat) ])
  ∧ (∀ pre post b',
       process_all (pre ++ EPSILON :: post) fresh_builder = Ok ((), b') →
       ∃ N, N ∈ stack b'
            ∧ edge N (2 * minting_tokens pre) EPSILON
                (S (2 * minting_tokens pre)))
  ∧ (∀ r pre post,
       literals_ok r → (LBRACKET ∉ infix_text r) →
       postfix_of r = pre ++ EPSILON :: post →
       ∃ nfa, regex_to_nfa (infix_text r) = Ok nfa
              ∧ edge nfa (2 * minting_tokens pre) EPSILON
                  (S (2 * minting_tokens pre)))
  ∧ (∀ w (i : nat),
       Forall is_operand w → (LBRACKET ∉ w) → w !! i = Some EPSILON →
       ∃ nfa, regex_to_nfa w = Ok nfa
              ∧ edge nfa (2 * i) EPSILON (2 * i + 1)
              ∧ ∀ j : nat, (j + 1 < length w)%nat →
                  edge nfa (2 * j + 1) EPSILON (2 * j + 2))
  ∧ regex_to_nfa [EPSILON]
    = Ok (mkNFA 0 1 {[ 0%nat := {[ EPSILON := {[ 1%nat ]} ]} ]})
  ∧ (∀ s a t,
       edge (mkNFA 0 1 {[ 0%nat := {[ EPSILON := {[ 1%nat ]} ]} ]}) s a t
       ↔ (s, a, t) = (0%nat, EPSILON, 1%nat))
  ∧ regex_to_nfa [ch "a"; ch "b"]
    = Ok (mkNFA 0 3 {[ 0%nat := {[ ch "a" := {[ 1%nat ]} ]};
                       1%nat := {[ EPSILON := {[ 2%nat ]} ]};
                       2%nat := {[ ch "b" := {[ 3%nat ]} ]} ]})
  ∧ regex_to_nfa [EPSILON; EPSILON]
    = Ok (mkNFA 0 3 {[ 0%nat := {[ EPSILON := {[ 1%nat ]} ]};
                       1%nat := {[ EPSILON := {[ 2%nat ]} ]};
                       2%nat := {[ EPSILON := {[ 3%nat ]} ]} ]})
  ∧ dot_edges (mkNFA 0 1 ∅) (mkNFA 2 3 ∅) = [(1%nat, EPSILON, 2%nat)].
Proof.
  split; [reflexivity|].
  split; [|split; [|split; [|split; [|split]]]].
  - intros [n stk]. cbn [next_state_id stack].
    rewrite (process_literal n stk EPSILON) by reflexivity.
    change (add_edges (mkNFA n (S n) ∅) [(n, EPSILON, S n)])
      with (add_transition (mkNFA n (S n) ∅) n EPSILON (S n)).
    by rewrite literal_fragment.
  - intros [n stk]. cbn [next_state_id stack].
    set (L := add_edges (mkNFA n (S n) ∅) [(n, EPSILON, S n)]).
    destruct (add_edges_spec (mkNFA n (S n) ∅) [(n, EPSILON, S n)])
      as (HsL & HaL & _).
    fold L in HsL, HaL. cbn [start_state accept_state] in HsL, HaL.
    exists (add_edges (mkNFA (2 + n) (S (2 + n)) (transitions L))
              (star_edges (2 + n) (S (2 + n)) L)).
    destruct (add_edges_spec (mkNFA (2 + n) (S (2 + n)) (transitions L))
                (star_edges (2 + n) (S (2 + n)) L)) as (Hs & Ha & _).
    split; [|split; [exact Hs|split; [exact Ha|]]].
    + rewrite process_all_cons.
      rewrite (process_literal n stk EPSILON) by reflexivity.
      fold L. cbv beta iota.
      by rewrite process_all_cons, process_STAR.
    + intros s a t.
      rewrite (new_fragment_edges _ _ (transitions L) _ [L])
        by (intros; apply unary_operand_edges).
      unfold star_edges. rewrite HsL, HaL.
      rewrite (elem_of_cons _ (s, a, t) (n, EPSILON, (1 + n)%nat)).
      split.
      * intros [(N & ->%list_elem_of_singleton & He) | Hin]; [left|by right].
        by apply literal_fragment_edges.
      * intros [Heq | Hin]; [left|by right].
        exists L. split; [constructor|]. by apply literal_fragment_edges.
  - intros pre post b' Hrun.
    by apply (literal_edge_survives pre EPSILON post b').
  - intros r pre post Hok Hlb Hpost.
    rewrite regex_to_nfa_of_expression by done.
    destruct (postfix_of_runs r Hok 0 []) as (n' & F & Hrun).
    exists F. split.
    + by apply (postfix_to_nfa_top _ (mkBuilder n' [F]) F []).
    + rewrite Hpost in Hrun.
      destruct (literal_edge_survives pre EPSILON post _ eq_refl Hrun)
        as (N & HN & He).
      cbn [stack] in HN. by apply list_elem_of_singleton in HN as ->.
  - intros w i Hall Hlb Hi.
    destruct w as [|c rest]; [by rewrite lookup_nil in Hi|].
    destruct (regex_to_nfa_of_operands c rest Hall Hlb) as (nfa & Hrun & HE).
    exists nfa. split; [done|]. split.
    + apply HE. left. by exists i.
    + intros j Hj. apply HE. right. split; [done|]. by exists j.
  - split; [by vm_compute|].
    split; [apply literal_edges|].
    split; [by vm_compute|]. split; [by vm_compute|]. reflexivity.
Qed.

Lemma epsilon_literal_is_epsilon_edge_witness :
  (∃ nfa, regex_to_nfa [ch "a"; BAR; EPSILON; STAR] = Ok nfa
          ∧ edge nfa 2 EPSILON 3)
  ∧ (∃ nfa, regex_to_nfa [ch "a"; EPSILON] = Ok nfa
            ∧ edge nfa 2 EPSILON 3 ∧ edge nfa 1 EPSILON 2).
Proof.
  destruct epsilon_literal_is_epsilon_edge
    as (_ & _ & _ & _ & Hexpr & Hchain & _).
  split.
  - apply (Hexpr (Alt (Lit (ch "a")) (Star (Lit EPSILON)))
             [ch "a"] [STAR; BAR]).
    + vm_compute. repeat split; discriminate.
    + vm_compute. intros H. apply list_elem_of_In in H. simpl in H.
      repeat (destruct H as [H|H]; [discriminate H|]). exact H.
    + reflexivity.
  - destruct (Hchain [ch "a"; EPSILON] 1%nat) as (nfa & Hrun & He & Hc).
    + repeat constructor; vm_compute; discriminate.
    + vm_compute. intros H. apply list_elem_of_In in H. simpl in H.
      repeat (destruct H as [H|H]; [discriminate H|]). exact H.
    + reflexivity.
    + exists nfa. split; [exact Hrun|]. split; [exact He|].
      apply (Hc 0%nat). vm_compute. lia.
Defined.
